(** * AppxManifest.js: the Windows 10 application manifest wrapper

    A shallow embedding of [template/cordova/lib/AppxManifest.js] and the
    properties its specification states about it: the manifest cache, the
    demultiplexing of plugin changes, the identity and application views,
    the Dependencies section and the normalisation of the Capabilities
    section that runs before every serialisation. *)

From Stdlib Require Import Ascii String ZArith Lia Permutation OrdersEx.
From stdpp Require Import gmap strings list fin_maps sorting.

Open Scope string_scope.
Open Scope list_scope.
Open Scope nat_scope.


(** ** JavaScript values and control flow *)

(** What a [throw] carries. [Thrown] is a bare string ([throw 'text']);
    [TypeError] is raised both by the code ([new TypeError]) and by the
    engine when a method is called on [null] or [undefined]. *)
Inductive Exception : Type :=
| Thrown (value : string)
| Error (message : string)
| TypeError (message : string).

Inductive completion (A : Type) : Type :=
| Normal (value : A)
| Throw (e : Exception).
Arguments Normal {A} value.
Arguments Throw {A} e.

(** A method either hands back its receiver ([return this]) or falls off
    its end ([undefined]). *)
Inductive Returned : Type :=
| This
| Undefined.

(** Stateful code: the state survives a [throw], as the mutations made
    before it do in JavaScript. *)
Definition Js (S A : Type) : Type := S → completion A * S.

Definition ret {S A} (a : A) : Js S A := λ s, (Normal a, s).
Definition throw {S A} (e : Exception) : Js S A := λ s, (Throw e, s).
Definition bind {S A B} (m : Js S A) (k : A → Js S B) : Js S B :=
  λ s, match m s with
       | (Normal a, s') => k a s'
       | (Throw e, s') => (Throw e, s')
       end.
Definition get_state {S} : Js S S := λ s, (Normal s, s).
Definition modify_state {S} (f : S → S) : Js S unit := λ s, (Normal tt, f s).

Notation "'let!' x ':=' m 'in' k" := (bind m (λ x, k))
  (at level 10, x pattern, m at level 100, k at level 200).
Notation "'do!' m 'in' k" := (bind m (λ _, k))
  (at level 10, m at level 100, k at level 200).

(** ** Strings *)

(** The double quote, for messages that quote an element name. *)
Definition dquote : string := String (ascii_of_nat 34) EmptyString.

(** [s.split(sep)] for a one-character separator. *)
Fixpoint split_on (sep : ascii) (s : string) : list string :=
  match s with
  | EmptyString => [EmptyString]
  | String c s' =>
      if Ascii.eqb c sep then EmptyString :: split_on sep s'
      else match split_on sep s' with
           | [] => [String c EmptyString]
           | piece :: pieces => String c piece :: pieces
           end
  end.

(** [a > b] on strings: ordinal comparison of the code units. A missing
    operand ([undefined]) compares false. *)
Definition string_gt (a b : string) : bool :=
  match String.compare a b with Gt => true | _ => false end.

Definition js_gt (a b : option string) : bool :=
  match a, b with
  | Some x, Some y => string_gt x y
  | _, _ => false
  end.

(** [\d] *)
Definition is_digit (c : ascii) : bool :=
  let n := nat_of_ascii c in (48 <=? n) && (n <=? 57).

(** [version.match(/\.\d/g)]: the matches of a dot followed by a digit,
    scanned left to right without overlap; [None] is the [null] that
    [match] returns when nothing matches. *)
Fixpoint dot_digit_matches (s : string) : list string :=
  match s with
  | EmptyString => []
  | String c s' =>
      match s' with
      | EmptyString => []
      | String d s'' =>
          if Ascii.eqb c "." && is_digit d
          then String c (String d EmptyString) :: dot_digit_matches s''
          else dot_digit_matches s'
      end
  end.

Definition match_dot_digit (s : string) : option (list string) :=
  match dot_digit_matches s with
  | [] => None
  | ms => Some ms
  end.

(** ** The tree adapter

    The XML tree comes from the [elementtree] package, which is not part of
    this repository. *)

(** Modelled from the spec: the Tree Adapter, "an opaque
    structured-document abstraction offering: load-by-path, root/tag
    introspection, attribute get/set, ordered child list,
    find-first-by-path, find-all-by-path, append/remove child,
    serialize-with-indent". An element is an object: [_id] is its identity,
    which is what [remove] compares. [localName] is the property that
    [sortCapabilities] adds to the elements it sorts. *)
#[warnings="-register-all"]
Inductive Element : Type := mkElement {
  _id : nat;
  tag : string;
  attrib : gmap string string;
  text : option string;
  _children : list Element;
  localName : option string
}.

Record ElementTree : Type := mkElementTree { _root : Element }.

Definition set_tag (t : string) (e : Element) : Element :=
  mkElement (_id e) t (attrib e) (text e) (_children e) (localName e).
Definition set_attrib (a : gmap string string) (e : Element) : Element :=
  mkElement (_id e) (tag e) a (text e) (_children e) (localName e).
Definition set_children (cs : list Element) (e : Element) : Element :=
  mkElement (_id e) (tag e) (attrib e) (text e) cs (localName e).
Definition set_localName (n : option string) (e : Element) : Element :=
  mkElement (_id e) (tag e) (attrib e) (text e) (_children e) n.

(** [new et.Element(tag, attrib)]: the package numbers the elements it
    creates from a counter, [element_ids]. *)
Definition new_Element (t : string) (a : gmap string string) (element_ids : nat)
  : Element * nat :=
  (mkElement element_ids t a None [] None, S element_ids).

Definition getchildren (e : Element) : list Element := _children e.
Definition len (e : Element) : nat := length (_children e).

(** [parent.append(child)] *)
Definition append (child : Element) (parent : Element) : Element :=
  set_children (_children parent ++ [child]) parent.

(** [parent.remove(child)]: the children are replaced by a new array
    without the elements that have the child's identity; an array obtained
    from [getchildren] before the call is left as it was. *)
Definition remove (child : Element) (parent : Element) : Element :=
  set_children (filter (λ c, _id c ≠ _id child) (_children parent)) parent.

(** [e.clear()] *)
Definition clear (e : Element) : Element :=
  mkElement (_id e) (tag e) ∅ None [] (localName e).

(** A reference to a node of a document: the child indices that lead to it
    from the root. *)
Definition Handle : Type := list nat.

Fixpoint node_at (h : Handle) (e : Element) : option Element :=
  match h with
  | [] => Some e
  | i :: h' => c ← _children e !! i; node_at h' c
  end.

(** Mutation of the node a handle refers to. *)
Fixpoint modify_at (f : Element → Element) (h : Handle) (e : Element) : Element :=
  match h with
  | [] => f e
  | i :: h' => set_children (alter (modify_at f h') i (_children e)) e
  end.

(** [e.find('./' + t)]: the first child tagged [t]. *)
Fixpoint find_child_from (t : string) (i : nat) (cs : list Element) : option nat :=
  match cs with
  | [] => None
  | c :: cs' => if String.eqb (tag c) t then Some i else find_child_from t (S i) cs'
  end.

Definition find_child (t : string) (e : Element) : option Handle :=
  i ← find_child_from t 0 (_children e); Some [i].

(** [e.find('./' + t1 + '/' + t2)]: the first [t2] child of a [t1] child. *)
Fixpoint find_grandchild_from (t1 t2 : string) (i : nat) (cs : list Element)
  : option Handle :=
  match cs with
  | [] => None
  | c :: cs' =>
      match (if String.eqb (tag c) t1 then find_child_from t2 0 (_children c)
             else None) with
      | Some j => Some [i; j]
      | None => find_grandchild_from t1 t2 (S i) cs'
      end
  end.

Definition find_grandchild (t1 t2 : string) (e : Element) : option Handle :=
  find_grandchild_from t1 t2 0 (_children e).

(** [e.find('.//' + t)]: the first proper descendant tagged [t], in
    document order. [scan_descendants] walks the children from index [i]
    on, looking into each child with [inside]. *)
Definition scan_descendants (inside : Element → option Handle) (t : string)
  : nat → list Element → option Handle :=
  fix scan (i : nat) (cs : list Element) : option Handle :=
    match cs with
    | [] => None
    | c :: cs' =>
        if String.eqb (tag c) t then Some [i]
        else match inside c with
             | Some h => Some (i :: h)
             | None => scan (S i) cs'
             end
    end.

Fixpoint find_descendant (t : string) (e : Element) : option Handle :=
  scan_descendants (find_descendant t) t 0 (_children e).

(** [e.iter]: the element and its descendants, in document order. *)
Fixpoint iter (e : Element) : list Element :=
  e :: flat_map iter (_children e).

(** ** Array.prototype.sort

    ECMAScript fixes the result of [sort] only for a consistent comparison
    function. The one [sortCapabilities] passes never answers 0, so what
    happens to elements that compare alike is up to the engine; the
    embedding therefore takes the engine's algorithm as a parameter. The
    two algorithms are those of V8, each in the form it takes on short
    arrays: straight insertion (the engine's sort before version 7.0, on
    arrays of at most ten elements), and run detection followed by binary
    insertion (TimSort, from version 7.0 on, when the array is shorter than
    64 elements and so makes a single run). *)
Inductive SortEngine : Type :=
| InsertionSort
| TimSort.

Section ArraySort.
Context {A : Type} (comparefn : A → A → Z).

(** Straight insertion. [rev_sorted] is the sorted prefix, last element
    first: the loop walks it from the right, moves every [tmp] with
    [comparefn(tmp, element) > 0] one place up and stops at the first
    other answer. *)
Fixpoint insert_from_right (element : A) (rev_sorted : list A) : list A :=
  match rev_sorted with
  | [] => [element]
  | tmp :: rest =>
      if (0 <? comparefn tmp element)%Z
      then tmp :: insert_from_right element rest
      else element :: rev_sorted
  end.

Definition insertion_sort (a : list A) : list A :=
  rev (fold_left (λ rev_sorted element, insert_from_right element rev_sorted) a []).

(** Run detection. The run that starts the array is strictly descending
    when [comparefn(a[1], a[0]) < 0]; it extends while the comparison of
    each element with the one before it keeps that sense. *)
Fixpoint extend_run (isDescending : bool) (previousElement : A) (rest : list A)
  : list A * list A :=
  match rest with
  | [] => ([], [])
  | currentElement :: rest' =>
      let order := comparefn currentElement previousElement in
      if (if isDescending then (0 <=? order)%Z else (order <? 0)%Z)
      then ([], rest)
      else let '(run, beyond) := extend_run isDescending currentElement rest' in
           (currentElement :: run, beyond)
  end.

(** The leading run, reversed in place when it descends, and the
    elements after it. *)
Definition count_and_make_run (a : list A) : list A * list A :=
  match a with
  | [] => ([], [])
  | [only] => ([only], [])
  | elementHigh :: elementLow :: rest =>
      let order := comparefn elementLow elementHigh in
      let isDescending := (order <? 0)%Z in
      let '(run, beyond) := extend_run isDescending elementLow rest in
      let whole := elementHigh :: elementLow :: run in
      (if isDescending then rev whole else whole, beyond)
  end.

(** The place of [pivot] in the sorted run:
    [while (left < right) { mid = left + ((right - left) >> 1);
      if (comparefn(pivot, a[mid]) < 0) right = mid; else left = mid + 1 }].
    Each turn shrinks [right - left], which bounds the fuel. *)
Fixpoint binary_search (fuel : nat) (pivot : A) (sorted : list A)
    (left right : nat) : nat :=
  match fuel with
  | 0 => left
  | S fuel' =>
      if left <? right then
        let mid := left + (right - left) / 2 in
        match sorted !! mid with
        | Some midElement =>
            if (comparefn pivot midElement <? 0)%Z
            then binary_search fuel' pivot sorted left mid
            else binary_search fuel' pivot sorted (S mid) right
        | None => left
        end
      else left
  end.

Definition binary_insert (sorted : list A) (pivot : A) : list A :=
  let left := binary_search (length sorted) pivot sorted 0 (length sorted) in
  take left sorted ++ pivot :: drop left sorted.

Definition tim_sort (a : list A) : list A :=
  let '(run, beyond) := count_and_make_run a in
  fold_left binary_insert beyond run.

Definition Array_sort (engine : SortEngine) (a : list A) : list A :=
  match engine with
  | InsertionSort => insertion_sort a
  | TimSort => tim_sort a
  end.
End ArraySort.

(** ** The module's constants *)

Definition CAPS_NEEDING_UAPNS : list string :=
  ["documentsLibrary"; "picturesLibrary"; "videosLibrary";
   "musicLibrary"; "enterpriseAuthentication"; "sharedUserCertificates";
   "removableStorage"; "appointments"; "contacts"; "userAccountInformation";
   "phoneCall"; "blockedChatMessages"; "objects3D"].

Definition MANIFEST : string := "package.windows10.appxmanifest".

(** The target that [processChanges] demultiplexes. *)
Definition GENERIC_MANIFEST : string := "package.appxmanifest".

(** ** Truthiness and array helpers *)

(** [!!v] for a value that is a string or [undefined]. *)
Definition truthy (v : option string) : bool :=
  match v with
  | Some s => negb (String.eqb s "")
  | None => false
  end.

(** [list.indexOf(v) > -1] for a list of strings and a value that is a
    string or [undefined]. *)
Definition includes_name (names : list string) (v : option string) : bool :=
  match v with
  | Some s => existsb (String.eqb s) names
  | None => false
  end.

(** [Object.keys(o)] *)
Definition Object_keys (o : gmap string string) : list string :=
  (map_to_list o).*1.

(** The names of the members that a plain object ([{}], an object
    literal) inherits from [Object.prototype]. A lookup [o[name]] of one
    of them, on an object that has no property of its own under the name,
    gives the inherited member: a function, or for [__proto__] the
    prototype itself. All of them are truthy, and none is an array. *)
Definition Object_prototype_keys : list string :=
  ["constructor"; "hasOwnProperty"; "isPrototypeOf"; "propertyIsEnumerable";
   "toLocaleString"; "toString"; "valueOf"; "__proto__";
   "__defineGetter__"; "__defineSetter__"; "__lookupGetter__"; "__lookupSetter__"].

(** ** The manifest *)

Record AppxManifest : Type := mkAppxManifest {
  path : string;
  doc : ElementTree;
  hasPhoneIdentity : bool
}.

(** A mutation of the document's root through [this.doc]. *)
Definition on_root (f : Element → Element) (this : AppxManifest) : AppxManifest :=
  mkAppxManifest (path this) (mkElementTree (f (_root (doc this))))
                 (hasPhoneIdentity this).

Definition root_of (this : AppxManifest) : Element := _root (doc this).

(** ** The capability passes *)

(** [ensureUapPrefixedCapabilities(capabilities)] *)
Definition needs_uap_prefix (el : Element) : bool :=
  includes_name CAPS_NEEDING_UAPNS (attrib el !! "Name")
  && negb (String.prefix "uap:" (tag el)).

Definition uap_prefixed (el : Element) : Element :=
  if needs_uap_prefix el then set_tag ("uap:" +:+ tag el) el else el.

Definition ensureUapPrefixedCapabilities (capabilities : Element) : Element :=
  set_children (uap_prefixed <$> getchildren capabilities) capabilities.

(** [ensureUniqueCapabilities(capabilities)]. The loop runs over the array
    that [getchildren] returned; its state is the list of names seen so far
    and the element, whose children [remove] replaces. *)
Definition unique_step (state : list (option string) * Element) (el : Element)
  : list (option string) * Element :=
  let '(uniqueCapabilities, capabilities) := state in
  let name := attrib el !! "Name" in
  if bool_decide (name ∈ uniqueCapabilities)
  then (uniqueCapabilities, remove el capabilities)
  else (uniqueCapabilities ++ [name], capabilities).

Definition ensureUniqueCapabilities (capabilities : Element) : Element :=
  (fold_left unique_step (getchildren capabilities) ([], capabilities)).2.

(** [extractLocalName(tag)]: [tag.split(':').pop()] *)
Definition extractLocalName (t : string) : option string :=
  last (split_on ":" t).

(** [elem.localName = extractLocalName(elem.tag)] *)
Definition with_localName (elem : Element) : Element :=
  set_localName (extractLocalName (tag elem)) elem.

(** The comparison function of [sortCapabilities]. *)
Definition compare_localName (a b : Element) : Z :=
  if js_gt (localName a) (localName b) then 1%Z else (-1)%Z.

(** The body of [sortCapabilities] once the Capabilities element is at
    hand: every child is removed and given its [localName], the array of
    the children is sorted, and its elements are appended again. *)
Definition sort_children (engine : SortEngine) (capabilitiesRoot : Element)
  : Element :=
  let capabilities := getchildren capabilitiesRoot in
  let emptied := fold_left (λ parent elem, remove elem parent)
                           capabilities capabilitiesRoot in
  let named := with_localName <$> capabilities in
  let sorted := Array_sort compare_localName engine named in
  fold_left (λ parent elem, append elem parent) sorted emptied.

(** A function applied to what [find('.//Capabilities')] returns; on
    [null] its first method call raises a TypeError. *)
Definition with_capabilities (f : Element → Element) : Js AppxManifest unit :=
  λ this,
    match find_descendant "Capabilities" (root_of this) with
    | Some h => (Normal tt, on_root (modify_at f h) this)
    | None => (Throw (TypeError "Cannot read property getchildren of null"), this)
    end.

Definition sortCapabilities (engine : SortEngine) : Js AppxManifest unit :=
  with_capabilities (sort_children engine).

(** The three passes on a Capabilities element, in the order in which
    [writeToString] runs them. *)
Definition normalize_capabilities (engine : SortEngine) (capabilities : Element)
  : Element :=
  sort_children engine
    (ensureUniqueCapabilities (ensureUapPrefixedCapabilities capabilities)).

(** [getCapabilities()] *)
Record Capability : Type := mkCapability {
  cap_type : string;
  cap_name : option string
}.

Definition getCapabilities (this : AppxManifest) : list Capability :=
  match find_child "Capabilities" (root_of this) with
  | None => []
  | Some h =>
      match node_at h (root_of this) with
      | Some capabilities =>
          (λ element, mkCapability (tag element) (attrib element !! "Name"))
            <$> getchildren capabilities
      | None => []
      end
  end.

(** ** Serialisation *)

Section Serialisation.
(** Modelled from the spec: the Tree Adapter's "serialize-with-indent",
    [doc.write({ indent: 4 })]. *)
Variable et_write : ElementTree → nat → string.

Definition writeToString (engine : SortEngine) : Js AppxManifest string :=
  do! with_capabilities ensureUapPrefixedCapabilities in
  do! with_capabilities ensureUniqueCapabilities in
  do! sortCapabilities engine in
  let! this := get_state in
  ret (et_write (doc this) 4).

(** [write(destPath)]: the file name and the text that
    [fs.writeFileSync] receives. *)
Definition write (engine : SortEngine) (destPath : option string)
  : Js AppxManifest (string * string) :=
  let! this := get_state in
  let file := if truthy destPath then default "" destPath else path this in
  let! data := writeToString engine in
  ret (file, data).
End Serialisation.

(** ** The Dependencies section *)

(** [setDependencies(dependencies)]. The state is the manifest and the
    counter from which new elements take their identity. [this.doc] is the
    tree object ([ElementTree]), not an element: it has [getroot], [find],
    [findall] and [write], and neither [remove] nor [append]. The calls
    [this.doc.remove(...)] and [this.doc.append(...)] are calls of
    [undefined]: they raise a TypeError and change nothing. *)
Definition append_family (h : Handle) (state : AppxManifest * nat)
    (uapVersionInfo : gmap string string) : AppxManifest * nat :=
  let '(this, element_ids) := state in
  let '(family, element_ids') :=
    new_Element "TargetDeviceFamily" uapVersionInfo element_ids in
  (on_root (modify_at (append family) h) this, element_ids').

Definition no_dependencies (dependencies : option (list (gmap string string)))
  : bool :=
  match dependencies with
  | None => true
  | Some l => length l =? 0
  end.

Definition setDependencies (dependencies : option (list (gmap string string)))
  : Js (AppxManifest * nat) Returned :=
  λ '(this, element_ids),
    let dependenciesElement := find_child "Dependencies" (root_of this) in
    match dependenciesElement, no_dependencies dependencies with
    | Some h, true =>
        (Throw (TypeError "this.doc.remove is not a function"), (this, element_ids))
    | None, _ =>
        let '(created, element_ids') :=
          new_Element "Dependencies" ∅ element_ids in
        (Throw (TypeError "this.doc.append is not a function"),
         (this, element_ids'))
    | Some h, false =>
        let this2 :=
          match node_at h (root_of this) with
          | Some el => if 0 <? len el then on_root (modify_at clear h) this else this
          | None => this
          end in
        match dependencies with
        | None =>
            (Throw (TypeError "Cannot read property forEach of undefined"),
             (this2, element_ids))
        | Some l =>
            (Normal Undefined, fold_left (append_family h) l (this2, element_ids))
        end
    end.

(** ** The identity and application views *)

(** [getIdentity()]: the view closes over the Identity element. *)
Definition getIdentity : Js AppxManifest Handle :=
  λ this,
    match find_child "Identity" (root_of this) with
    | Some identity => (Normal identity, this)
    | None =>
        (Throw (Error ("Failed to find " +:+ dquote +:+ "Identity" +:+ dquote
                       +:+ " node. The appxmanifest at " +:+ path this
                       +:+ " is invalid")), this)
    end.

(** [while (numVersionComponents++ < 4) version += '.0']; the count only
    grows, so four turns are more than the loop can take. *)
Fixpoint pad_version (fuel numVersionComponents : nat) (version : string) : string :=
  match fuel with
  | 0 => version
  | S fuel' =>
      if numVersionComponents <? 4
      then pad_version fuel' (S numVersionComponents) (version +:+ ".0")
      else version
  end.

(** The version that [setVersion] stores for a non-empty argument. *)
Definition adjust_version (version : string) : string :=
  match match_dot_digit version with
  | Some matches => pad_version 4 (length matches + 1) version
  | None => version
  end.

Definition set_attribute (name value : string) (el : Element) : Element :=
  set_attrib (<[name := value]> (attrib el)) el.

(** [setVersion(version)] of the identity view. In its message [this] is
    the view, which has no [path]. *)
Definition setVersion (identity : Handle) (version : option string)
  : Js AppxManifest Returned :=
  if truthy version then
    do! modify_state (on_root (modify_at
          (set_attribute "Version" (adjust_version (default "" version)))
          identity)) in
    ret This
  else
    throw (TypeError ("Identity.Version attribute must be non-empty in "
                      +:+ "appxmanifest at undefined")).

Definition getVersion (identity : Handle) (this : AppxManifest) : option string :=
  el ← node_at identity (root_of this); attrib el !! "Version".

(** [getApplication()] *)
Definition getApplication : Js AppxManifest Handle :=
  λ this,
    match find_grandchild "Applications" "Application" (root_of this) with
    | Some application => (Normal application, this)
    | None =>
        (Throw (Error ("Failed to find " +:+ dquote +:+ "Application" +:+ dquote
                       +:+ " element. The appxmanifest at " +:+ path this
                       +:+ " is invalid")), this)
    end.

(** [setStartPage(page)] of the application view. *)
Definition setStartPage (application : Handle) (page : option string)
  : Js AppxManifest Returned :=
  let page := if truthy page then default "" page else "www/index.html" in
  do! modify_state (on_root (modify_at (set_attribute "StartPage" page)
                                       application)) in
  ret This.

Definition getStartPage (application : Handle) (this : AppxManifest)
  : option string :=
  el ← node_at application (root_of this); attrib el !! "StartPage".

(** ** The manifest cache *)

(** What the module's static functions act on: the cache, the
    [AppxManifest] objects created so far (a reference to one is its index),
    the manifest files as [xml.parseElementtreeSync] reads them, and the
    paths it has been asked to parse. *)
Record Process : Type := mkProcess {
  manifestCache : gmap string nat;
  instances : list AppxManifest;
  files : gmap string ElementTree;
  parsed : list string
}.

(** [xml.parseElementtreeSync(path)], from cordova-common: it raises when
    the file cannot be read or parsed. *)
Definition parseElementtreeSync (file : string) : Js Process ElementTree :=
  λ p,
    let p' := mkProcess (manifestCache p) (instances p) (files p)
                        (parsed p ++ [file]) in
    match files p !! file with
    | Some tree => (Normal tree, p')
    | None => (Throw (Error ("Cannot read " +:+ file)), p')
    end.

(** [new AppxManifest(path)] *)
Definition new_AppxManifest (file : string) : Js Process nat :=
  let! tree := parseElementtreeSync file in
  if negb (String.eqb (tag (_root tree)) "Package") then
    throw (Error (file +:+ " has incorrect root node name (expected "
                  +:+ dquote +:+ "Package" +:+ dquote +:+ ")"))
  else
    λ p, (Normal (length (instances p)),
          mkProcess (manifestCache p)
                    (instances p ++ [mkAppxManifest file tree true])
                    (files p) (parsed p)).

(** What a lookup in the cache gives, and so what [get] returns: a
    reference to an [AppxManifest] instance, or a member that the cache
    object inherits from [Object.prototype]. *)
Inductive Value : Type :=
| Manifest (instance : nat)
| Inherited (key : string).

(** [manifestCache[fileName]]. The cache is a plain object, [{}]: the
    record holds its own properties, and a name that it has no property
    for is looked up in [Object.prototype]. [None] is [undefined]. The
    module gives the cache a property only under a name whose lookup was
    falsy, so an inherited member is never shadowed. *)
Definition cache_member (cache : gmap string nat) (fileName : string)
  : option Value :=
  match cache !! fileName with
  | Some instance => Some (Manifest instance)
  | None =>
      if bool_decide (fileName ∈ Object_prototype_keys)
      then Some (Inherited fileName) else None
  end.

(** [AppxManifest.get(fileName, ignoreCache)] *)
Definition get (fileName : string) (ignoreCache : bool) : Js Process Value :=
  let! p := get_state in
  match (if ignoreCache then None else cache_member (manifestCache p) fileName) with
  | Some cached => ret cached
  | None =>
      let! tree := parseElementtreeSync fileName in
      let rootAttributes := Object_keys (attrib (_root tree)) in
      if negb (bool_decide ("xmlns:uap" ∈ rootAttributes)) then
        throw (Thrown "Windows 10 is only supported")
      else
        let! result := new_AppxManifest fileName in
        do! (if ignoreCache then ret tt
             else modify_state (λ p, mkProcess (<[fileName := result]> (manifestCache p))
                                               (instances p) (files p) (parsed p))) in
        ret (Manifest result)
  end.

(** The argument of [purgeCache]: nothing, one key or an array of keys. *)
Inductive CacheKeys : Type :=
| NoKeys
| OneKey (key : string)
| ManyKeys (keys : list string).

(** [!cacheKeys] *)
Definition no_cache_keys (cacheKeys : CacheKeys) : bool :=
  match cacheKeys with
  | NoKeys => true
  | OneKey key => String.eqb key ""
  | ManyKeys _ => false
  end.

(** [AppxManifest.purgeCache(cacheKeys)] *)
Definition purgeCache (cacheKeys : CacheKeys) : Js Process unit :=
  if no_cache_keys cacheKeys then
    modify_state (λ p, mkProcess ∅ (instances p) (files p) (parsed p))
  else
    let keys := match cacheKeys with
                | ManyKeys keys => keys
                | OneKey key => [key]
                | NoKeys => []
                end in
    modify_state (λ p, mkProcess (fold_left (λ cache key, delete key cache)
                                            keys (manifestCache p))
                                 (instances p) (files p) (parsed p)).

(** A caller's steps on the module, and what each [get] returned. *)
Inductive Call : Type :=
| CallGet (fileName : string) (ignoreCache : bool)
| CallPurgeCache (cacheKeys : CacheKeys)
| FileChanged (file : string) (content : option ElementTree).

Definition call (c : Call) (p : Process) : option (completion Value) * Process :=
  match c with
  | CallGet fileName ignoreCache =>
      let '(r, p') := get fileName ignoreCache p in (Some r, p')
  | CallPurgeCache cacheKeys => (None, (purgeCache cacheKeys p).2)
  | FileChanged file content =>
      (None, mkProcess (manifestCache p) (instances p)
                       (match content with
                        | Some tree => <[file := tree]> (files p)
                        | None => delete file (files p)
                        end) (parsed p))
  end.

Fixpoint calls (cs : list Call) (p : Process)
  : list (option (completion Value)) * Process :=
  match cs with
  | [] => ([], p)
  | c :: cs' =>
      let '(r, p') := call c p in
      let '(rs, p'') := calls cs' p' in
      (r :: rs, p'')
  end.

(** The module as it is loaded: [manifestCache = {}]. *)
Definition loaded (disk : gmap string ElementTree) : Process :=
  mkProcess ∅ [] disk [].

(** ** Demultiplexing of plugin changes *)

Record Change : Type := mkChange {
  target : string;
  parent : option string;
  after : option string;
  xmls : list Element;
  versions : option string;
  deviceTarget : option string
}.

Definition demuxChangeWithSubsts (change : Change) : Change :=
  mkChange MANIFEST (parent change) (after change) (xmls change)
           (versions change) (deviceTarget change).

Definition targets_generic (change : Change) : bool :=
  String.eqb (target change) GENERIC_MANIFEST.

(** What a function that takes an array returns: the array it was given,
    or one that it built. *)
Inductive ArrayResult (A : Type) : Type :=
| Argument
| Built (items : list A).
Arguments Argument {A}.
Arguments Built {A} items.

Definition items_of {A} (argument : list A) (r : ArrayResult A) : list A :=
  match r with
  | Argument => argument
  | Built items => items
  end.

(** [AppxManifest.processChanges(changes)]: [push] extends the array under
    construction, [concat] replaces it by a longer one. *)
Definition processChanges (changes : list Change) : ArrayResult Change :=
  let hasManifestChanges := existsb targets_generic changes in
  if negb hasManifestChanges then Argument
  else
    Built (fold_left
             (λ changes change,
                if negb (targets_generic change) then changes ++ [change]
                else changes ++ [demuxChangeWithSubsts change])
             changes []).

(** ** Colours and descriptions *)

(** [s.indexOf(needle) !== -1] *)
Fixpoint contains (needle s : string) : bool :=
  String.prefix needle s
  || match s with
     | EmptyString => false
     | String _ s' => contains needle s'
     end.

(** [s.slice(n)] and [s.substr(0, n)] *)
Fixpoint string_drop (n : nat) (s : string) : string :=
  match n, s with
  | 0, _ => s
  | S n', String _ s' => string_drop n' s'
  | S _, EmptyString => EmptyString
  end.

Fixpoint string_take (n : nat) (s : string) : string :=
  match n, s with
  | 0, _ => EmptyString
  | S n', String c s' => String c (string_take n' s')
  | S _, EmptyString => EmptyString
  end.

(** [s.replace(needle, replacement)] with a string for needle: the first
    occurrence is replaced. *)
Fixpoint replace_first (needle replacement s : string) : string :=
  if String.prefix needle s
  then replacement +:+ string_drop (String.length needle) s
  else match s with
       | EmptyString => EmptyString
       | String c s' => String c (replace_first needle replacement s')
       end.

(** [s.replace(/c/g, ...)] for a pattern that matches single characters:
    [f] gives what stands for each character. *)
Fixpoint replace_each (f : ascii → string) (s : string) : string :=
  match s with
  | EmptyString => EmptyString
  | String c s' => f c +:+ replace_each f s'
  end.

Definition isCSSColorName (color : string) : bool :=
  negb (contains "0x" color) && negb (contains "#" color).

(** [refineColor(color)] *)
Definition refineColor (color : string) : string :=
  if isCSSColorName color then color
  else
    let color := replace_first "#" "" (replace_first "0x" "" color) in
    let color :=
      if String.length color =? 3 then
        match String.get 0 color, String.get 1 color, String.get 2 color with
        | Some c0, Some c1, Some c2 =>
            String c0 (String c0 (String c1 (String c1 (String c2 (String c2 "")))))
        | _, _, _ => color
        end
      else color in
    let color := if String.length color =? 8 then string_drop 2 color else color in
    "#" +:+ color.

Definition newline : ascii := ascii_of_nat 10.
Definition carriage_return : ascii := ascii_of_nat 13.
Definition tab : ascii := ascii_of_nat 9.

(** [/(\n|\r)/g] replaced by a space, [/\t/g] by four. *)
Definition line_break_to_space (c : ascii) : string :=
  if Ascii.eqb c newline || Ascii.eqb c carriage_return then " "
  else String c EmptyString.

Definition tab_to_spaces (c : ascii) : string :=
  if Ascii.eqb c tab then "    " else String c EmptyString.

(** [processDescription(text)] *)
Definition processDescription (text : string) : string :=
  let result := if 2048 <? String.length text then string_take 2048 text else text in
  replace_each tab_to_spaces (replace_each line_break_to_space result).

(** ** More of the tree adapter *)

Definition set_text (t : option string) (e : Element) : Element :=
  mkElement (_id e) (tag e) (attrib e) t (_children e) (localName e).

(** [e.find('./t1/t2/...')]: the first element, in document order, at the
    end of a chain of children with these tags. *)
Definition scan_children (inside : Element → option Handle) (t : string)
  : nat → list Element → option Handle :=
  fix scan (i : nat) (cs : list Element) : option Handle :=
    match cs with
    | [] => None
    | c :: cs' =>
        match (if String.eqb (tag c) t then inside c else None) with
        | Some h => Some (i :: h)
        | None => scan (S i) cs'
        end
    end.

Fixpoint find_path (tags : list string) (e : Element) : option Handle :=
  match tags with
  | [] => Some []
  | t :: tags' => scan_children (find_path tags') t 0 (_children e)
  end.

(** [e.findall(t)] and [e.findall('./t1/t2')] *)
Definition findall_children (t : string) (e : Element) : list Element :=
  filter (λ c, tag c = t) (_children e).

Definition findall_grandchildren (t1 t2 : string) (e : Element) : list Element :=
  c ← findall_children t1 e; findall_children t2 c.

(** A search that starts at the element a handle refers to. The handle of
    a view always refers to an element; for one that does not, nothing is
    found. *)
Definition find_under (h : Handle) (tags : list string) (root : Element)
  : option Handle :=
  node ← node_at h root; rel ← find_path tags node; Some (h ++ rel).

(** Code that only touches the manifest, run where elements are created
    too. *)
Definition with_manifest {A} (m : Js AppxManifest A) : Js (AppxManifest * nat) A :=
  λ '(this, element_ids),
    let '(r, this') := m this in (r, (this', element_ids)).

(** [parent.find('./' + t)], and when there is none a [new et.Element(t)],
    appended to the parent. *)
Definition find_or_append (parent : Handle) (t : string)
  : Js (AppxManifest * nat) Handle :=
  λ '(this, element_ids),
    match find_under parent [t] (root_of this) with
    | Some h => (Normal h, (this, element_ids))
    | None =>
        let '(created, element_ids') := new_Element t ∅ element_ids in
        let index := length (from_option _children [] (node_at parent (root_of this))) in
        (Normal (parent ++ [index]),
         (on_root (modify_at (append created) parent) this, element_ids'))
    end.

(** ** The views, setter by setter *)

(** A setter of the shape
    [if (!value) throw new TypeError(message); el.attrib[name] = value; return this]. *)
Definition set_required_attribute (message : string) (el : Handle)
    (name : string) (value : option string) : Js AppxManifest Returned :=
  if truthy value then
    do! modify_state (on_root (modify_at (set_attribute name (default "" value)) el)) in
    ret This
  else throw (TypeError message).

Definition get_attribute (el : Handle) (name : string) (this : AppxManifest)
  : option string :=
  node ← node_at el (root_of this); attrib node !! name.

(** [getPhoneIdentity()] and its view *)
Definition getPhoneIdentity : Js AppxManifest Handle :=
  λ this,
    match find_path ["PhoneIdentity"] (root_of this) with
    | Some phoneIdentity => (Normal phoneIdentity, this)
    | None =>
        (Throw (Error ("Failed to find PhoneIdentity element in appxmanifest at "
                       +:+ path this)), this)
    end.

Definition getPhoneProductId (phoneIdentity : Handle) (this : AppxManifest)
  : option string :=
  get_attribute phoneIdentity "PhoneProductId" this.

Definition setPhoneProductId (phoneIdentity : Handle) (id : option string)
  : Js AppxManifest Returned :=
  if truthy id then
    do! modify_state (on_root (modify_at
          (set_attribute "PhoneProductId" (default "" id)) phoneIdentity)) in
    ret This
  else
    throw (Error ("Argument for " +:+ dquote +:+ "setPhoneProductId" +:+ dquote
                  +:+ " must be defined in appxmanifest at undefined")).

(** The identity view *)
Definition getName (identity : Handle) (this : AppxManifest) : option string :=
  get_attribute identity "Name" this.

Definition setName (identity : Handle) (name : option string)
  : Js AppxManifest Returned :=
  set_required_attribute
    "Identity.Name attribute must be non-empty in appxmanifest at undefined"
    identity "Name" name.

Definition getPublisher (identity : Handle) (this : AppxManifest) : option string :=
  get_attribute identity "Publisher" this.

Definition setPublisher (identity : Handle) (publisherId : option string)
  : Js AppxManifest Returned :=
  set_required_attribute
    "Identity.Publisher attribute must be non-empty in appxmanifest at undefined"
    identity "Publisher" publisherId.

(** [getProperties()] and its view *)
Definition getProperties : Js AppxManifest Handle :=
  λ this,
    match find_path ["Properties"] (root_of this) with
    | Some properties => (Normal properties, this)
    | None =>
        (Throw (Error ("Failed to find " +:+ dquote +:+ "Properties" +:+ dquote
                       +:+ " node. The appxmanifest at " +:+ path this
                       +:+ " is invalid")), this)
    end.

(** [var el = parent.find('./' + t); return el && el.text] *)
Definition child_text (parent : Handle) (t : string) (this : AppxManifest)
  : option string :=
  h ← find_under parent [t] (root_of this);
  el ← node_at h (root_of this);
  text el.

(** A setter of the text of a child that is created when missing. *)
Definition set_child_text (message : string) (parent : Handle) (t : string)
    (value : option string) : Js (AppxManifest * nat) Returned :=
  if truthy value then
    let! child := find_or_append parent t in
    do! with_manifest (modify_state (on_root (modify_at (set_text value) child))) in
    ret This
  else throw (TypeError message).

Definition Properties_getDisplayName (properties : Handle) (this : AppxManifest)
  : option string :=
  child_text properties "DisplayName" this.

Definition Properties_setDisplayName (properties : Handle) (name : option string)
  : Js (AppxManifest * nat) Returned :=
  set_child_text
    "Properties.DisplayName elements must be non-empty in appxmanifest at undefined"
    properties "DisplayName" name.

Definition getPublisherDisplayName (properties : Handle) (this : AppxManifest)
  : option string :=
  child_text properties "PublisherDisplayName" this.

Definition setPublisherDisplayName (properties : Handle) (name : option string)
  : Js (AppxManifest * nat) Returned :=
  set_child_text
    "Properties.PublisherDisplayName elements must be non-empty in appxmanifest at undefined"
    properties "PublisherDisplayName" name.

Definition Properties_getDescription (properties : Handle) (this : AppxManifest)
  : option string :=
  child_text properties "Description" this.

(** [setDescription(text)] of the properties view *)
Definition Properties_setDescription (properties : Handle) (text : option string)
  : Js (AppxManifest * nat) Returned :=
  λ '(this, element_ids),
    let description := find_under properties ["Description"] (root_of this) in
    if negb (truthy text) then
      match description with
      | Some h =>
          match node_at h (root_of this) with
          | Some el =>
              (Normal This,
               (on_root (modify_at (remove el) properties) this, element_ids))
          | None => (Normal This, (this, element_ids))
          end
      | None => (Normal This, (this, element_ids))
      end
    else
      (let! description := find_or_append properties "Description" in
       do! with_manifest (modify_state (on_root (modify_at
             (set_text (Some (processDescription (default "" text))))
             description))) in
       ret This) (this, element_ids).

(** The application view *)
Definition getId (application : Handle) (this : AppxManifest) : option string :=
  get_attribute application "Id" this.

(** [setId(id)]: the schema allows 64 characters. *)
Definition setId (application : Handle) (id : option string)
  : Js AppxManifest Returned :=
  if truthy id then
    let id := default "" id in
    let appId := if String.length id <=? 64 then id else string_take 64 id in
    do! modify_state (on_root (modify_at (set_attribute "Id" appId) application)) in
    ret This
  else
    throw (TypeError
             "Application.Id attribute must be defined in appxmanifest at undefined").

Definition getAccessRules (application : Handle) (this : AppxManifest)
  : list (option string) :=
  match node_at application (root_of this) with
  | Some el =>
      (λ rule, attrib rule !! "Match")
        <$> findall_grandchildren "uap:ApplicationContentUriRules" "uap:Rule" el
  | None => []
  end.

(** [!list || list.length === 0] *)
Definition no_items {A} (l : option (list A)) : bool :=
  match l with
  | None => true
  | Some l => length l =? 0
  end.

(** The element found is removed from the element a handle refers to. *)
Definition remove_found (parent : Handle) (found : option Handle)
    (this : AppxManifest) : AppxManifest :=
  match found with
  | Some h =>
      match node_at h (root_of this) with
      | Some el => on_root (modify_at (remove el) parent) this
      | None => this
      end
  | None => this
  end.

Definition append_rule (appUriRules : Handle) (state : AppxManifest * nat)
    (rule : string) : AppxManifest * nat :=
  let '(this, element_ids) := state in
  let '(el, element_ids') :=
    new_Element "uap:Rule"
      (list_to_map [("Match", rule); ("Type", "include");
                    ("WindowsRuntimeAccess", "all")]) element_ids in
  (on_root (modify_at (append el) appUriRules) this, element_ids').

(** [setAccessRules(rules)] *)
Definition setAccessRules (application : Handle) (rules : option (list string))
  : Js (AppxManifest * nat) Returned :=
  λ '(this, element_ids),
    let appUriRules :=
      find_under application ["uap:ApplicationContentUriRules"] (root_of this) in
    let this := remove_found application appUriRules this in
    if no_items rules then (Normal Undefined, (this, element_ids))
    else
      let '(created, element_ids) :=
        new_Element "uap:ApplicationContentUriRules" ∅ element_ids in
      let index :=
        length (from_option _children [] (node_at application (root_of this))) in
      let this := on_root (modify_at (append created) application) this in
      (Normal This,
       fold_left (append_rule (application ++ [index])) (default [] rules)
                 (this, element_ids)).

(** [getVisualElements()] and its view *)
Definition getVisualElements : Js AppxManifest Handle :=
  λ this,
    match find_path ["Applications"; "Application"; "uap:VisualElements"]
                    (root_of this) with
    | Some visualElements => (Normal visualElements, this)
    | None =>
        (Throw (Error ("Failed to find " +:+ dquote +:+ "VisualElements" +:+ dquote
                       +:+ " node. The appxmanifest at " +:+ path this
                       +:+ " is invalid")), this)
    end.

(** [getDefaultTitle()]: the view closes over what
    [find('./uap:DefaultTile')] returned, an element or [null]. *)
Definition getDefaultTitle (visualElements : Handle) (this : AppxManifest)
  : option Handle :=
  find_under visualElements ["uap:DefaultTile"] (root_of this).

Definition getShortName (defaultTitle : option Handle) (this : AppxManifest)
  : completion (option string) :=
  match defaultTitle with
  | Some h => Normal (get_attribute h "ShortName" this)
  | None => Throw (TypeError "Cannot read property attrib of null")
  end.

Definition setShortName (defaultTitle : option Handle) (name : option string)
  : Js AppxManifest Returned :=
  if truthy name then
    match defaultTitle with
    | Some h =>
        do! modify_state (on_root (modify_at
              (set_attribute "ShortName" (default "" name)) h)) in
        ret This
    | None => throw (TypeError "Cannot read property attrib of null")
    end
  else
    throw (TypeError ("Argument for " +:+ dquote +:+ "setDisplayName" +:+ dquote
                      +:+ " must be defined in appxmanifest at undefined")).

Definition VisualElements_getDisplayName (visualElements : Handle)
    (this : AppxManifest) : option string :=
  get_attribute visualElements "DisplayName" this.

Definition VisualElements_setDisplayName (visualElements : Handle)
    (name : option string) : Js AppxManifest Returned :=
  set_required_attribute
    "VisualElements.DisplayName attribute must be defined in appxmanifest at undefined"
    visualElements "DisplayName" name.

Definition KNOWN_ORIENTATIONS (orientation : string) : option (list string) :=
  if String.eqb orientation "default"
  then Some ["portrait"; "landscape"; "landscapeFlipped"]
  else if String.eqb orientation "portrait" then Some ["portrait"]
  else if String.eqb orientation "landscape"
  then Some ["landscape"; "landscapeFlipped"]
  else None.

Definition getOrientation (visualElements : Handle) (this : AppxManifest)
  : list (option string) :=
  match node_at visualElements (root_of this) with
  | Some el =>
      (λ element, attrib element !! "Preference")
        <$> findall_children "uap:Rotation" el
  | None => []
  end.

Definition append_rotation (rotationPreferenceRoot : Handle)
    (state : AppxManifest * nat) (orientation : string) : AppxManifest * nat :=
  let '(this, element_ids) := state in
  let '(el, element_ids') :=
    new_Element "uap:Rotation" {["Preference" := orientation]} element_ids in
  (on_root (modify_at (append el) rotationPreferenceRoot) this, element_ids').

(** [setOrientation(orientation)] *)
Definition setOrientation (visualElements : Handle) (orientation : option string)
  : Js (AppxManifest * nat) Returned :=
  λ '(this, element_ids),
    let orientation :=
      if negb (truthy orientation) || String.eqb (default "" orientation) ""
      then "default" else default "" orientation in
    let found :=
      find_under visualElements ["uap:InitialRotationPreference"] (root_of this) in
    if negb (truthy (Some orientation)) && bool_decide (is_Some found) then
      (Normal This, (remove_found visualElements found this, element_ids))
    else
      match find_or_append visualElements "uap:InitialRotationPreference"
                           (this, element_ids) with
      | (Normal rotationPreferenceRoot, (this, element_ids)) =>
          let this := on_root (modify_at clear rotationPreferenceRoot) this in
          if bool_decide (orientation ∈ Object_prototype_keys) then
            (Throw (TypeError "orientations.forEach is not a function"),
             (this, element_ids))
          else
            let orientations :=
              match KNOWN_ORIENTATIONS orientation with
              | Some known => known
              | None => split_on "," orientation
              end in
            (Normal This,
             fold_left (append_rotation rotationPreferenceRoot) orientations
                       (this, element_ids))
      | (Throw e, state) => (Throw e, state)
      end.

Definition getBackgroundColor (visualElements : Handle) (this : AppxManifest)
  : option string :=
  get_attribute visualElements "BackgroundColor" this.

Definition setBackgroundColor (visualElements : Handle) (color : option string)
  : Js AppxManifest Returned :=
  if truthy color then
    do! modify_state (on_root (modify_at
          (set_attribute "BackgroundColor" (refineColor (default "" color)))
          visualElements)) in
    ret This
  else
    throw (TypeError ("VisualElements.BackgroundColor attribute must be defined "
                      +:+ "in appxmanifest at undefined")).

(** [try { ... } catch (e) { ... }] *)
Definition try_catch {S A} (body : Js S A) (handler : Exception → Js S A)
  : Js S A :=
  λ s, match body s with
       | (Throw e, s') => handler e s'
       | done => done
       end.

Definition trySetBackgroundColor (visualElements : Handle) (color : option string)
  : Js AppxManifest Returned :=
  try_catch (setBackgroundColor visualElements color) (λ _, ret This).

Definition getSplashBackgroundColor (visualElements : Handle)
    (this : AppxManifest) : option string :=
  splashNode ← find_under visualElements ["uap:SplashScreen"] (root_of this);
  get_attribute splashNode "BackgroundColor" this.

Definition delete_attribute (name : string) (el : Element) : Element :=
  set_attrib (delete name (attrib el)) el.

Definition setSplashBackgroundColor (visualElements : Handle)
    (color : option string) : Js AppxManifest Returned :=
  let! this := get_state in
  match find_under visualElements ["uap:SplashScreen"] (root_of this) with
  | Some splashNode =>
      do! modify_state (on_root (modify_at
            (if truthy color
             then set_attribute "BackgroundColor" (refineColor (default "" color))
             else delete_attribute "BackgroundColor") splashNode)) in
      ret This
  | None => ret This
  end.

Definition VisualElements_getDescription (visualElements : Handle)
    (this : AppxManifest) : option string :=
  get_attribute visualElements "Description" this.

Definition VisualElements_setDescription (visualElements : Handle)
    (description : option string) : Js AppxManifest Returned :=
  if truthy description then
    do! modify_state (on_root (modify_at
          (set_attribute "Description"
             (processDescription (default "" description))) visualElements)) in
    ret This
  else
    throw (TypeError ("VisualElements.Description attribute must be defined and "
                      +:+ "non-empty in appxmanifest at undefined")).

(** ** The shortcuts *)

(** [setPackageName(name)] *)
Definition setPackageName (name : option string) : Js AppxManifest Returned :=
  let! identity := getIdentity in
  do! setName identity name in
  ret This.

(** [setAppName(name)] *)
Definition setAppName (name : option string) : Js (AppxManifest * nat) Returned :=
  let! properties := with_manifest getProperties in
  do! Properties_setDisplayName properties name in
  let! visualElements := with_manifest getVisualElements in
  do! with_manifest (VisualElements_setDisplayName visualElements name) in
  let! visualElements := with_manifest getVisualElements in
  let! defaultTitle :=
    with_manifest (λ this, (Normal (getDefaultTitle visualElements this), this)) in
  do! with_manifest (setShortName defaultTitle name) in
  ret This.

(** ** Restricted capabilities *)

Definition UAP_RESTRICTED_CAPS : list string :=
  ["enterpriseAuthentication"; "sharedUserCertificates";
   "documentsLibrary"; "musicLibrary"; "picturesLibrary";
   "videosLibrary"; "removableStorage"; "internetClientClientServer";
   "privateNetworkClientServer"].

(** [getRestrictedCapabilities()]: the restricted capabilities, or [false]
    ([None]) when there is none. *)
Definition getRestrictedCapabilities (this : AppxManifest)
  : option (list Capability) :=
  let restrictedCapabilities :=
    filter (λ capability,
              includes_name UAP_RESTRICTED_CAPS (cap_name capability) = true)
           (getCapabilities this) in
  if length restrictedCapabilities =? 0 then None else Some restrictedCapabilities.

(** ** Vocabulary of the statements *)

(** The element that [find('.//Capabilities')] returns. *)
Definition capabilities_of (this : AppxManifest) : option Element :=
  h ← find_descendant "Capabilities" (root_of this); node_at h (root_of this).

Definition name_of (el : Element) : option string := attrib el !! "Name".

(** The children of an element that declare the capability [name]. *)
Definition declarations_of (name : string) (capabilities : Element) : list Element :=
  filter (λ el, name_of el = Some name) (getchildren capabilities).

(** The first element of each name, in document order; [seen] holds the
    names met so far. *)
Fixpoint keep_first (seen : list (option string)) (els : list Element)
  : list Element :=
  match els with
  | [] => []
  | el :: els' =>
      if bool_decide (name_of el ∈ seen) then keep_first seen els'
      else el :: keep_first (seen ++ [name_of el]) els'
  end.

(** Ordinal order on strings. *)
Definition string_le (a b : string) : Prop := String.compare a b ≠ Gt.

(** [a] may stand before [b] in ascending order of the local name, the
    tag without its namespace prefix. *)
Definition ascending_localName (a b : Element) : Prop :=
  ∃ la lb, extractLocalName (tag a) = Some la
           ∧ extractLocalName (tag b) = Some lb
           ∧ string_le la lb.

(** The dot-separated components of a version. *)
Definition components (version : string) : list string := split_on "." version.

(** Every dot of the string is followed by a digit. *)
Fixpoint dots_before_digits (s : string) : bool :=
  match s with
  | EmptyString => true
  | String c s' =>
      (if Ascii.eqb c "."
       then match s' with
            | String d _ => is_digit d
            | EmptyString => false
            end
       else true) && dots_before_digits s'
  end.

(** [n] copies of [".0"]. *)
Fixpoint zero_components (n : nat) : string :=
  match n with
  | 0 => ""
  | S n' => ".0" +:+ zero_components n'
  end.

(** What [processChanges] does to one change. *)
Definition retarget (change : Change) : Change :=
  if targets_generic change then demuxChangeWithSubsts change else change.

(** The order in which the comparison function of [sortCapabilities] puts
    elements: that of their [localName] property. *)
Definition has_localName (el : Element) : Prop := is_Some (localName el).

Definition localName_le (a b : Element) : Prop :=
  string_le (default "" (localName a)) (default "" (localName b)).

(** The string holds no [sep]. *)
Fixpoint free_of (sep : ascii) (s : string) : bool :=
  match s with
  | EmptyString => true
  | String c s' => negb (Ascii.eqb c sep) && free_of sep s'
  end.

(** The process after [xml.parseElementtreeSync] was called on [paths]. *)
Definition logged (paths : list string) (p : Process) : Process :=
  mkProcess (manifestCache p) (instances p) (files p) (parsed p ++ paths).

(** Every reference in the cache is to an instance that exists. *)
Definition cache_bounded (p : Process) : Prop :=
  ∀ key instance,
    manifestCache p !! key = Some instance → instance < length (instances p).

(** The instance exists and the cache does not hold it. *)
Definition uncached (instance : nat) (p : Process) : Prop :=
  instance < length (instances p)
  ∧ ∀ key, manifestCache p !! key ≠ Some instance.

(** Every character of the string passes the test. *)
Fixpoint string_forall (P : ascii → bool) (s : string) : bool :=
  match s with
  | EmptyString => true
  | String c s' => P c && string_forall P s'
  end.

(** How many characters of the string pass the test. *)
Fixpoint string_count (P : ascii → bool) (s : string) : nat :=
  match s with
  | EmptyString => 0
  | String c s' => (if P c then 1 else 0) + string_count P s'
  end.

Definition is_hex_digit (c : ascii) : bool :=
  let n := nat_of_ascii c in
  ((48 <=? n) && (n <=? 57)) || ((65 <=? n) && (n <=? 70))
  || ((97 <=? n) && (n <=? 102)).

(** Neither a line break nor a tab. *)
Definition is_plain (c : ascii) : bool :=
  negb (Ascii.eqb c newline) && negb (Ascii.eqb c carriage_return)
  && negb (Ascii.eqb c tab).

(** ** Sample documents

    A manifest in the shape of the project template, and the elements that
    the unit tests append to it. *)

Definition element (id : nat) (t : string) (a : list (string * string))
    (cs : list Element) : Element :=
  mkElement id t (list_to_map a) None cs None.

Definition sample_capabilities : Element :=
  element 8 "Capabilities" []
    [element 9 "Capability" [("Name", "internetClient")] []].

Definition sample_root : Element :=
  element 0 "Package" [("xmlns:uap", "http://schemas.microsoft.com/appx/manifest/uap/windows10")]
    [element 1 "Identity" [("Name", "$guid1$"); ("Version", "1.0.0.0");
                           ("Publisher", "CN=$username$")] [];
     element 2 "mp:PhoneIdentity" [("PhoneProductId", "$guid1$")] [];
     element 3 "Properties" [] [];
     element 4 "Dependencies" []
       [element 5 "TargetDeviceFamily" [("Name", "Windows.Universal")] []];
     element 6 "Applications" []
       [element 7 "Application" [("Id", "$safeprojectname$");
                                 ("StartPage", "www/index.html")] []];
     sample_capabilities].

Definition sample_manifest : AppxManifest :=
  mkAppxManifest "template/package.windows10.appxmanifest"
                 (mkElementTree sample_root) true.

(** The template after the two [capabilities.append] of a unit test. *)
Definition duplicated_capabilities : Element :=
  append (element 11 "uap:Capability" [("Name", "enterpriseAuthentication")] [])
    (append (element 10 "uap:Capability" [("Name", "enterpriseAuthentication")] [])
            sample_capabilities).

Definition duplicated_manifest : AppxManifest :=
  on_root (modify_at (λ _, duplicated_capabilities) [5]) sample_manifest.

(** A package without Capabilities and without Dependencies. *)
Definition bare_manifest : AppxManifest :=
  mkAppxManifest "bare.appxmanifest"
    (mkElementTree
       (element 0 "Package" [("xmlns:uap", "")]
          [element 1 "Identity" [("Name", "app"); ("Version", "1.0.0.0")] []]))
    true.

(** Two capabilities of the same local name. *)
Definition two_capabilities : Element :=
  element 8 "Capabilities" []
    [element 9 "Capability" [("Name", "internetClient")] [];
     element 10 "Capability" [("Name", "privateNetworkClientServer")] []].

(** The disk of the unit tests: a manifest whose root declares the uap
    namespace. *)
Definition test_disk : gmap string ElementTree :=
  {["/uap/prefixed" := mkElementTree (element 0 "Package" [("xmlns:uap", "")] [])]}.

(** A serialiser to run the examples with. *)
Definition no_text : ElementTree → nat → string := λ _ _, "".

(** The template with its texts and the visual elements of its
    application. *)
Definition template_properties : Element :=
  element 3 "Properties" []
    [set_text (Some "$projectname$") (element 12 "DisplayName" [] []);
     set_text (Some "$username$") (element 13 "PublisherDisplayName" [] []);
     set_text (Some "images\StoreLogo.png") (element 14 "Logo" [] [])].

Definition template_visual_elements : Element :=
  element 15 "uap:VisualElements"
    [("DisplayName", "$projectname$"); ("Description", "CordovaApp");
     ("BackgroundColor", "#464646")]
    [element 16 "uap:DefaultTile" [("ShortName", "$projectname$")] [];
     element 17 "uap:SplashScreen" [("Image", "images\splashscreen.png")] []].

Definition template_root : Element :=
  element 0 "Package" [("xmlns:uap", "http://schemas.microsoft.com/appx/manifest/uap/windows10")]
    [element 1 "Identity" [("Name", "$guid1$"); ("Version", "1.0.0.0");
                           ("Publisher", "CN=$username$")] [];
     element 2 "PhoneIdentity" [("PhoneProductId", "$guid1$")] [];
     template_properties;
     element 4 "Dependencies" []
       [element 5 "TargetDeviceFamily" [("Name", "Windows.Universal")] []];
     element 6 "Applications" []
       [element 7 "Application" [("Id", "$safeprojectname$");
                                 ("StartPage", "www/index.html")]
          [template_visual_elements]];
     sample_capabilities].

Definition template_manifest : AppxManifest :=
  mkAppxManifest "template/package.windows10.appxmanifest"
                 (mkElementTree template_root) true.

(** ** The tree adapter: handles and searches *)

Lemma Element_ind' (P : Element → Prop) :
  (∀ e, Forall P (_children e) → P e) → ∀ e, P e.
Proof.
  intros step. fix self 1. intros [i t a x cs n]. apply step. simpl.
  revert cs. fix each 1. intros [|c cs].
  - constructor.
  - constructor; [apply self | apply each].
Qed.

Lemma scan_descendants_found inside t i cs h :
  scan_descendants inside t i cs = Some h →
  ∃ k c, cs !! k = Some c
         ∧ Forall (λ d, tag d ≠ t ∧ inside d = None) (take k cs)
         ∧ ((h = [i + k] ∧ tag c = t)
            ∨ (∃ h', h = (i + k) :: h' ∧ tag c ≠ t ∧ inside c = Some h')).
Proof.
  revert i. induction cs as [|c cs IH]; intros i; simpl; [done|].
  destruct (String.eqb_spec (tag c) t) as [Heq|Hne].
  - intros [= <-]. exists 0, c. rewrite Nat.add_0_r. simpl. eauto.
  - destruct (inside c) as [h'|] eqn:Hin.
    + intros [= <-]. exists 0, c. rewrite Nat.add_0_r. simpl.
      split; [done|]. split; [constructor|]. right. eauto.
    + intros Hscan. destruct (IH _ Hscan) as (k & d & Hk & Hbefore & Hcase).
      exists (S k), d. replace (i + S k) with (S i + k) by lia.
      simpl. split; [done|]. split; [|done].
      constructor; [done|done].
Qed.

Lemma scan_descendants_none inside t i cs :
  Forall (λ d, tag d ≠ t ∧ inside d = None) cs →
  scan_descendants inside t i cs = None.
Proof.
  intros H. revert i. induction H as [|c cs [Htag Hin] _ IH]; intros i; simpl; [done|].
  destruct (String.eqb_spec (tag c) t); [done|]. rewrite Hin. apply IH.
Qed.

Lemma scan_descendants_at inside t i cs k c :
  cs !! k = Some c →
  Forall (λ d, tag d ≠ t ∧ inside d = None) (take k cs) →
  scan_descendants inside t i cs =
    if String.eqb (tag c) t then Some [i + k]
    else match inside c with
         | Some h => Some ((i + k) :: h)
         | None => scan_descendants inside t (S (i + k)) (drop (S k) cs)
         end.
Proof.
  revert i k. induction cs as [|d cs IH]; intros i [|k]; simpl; try done.
  - intros [= ->] _. rewrite Nat.add_0_r, drop_0. done.
  - intros Hk Hbefore. apply Forall_cons in Hbefore as [[Htag Hin] Hbefore].
    destruct (String.eqb_spec (tag d) t); [done|]. rewrite Hin.
    rewrite (IH (S i) k Hk Hbefore). replace (S i + k) with (i + S k) by lia. done.
Qed.

Lemma find_descendant_unfold t e :
  find_descendant t e = scan_descendants (find_descendant t) t 0 (_children e).
Proof. by destruct e. Qed.

(** A handle that a search returns refers to an element with the tag
    searched for. *)
Lemma find_descendant_node t e h :
  find_descendant t e = Some h → ∃ c, node_at h e = Some c ∧ tag c = t.
Proof.
  revert h. induction e as [e IH] using Element_ind'. intros h.
  rewrite find_descendant_unfold. intros Hscan.
  destruct (scan_descendants_found _ _ _ _ _ Hscan)
    as (k & c & Hk & _ & [[-> Htag]|(h' & -> & _ & Hin)]); simpl.
  - rewrite Hk. simpl. eauto.
  - rewrite Hk. simpl. rewrite Forall_forall in IH.
    apply (IH c); [|done]. by eapply list_elem_of_lookup_2.
Qed.

Lemma find_child_from_found t i cs j :
  find_child_from t i cs = Some j →
  ∃ k c, j = i + k ∧ cs !! k = Some c ∧ tag c = t
         ∧ Forall (λ d, tag d ≠ t) (take k cs).
Proof.
  revert i. induction cs as [|c cs IH]; intros i; simpl; [done|].
  destruct (String.eqb_spec (tag c) t) as [Heq|Hne].
  - intros [= <-]. exists 0, c. rewrite Nat.add_0_r. simpl. eauto.
  - intros Hfind. destruct (IH _ Hfind) as (k & d & -> & Hk & Htag & Hbefore).
    exists (S k), d. split; [lia|]. simpl. split; [done|]. split; [done|].
    by constructor.
Qed.

Lemma find_child_from_none t i cs :
  Forall (λ d, tag d ≠ t) cs → find_child_from t i cs = None.
Proof.
  intros H. revert i. induction H as [|c cs Htag _ IH]; intros i; simpl; [done|].
  destruct (String.eqb_spec (tag c) t); [done|]. apply IH.
Qed.

Lemma find_child_node t e h :
  find_child t e = Some h →
  ∃ i c, h = [i] ∧ _children e !! i = Some c ∧ tag c = t.
Proof.
  unfold find_child. destruct (find_child_from t 0 (_children e)) as [j|] eqn:Hj;
    simpl; [|done].
  intros [= <-]. destruct (find_child_from_found _ _ _ _ Hj)
    as (k & c & -> & Hk & Htag & _). simpl. eauto.
Qed.

Lemma find_grandchild_from_node t1 t2 i cs h :
  find_grandchild_from t1 t2 i cs = Some h →
  ∃ k j c g, h = [i + k; j] ∧ cs !! k = Some c ∧ _children c !! j = Some g
             ∧ tag c = t1 ∧ tag g = t2.
Proof.
  revert i. induction cs as [|c cs IH]; intros i; simpl; [done|].
  destruct (String.eqb_spec (tag c) t1) as [Heq|Hne].
  - destruct (find_child_from t2 0 (_children c)) as [j|] eqn:Hj.
    + intros [= <-]. destruct (find_child_from_found _ _ _ _ Hj)
        as (k & g & -> & Hk & Htag & _).
      exists 0, k, c, g. rewrite Nat.add_0_r. simpl. eauto.
    + intros Hfind. destruct (IH _ Hfind) as (k & j & d & g & -> & Hk & Hj' & H1 & H2).
      exists (S k), j, d, g. replace (i + S k) with (S i + k) by lia. simpl. eauto.
  - intros Hfind. destruct (IH _ Hfind) as (k & j & d & g & -> & Hk & Hj' & H1 & H2).
    exists (S k), j, d, g. replace (i + S k) with (S i + k) by lia. simpl. eauto.
Qed.

Lemma node_at_modify_at f h e c :
  node_at h e = Some c → node_at h (modify_at f h e) = Some (f c).
Proof.
  revert e. induction h as [|i h IH]; intros e; simpl.
  - by intros [= ->].
  - destruct (_children e !! i) as [d|] eqn:Hi; simpl; [|done].
    intros Hd. rewrite list_lookup_alter_eq, Hi. simpl. by apply IH.
Qed.

Lemma tag_modify_at f h e :
  (∀ x, tag (f x) = tag x) → tag (modify_at f h e) = tag e.
Proof. intros Hf. destruct h; simpl; [apply Hf|done]. Qed.

(** A mutation below the element found does not move what the search
    finds, as long as it leaves tags alone. *)
Lemma find_descendant_modify_at t f h e :
  (∀ x, tag (f x) = tag x) →
  find_descendant t e = Some h →
  find_descendant t (modify_at f h e) = Some h.
Proof.
  intros Hf. revert h. induction e as [e IH] using Element_ind'. intros h.
  rewrite find_descendant_unfold. intros Hscan.
  destruct (scan_descendants_found _ _ _ _ _ Hscan)
    as (k & c & Hk & Hbefore & Hcase).
  assert (Hh : ∃ h', h = k :: h') by (destruct Hcase as [[-> _]|(h' & -> & _)]; eauto).
  destruct Hh as [h' ->].
  change (modify_at f (k :: h') e)
    with (set_children (alter (modify_at f h') k (_children e)) e).
  rewrite find_descendant_unfold.
  change (_children (set_children ?cs e)) with cs.
  rewrite (scan_descendants_at _ _ _ _ k (modify_at f h' c)).
  - rewrite (tag_modify_at _ _ _ Hf).
    destruct Hcase as [[[= <-] Htag]|(h'' & [= <-] & Htag & Hin)].
    + simpl. by destruct (String.eqb_spec (tag c) t).
    + destruct (String.eqb_spec (tag c) t); [done|].
      rewrite Forall_forall in IH. rewrite (IH c); [done| |done].
      by eapply list_elem_of_lookup_2.
  - by rewrite list_lookup_alter_eq, Hk.
  - by rewrite take_alter_ge.
Qed.

Lemma root_of_on_root f this : root_of (on_root f this) = f (root_of this).
Proof. done. Qed.

Lemma with_capabilities_run f this capabilities :
  (∀ x, tag (f x) = tag x) →
  capabilities_of this = Some capabilities →
  ∃ this', with_capabilities f this = (Normal tt, this')
           ∧ capabilities_of this' = Some (f capabilities)
           ∧ path this' = path this.
Proof.
  intros Hf. unfold capabilities_of, with_capabilities.
  destruct (find_descendant "Capabilities" (root_of this)) as [h|] eqn:Hfind;
    simpl; [|done].
  intros Hnode. eexists. split; [done|]. rewrite root_of_on_root.
  rewrite (find_descendant_modify_at _ _ _ _ Hf Hfind). simpl.
  split; [|done]. by apply node_at_modify_at.
Qed.

Lemma with_capabilities_null f this :
  find_descendant "Capabilities" (root_of this) = None →
  with_capabilities f this
  = (Throw (TypeError "Cannot read property getchildren of null"), this).
Proof. intros Hnone. unfold with_capabilities. by rewrite Hnone. Qed.

(** ** The capability passes, one by one *)

Lemma name_of_uap_prefixed el : name_of (uap_prefixed el) = name_of el.
Proof. unfold uap_prefixed. by destruct (needs_uap_prefix el). Qed.

Lemma _id_uap_prefixed el : _id (uap_prefixed el) = _id el.
Proof. unfold uap_prefixed. by destruct (needs_uap_prefix el). Qed.

Lemma prefix_uap t : String.prefix "uap:" ("uap:" +:+ t) = true.
Proof. by destruct t. Qed.

Lemma needs_uap_prefix_uap_prefixed el :
  needs_uap_prefix (uap_prefixed el) = false.
Proof.
  unfold uap_prefixed. destruct (needs_uap_prefix el) eqn:Hneeds; [|done].
  unfold needs_uap_prefix. change (tag (set_tag ?t el)) with t.
  rewrite prefix_uap. apply andb_false_r.
Qed.

(** The prefix pass leaves an element it has handled alone. *)
Lemma uap_prefixed_idempotent el : uap_prefixed (uap_prefixed el) = uap_prefixed el.
Proof.
  destruct (needs_uap_prefix el) eqn:Hneeds.
  - assert (uap_prefixed el = set_tag ("uap:" +:+ tag el) el) as ->
      by (unfold uap_prefixed; by rewrite Hneeds).
    unfold uap_prefixed, needs_uap_prefix.
    change (tag (set_tag ?t el)) with t.
    rewrite prefix_uap. simpl. by rewrite andb_false_r.
  - assert (uap_prefixed el = el) as -> by (unfold uap_prefixed; by rewrite Hneeds).
    unfold uap_prefixed. by rewrite Hneeds.
Qed.

Lemma filter_other_ids (el : Element) (l : list Element) :
  _id el ∉ _id <$> l → filter (λ x, _id x ≠ _id el) l = l.
Proof.
  induction l as [|x l IH]; simpl; [done|].
  rewrite not_elem_of_cons. intros [Hne Hnot].
  rewrite filter_cons_True by done. by rewrite IH.
Qed.

(** With distinct children, the loop of [ensureUniqueCapabilities] keeps
    the first element of each name: [kept] are the children before the
    loop's position, [pending] those from it on. *)
Lemma fold_unique_step pending kept seen c :
  NoDup (_id <$> (kept ++ pending)) →
  (fold_left unique_step pending (seen, set_children (kept ++ pending) c)).2
  = set_children (kept ++ keep_first seen pending) c.
Proof.
  revert kept seen. induction pending as [|el pending IH]; intros kept seen Hids;
    simpl; [done|].
  rewrite fmap_app, fmap_cons in Hids.
  apply NoDup_app in Hids as (Hkept & Hcross & Hpending).
  apply NoDup_cons in Hpending as [Hel Hpending].
  fold (name_of el). destruct (bool_decide (name_of el ∈ seen)).
  - unfold remove. simpl. rewrite filter_app, filter_cons_False by naive_solver.
    rewrite !filter_other_ids.
    + apply IH. rewrite fmap_app. apply NoDup_app. split; [done|]. split; [|done].
      intros x Hx Hx'. apply (Hcross x Hx). by right.
    + done.
    + intros Hin. apply (Hcross _ Hin). by left.
  - replace (kept ++ el :: pending) with ((kept ++ [el]) ++ pending)
      by (by rewrite <- app_assoc).
    rewrite (IH (kept ++ [el])).
    + by rewrite <- app_assoc.
    + rewrite <- app_assoc. simpl. rewrite fmap_app, fmap_cons.
      apply NoDup_app. split; [done|]. split; [done|]. by apply NoDup_cons.
Qed.

Lemma ensureUniqueCapabilities_keep_first c :
  NoDup (_id <$> getchildren c) →
  ensureUniqueCapabilities c = set_children (keep_first [] (getchildren c)) c.
Proof.
  intros Hids. unfold ensureUniqueCapabilities, getchildren in *.
  pose proof (fold_unique_step (_children c) [] [] c Hids) as Hfold.
  simpl in Hfold.
  by replace (set_children (_children c) c) with c in Hfold by (by destruct c).
Qed.

Lemma tag_fold_unique_step pending seen c :
  tag (fold_left unique_step pending (seen, c)).2 = tag c.
Proof.
  revert seen c. induction pending as [|el pending IH]; intros seen c; simpl; [done|].
  destruct (bool_decide _); by rewrite IH.
Qed.

Lemma tag_ensureUniqueCapabilities c : tag (ensureUniqueCapabilities c) = tag c.
Proof. apply tag_fold_unique_step. Qed.

(** What [keep_first] keeps of a name. *)
Lemma keep_first_seen seen els name :
  Some name ∈ seen →
  filter (λ el, name_of el = Some name) (keep_first seen els) = [].
Proof.
  revert seen. induction els as [|el els IH]; intros seen Hseen; simpl; [done|].
  destruct (bool_decide_reflect (name_of el ∈ seen)) as [Hin|Hout]; [by apply IH|].
  rewrite filter_cons_False by (intros Heq; apply Hout; by rewrite Heq).
  apply IH. apply elem_of_app. by left.
Qed.

Lemma keep_first_once seen els name :
  Some name ∉ seen →
  Some name ∈ name_of <$> els →
  length (filter (λ el, name_of el = Some name) (keep_first seen els)) = 1.
Proof.
  revert seen. induction els as [|el els IH]; intros seen Hseen; simpl.
  - by intros ?%elem_of_nil.
  - rewrite elem_of_cons. intros Hin.
    destruct (bool_decide_reflect (name_of el ∈ seen)) as [Hel|Hel].
    + apply IH; [done|]. destruct Hin as [Heq|Hin]; [|done].
      rewrite <- Heq in Hel. done.
    + destruct (decide (name_of el = Some name)) as [Heq|Hne].
      * rewrite filter_cons_True by done. simpl.
        rewrite keep_first_seen; [done|]. apply elem_of_app. right.
        rewrite Heq. by apply list_elem_of_singleton.
      * rewrite filter_cons_False by done. apply IH.
        -- rewrite elem_of_app, list_elem_of_singleton.
           intros [Hin'|Heq]; [done|congruence].
        -- destruct Hin as [Heq|Hin]; [by rewrite <- Heq in Hne|done].
Qed.

(** ** Array.prototype.sort: what both engines do *)

Section ArraySortPermutation.
Context {A : Type} (comparefn : A → A → Z).

Lemma insert_from_right_Permutation element rev_sorted :
  insert_from_right comparefn element rev_sorted ≡ₚ element :: rev_sorted.
Proof.
  induction rev_sorted as [|tmp rest IH]; simpl; [done|].
  destruct (0 <? comparefn tmp element)%Z; [|done].
  rewrite IH. apply perm_swap.
Qed.

Lemma fold_insert_from_right_Permutation a rev_sorted :
  fold_left (λ acc element, insert_from_right comparefn element acc) a rev_sorted
  ≡ₚ rev_sorted ++ a.
Proof.
  revert rev_sorted. induction a as [|x a IH]; intros rev_sorted; simpl.
  - by rewrite app_nil_r.
  - rewrite IH, insert_from_right_Permutation. apply Permutation_middle.
Qed.

Lemma insertion_sort_Permutation a : insertion_sort comparefn a ≡ₚ a.
Proof.
  unfold insertion_sort. rewrite <- Permutation_rev.
  by rewrite fold_insert_from_right_Permutation.
Qed.

Lemma extend_run_app isDescending previousElement rest run beyond :
  extend_run comparefn isDescending previousElement rest = (run, beyond) →
  rest = run ++ beyond.
Proof.
  revert previousElement run beyond.
  induction rest as [|currentElement rest IH]; intros previous run beyond; simpl.
  - by intros [= <- <-].
  - destruct (if isDescending then _ else _).
    + by intros [= <- <-].
    + destruct (extend_run comparefn isDescending currentElement rest)
        as [run' beyond'] eqn:Hrest.
      intros [= <- <-]. simpl. f_equal. by eapply IH.
Qed.

Lemma count_and_make_run_Permutation a run beyond :
  count_and_make_run comparefn a = (run, beyond) → run ++ beyond ≡ₚ a.
Proof.
  destruct a as [|elementHigh [|elementLow rest]]; simpl.
  - by intros [= <- <-].
  - by intros [= <- <-].
  - destruct (extend_run comparefn _ elementLow rest) as [run' beyond'] eqn:Hrun.
    apply extend_run_app in Hrun as ->.
    intros [= <- <-]. destruct (comparefn elementLow elementHigh <? 0)%Z; [|done].
    change ((rev run' ++ [elementLow]) ++ [elementHigh])
      with (rev (elementHigh :: elementLow :: run')).
    by rewrite <- Permutation_rev.
Qed.

Lemma binary_insert_Permutation sorted pivot :
  binary_insert comparefn sorted pivot ≡ₚ pivot :: sorted.
Proof.
  unfold binary_insert. rewrite <- Permutation_middle.
  by rewrite take_drop.
Qed.

Lemma fold_binary_insert_Permutation beyond run :
  fold_left (binary_insert comparefn) beyond run ≡ₚ run ++ beyond.
Proof.
  revert run. induction beyond as [|pivot beyond IH]; intros run; simpl.
  - by rewrite app_nil_r.
  - rewrite IH, binary_insert_Permutation. apply Permutation_middle.
Qed.

Lemma tim_sort_Permutation a : tim_sort comparefn a ≡ₚ a.
Proof.
  unfold tim_sort.
  destruct (count_and_make_run comparefn a) as [run beyond] eqn:Hrun.
  rewrite fold_binary_insert_Permutation.
  by apply count_and_make_run_Permutation.
Qed.

(** Whatever the engine, the sorted array holds the elements it held. *)
Lemma Array_sort_Permutation engine a : Array_sort comparefn engine a ≡ₚ a.
Proof.
  destruct engine; [apply insertion_sort_Permutation | apply tim_sort_Permutation].
Qed.
End ArraySortPermutation.

Section ArraySortOrder.
Context {A : Type} (comparefn : A → A → Z).
Context (D : A → Prop) (le : A → A → Prop).

(** [le] is a total preorder, and on the elements in [D] the comparison
    function is negative where [le] holds and positive elsewhere: it
    never answers 0. *)
Hypothesis le_trans : ∀ a b c, le a b → le b c → le a c.
Hypothesis le_total : ∀ a b, le a b ∨ le b a.
Hypothesis comparefn_sign : ∀ a b, D a → D b →
  (le a b ∧ (comparefn a b < 0)%Z) ∨ (¬ le a b ∧ (0 < comparefn a b)%Z).

Local Instance le_Transitive : Transitive le.
Proof. intros a b c. apply le_trans. Qed.

Local Instance flip_le_Transitive : Transitive (flip le).
Proof. intros a b c Hab Hbc. exact (le_trans _ _ _ Hbc Hab). Qed.

Lemma StronglySorted_flip_rev (l : list A) :
  StronglySorted (flip le) l → StronglySorted le (rev l).
Proof.
  induction 1 as [|x l Hl IH Hx]; simpl; [constructor|].
  apply StronglySorted_app_2; [|done|by repeat constructor].
  intros y z Hy ->%list_elem_of_singleton.
  rewrite Forall_forall in Hx. apply Hx.
  by rewrite <- Permutation_rev in Hy.
Qed.

Lemma insert_from_right_sorted element rev_sorted :
  D element → Forall D rev_sorted →
  StronglySorted (flip le) rev_sorted →
  StronglySorted (flip le) (insert_from_right comparefn element rev_sorted).
Proof.
  intros Helement. induction rev_sorted as [|tmp rest IH]; simpl.
  - intros _ _. by repeat constructor.
  - intros [Htmp Hrest]%Forall_cons Hsorted.
    apply StronglySorted_inv in Hsorted as [Hsorted Hbelow].
    destruct (comparefn_sign tmp element Htmp Helement) as [[Hle Hneg]|[Hgt Hpos]].
    + replace (0 <? comparefn tmp element)%Z with false by lia.
      constructor; [by constructor|].
      constructor; [done|].
      eapply Forall_impl; [done|]. intros x Hx. exact (le_trans _ _ _ Hx Hle).
    + replace (0 <? comparefn tmp element)%Z with true by lia.
      constructor; [by apply IH|].
      rewrite insert_from_right_Permutation. constructor; [|done].
      by destruct (le_total tmp element).
Qed.

Lemma fold_insert_from_right_sorted a rev_sorted :
  Forall D a → Forall D rev_sorted →
  StronglySorted (flip le) rev_sorted →
  StronglySorted (flip le)
    (fold_left (λ acc element, insert_from_right comparefn element acc)
               a rev_sorted).
Proof.
  revert rev_sorted. induction a as [|x a IH]; intros rev_sorted; simpl; [done|].
  intros [Hx Ha]%Forall_cons Hacc Hsorted. apply IH; [done| |].
  - rewrite insert_from_right_Permutation. by constructor.
  - by apply insert_from_right_sorted.
Qed.

Lemma insertion_sort_sorted a :
  Forall D a → StronglySorted le (insertion_sort comparefn a).
Proof.
  intros Ha. apply StronglySorted_flip_rev.
  apply fold_insert_from_right_sorted; [done|constructor|constructor].
Qed.

(** A sorted array is left as it is by straight insertion. *)
Lemma fold_insert_from_right_sorted_id a rev_sorted :
  Forall D a → Forall D rev_sorted →
  StronglySorted le (rev rev_sorted ++ a) →
  fold_left (λ acc element, insert_from_right comparefn element acc) a rev_sorted
  = rev a ++ rev_sorted.
Proof.
  revert rev_sorted. induction a as [|x a IH]; intros rev_sorted; simpl; [done|].
  intros [Hx Ha]%Forall_cons Hacc Hsorted.
  assert (insert_from_right comparefn x rev_sorted = x :: rev_sorted) as ->.
  { destruct rev_sorted as [|tmp rest]; simpl; [done|].
    apply Forall_cons in Hacc as [Htmp _].
    destruct (comparefn_sign tmp x Htmp Hx) as [[Hle Hneg]|[Hgt Hpos]].
    - by replace (0 <? comparefn tmp x)%Z with false by lia.
    - exfalso. apply Hgt. simpl in Hsorted.
      apply StronglySorted_app in Hsorted as (Hcross & _ & _).
      apply Hcross; [|by left]. apply elem_of_app. right. by left. }
  rewrite IH; [by rewrite <- app_assoc|done|by constructor|].
  simpl. by rewrite <- app_assoc.
Qed.

Lemma insertion_sort_sorted_id a :
  Forall D a → StronglySorted le a → insertion_sort comparefn a = a.
Proof.
  intros Ha Hsorted. unfold insertion_sort.
  rewrite fold_insert_from_right_sorted_id; [|done|constructor|done].
  by rewrite app_nil_r, rev_involutive.
Qed.

(** The leading run comes out ascending, whether it was found ascending
    or found descending and reversed. *)
Lemma extend_run_sorted isDescending previousElement rest run beyond :
  D previousElement → Forall D rest →
  extend_run comparefn isDescending previousElement rest = (run, beyond) →
  Sorted (if isDescending then flip le else le) (previousElement :: run).
Proof.
  revert previousElement run beyond.
  induction rest as [|currentElement rest IH]; intros previous run beyond Hprevious;
    simpl.
  - intros _ [= <- <-]. by repeat constructor.
  - intros [Hcurrent Hrest]%Forall_cons.
    destruct (comparefn_sign currentElement previous Hcurrent Hprevious)
      as [[Hle Hneg]|[Hgt Hpos]]; destruct isDescending.
    + replace (0 <=? comparefn currentElement previous)%Z with false by lia.
      destruct (extend_run comparefn true currentElement rest)
        as [run' beyond'] eqn:Hrun.
      intros [= <- <-]. constructor; [by eapply IH|]. by constructor.
    + replace (comparefn currentElement previous <? 0)%Z with true by lia.
      intros [= <- <-]. by repeat constructor.
    + replace (0 <=? comparefn currentElement previous)%Z with true by lia.
      intros [= <- <-]. by repeat constructor.
    + replace (comparefn currentElement previous <? 0)%Z with false by lia.
      destruct (extend_run comparefn false currentElement rest)
        as [run' beyond'] eqn:Hrun.
      intros [= <- <-]. constructor; [by eapply IH|]. constructor.
      by destruct (le_total previous currentElement).
Qed.

Lemma count_and_make_run_sorted a run beyond :
  Forall D a →
  count_and_make_run comparefn a = (run, beyond) →
  StronglySorted le run.
Proof.
  destruct a as [|elementHigh [|elementLow rest]].
  - intros _ [= <- <-]. constructor.
  - intros _ [= <- <-]. by repeat constructor.
  - intros [Hhigh [Hlow Hrest]%Forall_cons]%Forall_cons.
    unfold count_and_make_run.
    destruct (extend_run comparefn _ elementLow rest) as [run' beyond'] eqn:Hrun.
    apply extend_run_sorted in Hrun; [|done|done].
    destruct (comparefn_sign elementLow elementHigh Hlow Hhigh)
      as [[Hle Hneg]|[Hgt Hpos]].
    + replace (comparefn elementLow elementHigh <? 0)%Z with true in * by lia.
      intros [= <- <-].
      change (StronglySorted le (rev (elementHigh :: elementLow :: run'))).
      apply StronglySorted_flip_rev.
      apply Sorted_StronglySorted; [apply _|].
      constructor; [done|]. by constructor.
    + replace (comparefn elementLow elementHigh <? 0)%Z with false in * by lia.
      intros [= <- <-]. apply Sorted_StronglySorted; [apply _|].
      constructor; [done|]. constructor.
      by destruct (le_total elementHigh elementLow).
Qed.

Lemma StronglySorted_lookup_drop (l : list A) i x :
  StronglySorted le l → l !! i = Some x → Forall (le x) (drop (S i) l).
Proof.
  intros Hsorted Hi. rewrite <- (take_drop i l) in Hsorted.
  rewrite (drop_S l x i Hi) in Hsorted.
  apply StronglySorted_app in Hsorted as (_ & _ & Hsorted).
  by apply StronglySorted_inv in Hsorted as [_ Hx].
Qed.

Lemma StronglySorted_lookup_take (l : list A) i x :
  StronglySorted le l → l !! i = Some x → Forall (λ y, le y x) (take i l).
Proof.
  intros Hsorted Hi. rewrite <- (take_drop i l) in Hsorted.
  rewrite (drop_S l x i Hi) in Hsorted.
  apply StronglySorted_app in Hsorted as (Hcross & _ & _).
  apply Forall_forall. intros y Hy. apply Hcross; [done|by left].
Qed.

Lemma binary_search_turn fuel pivot (sorted : list A) left right :
  binary_search comparefn (S fuel) pivot sorted left right
  = if left <? right then
      match sorted !! (left + (right - left) / 2) with
      | Some midElement =>
          if (comparefn pivot midElement <? 0)%Z
          then binary_search comparefn fuel pivot sorted left
                             (left + (right - left) / 2)
          else binary_search comparefn fuel pivot sorted
                             (S (left + (right - left) / 2)) right
      | None => left
      end
    else left.
Proof. done. Qed.

(** The binary search stops at the first element that [pivot] may stand
    before. *)
Lemma binary_search_place fuel pivot sorted left right :
  D pivot → Forall D sorted → StronglySorted le sorted →
  left ≤ right → right ≤ length sorted → right - left ≤ fuel →
  Forall (λ x, ¬ le pivot x) (take left sorted) →
  Forall (le pivot) (drop right sorted) →
  let place := binary_search comparefn fuel pivot sorted left right in
  Forall (λ x, ¬ le pivot x) (take place sorted)
  ∧ Forall (le pivot) (drop place sorted).
Proof.
  intros Hpivot HD Hsorted. revert left right.
  induction fuel as [|fuel IH]; intros left right Hlr Hr Hfuel Hbelow Habove.
  - simpl. by replace left with right in * by lia.
  - rewrite binary_search_turn.
    destruct (Nat.ltb_spec left right) as [Hlt|Hge];
      [|by replace left with right in * by lia].
    set (mid := left + (right - left) / 2).
    assert (Hmid : left ≤ mid < right).
    { subst mid. split; [lia|].
      assert ((right - left) / 2 < right - left)
        by (apply Nat.div_lt; lia). lia. }
    destruct (lookup_lt_is_Some_2 sorted mid) as [midElement Hlookup]; [lia|].
    rewrite Hlookup.
    assert (HmidD : D midElement).
    { rewrite Forall_forall in HD. apply HD. by eapply list_elem_of_lookup_2. }
    destruct (comparefn_sign pivot midElement Hpivot HmidD)
      as [[Hle Hneg]|[Hgt Hpos]].
    + replace (comparefn pivot midElement <? 0)%Z with true by lia.
      apply IH; [lia|lia|lia|done|].
      rewrite (drop_S _ _ _ Hlookup). constructor; [done|].
      eapply Forall_impl; [by apply StronglySorted_lookup_drop|].
      intros x Hx. exact (le_trans _ _ _ Hle Hx).
    + replace (comparefn pivot midElement <? 0)%Z with false by lia.
      apply IH; [lia|lia|lia| |done].
      rewrite (take_S_r _ _ _ Hlookup). apply Forall_app. split.
      * eapply Forall_impl; [by apply StronglySorted_lookup_take|].
        intros x Hx Hpx. apply Hgt. exact (le_trans _ _ _ Hpx Hx).
      * by constructor.
Qed.

Lemma binary_insert_sorted sorted pivot :
  D pivot → Forall D sorted → StronglySorted le sorted →
  StronglySorted le (binary_insert comparefn sorted pivot).
Proof.
  intros Hpivot HD Hsorted. unfold binary_insert.
  destruct (binary_search_place (length sorted) pivot sorted 0 (length sorted))
    as [Hbelow Habove]; try done; try lia.
  { by rewrite drop_all. }
  set (place := binary_search comparefn _ _ _ _ _) in *.
  rewrite <- (take_drop place sorted) in Hsorted.
  apply StronglySorted_app in Hsorted as (Hcross & Htake & Hdrop).
  apply StronglySorted_app_2; [|done|by constructor].
  intros x y Hx [->|Hy]%elem_of_cons.
  - rewrite Forall_forall in Hbelow. specialize (Hbelow x Hx).
    by destruct (le_total x pivot).
  - by apply Hcross.
Qed.

Lemma fold_binary_insert_sorted beyond run :
  Forall D beyond → Forall D run → StronglySorted le run →
  StronglySorted le (fold_left (binary_insert comparefn) beyond run).
Proof.
  revert run. induction beyond as [|pivot beyond IH]; intros run; simpl; [done|].
  intros [Hpivot Hbeyond]%Forall_cons Hrun Hsorted. apply IH; [done| |].
  - rewrite binary_insert_Permutation. by constructor.
  - by apply binary_insert_sorted.
Qed.

Lemma tim_sort_sorted a : Forall D a → StronglySorted le (tim_sort comparefn a).
Proof.
  intros Ha. unfold tim_sort.
  destruct (count_and_make_run comparefn a) as [run beyond] eqn:Hrun.
  pose proof (count_and_make_run_Permutation _ _ _ _ Hrun) as Hperm.
  rewrite <- Hperm in Ha. apply Forall_app in Ha as [Hr Hb].
  apply fold_binary_insert_sorted; [done|done|].
  eapply count_and_make_run_sorted; [|done].
  rewrite <- Hperm. by apply Forall_app.
Qed.

(** Whatever the engine, the array comes out in ascending order. *)
Lemma Array_sort_sorted engine a :
  Forall D a → StronglySorted le (Array_sort comparefn engine a).
Proof.
  destruct engine; [apply insertion_sort_sorted | apply tim_sort_sorted].
Qed.
End ArraySortOrder.

(** ** Ordinal order on strings and local names *)

Lemma string_le_trans a b c : string_le a b → string_le b c → string_le a c.
Proof.
  unfold string_le. intros Hab Hbc.
  destruct (String.compare a b) eqn:Eab; [|clear Hab|done].
  - apply String.compare_eq_iff in Eab as ->. done.
  - destruct (String.compare b c) eqn:Ebc; [|clear Hbc|done].
    + apply String.compare_eq_iff in Ebc as <-. by rewrite Eab.
    + assert (String_as_OT.lt a c) as Hac
        by (by transitivity b).
      unfold String_as_OT.lt in Hac.
      change (String_as_OT.compare a c) with (String.compare a c) in Hac.
      by rewrite Hac.
Qed.

Lemma string_le_total a b : string_le a b ∨ string_le b a.
Proof.
  unfold string_le. destruct (String.compare a b) eqn:Eab; [by left|by left|].
  right. rewrite String.compare_antisym, Eab. done.
Qed.

Lemma string_gt_spec a b :
  (string_le a b ∧ string_gt a b = false) ∨ (¬ string_le a b ∧ string_gt a b = true).
Proof.
  unfold string_le, string_gt. destruct (String.compare a b); [left|left|right]; by auto.
Qed.

Lemma compare_localName_sign a b :
  has_localName a → has_localName b →
  (localName_le a b ∧ (compare_localName a b < 0)%Z)
  ∨ (¬ localName_le a b ∧ (0 < compare_localName a b)%Z).
Proof.
  unfold has_localName, localName_le, compare_localName.
  intros [x ->] [y ->]. simpl.
  destruct (string_gt_spec x y) as [[Hle ->]|[Hgt ->]]; [left|right]; by split.
Qed.

(** The comparison function answers that each of two elements of the same
    local name comes before the other. *)
Lemma compare_localName_tie a b :
  localName a = localName b →
  compare_localName a b = (-1)%Z ∧ compare_localName b a = (-1)%Z.
Proof.
  unfold compare_localName. intros ->. destruct (localName b) as [x|]; simpl; [|done].
  unfold string_gt.
  assert (String.compare x x = Eq) as ->; [|done].
  destruct (String.compare x x) eqn:E; [done| |];
    pose proof (String.compare_antisym x x) as Hanti; rewrite E in Hanti; done.
Qed.

Lemma split_on_nonempty sep s : split_on sep s ≠ [].
Proof.
  destruct s as [|c s]; simpl; [done|].
  destruct (Ascii.eqb c sep); [done|]. by destruct (split_on sep s).
Qed.

Lemma extractLocalName_is_Some t : is_Some (extractLocalName t).
Proof.
  unfold extractLocalName. pose proof (split_on_nonempty ":" t) as Hne.
  destruct (split_on ":" t) as [|x l] using rev_ind; [done|].
  rewrite last_snoc. eauto.
Qed.

Lemma split_on_free sep s : free_of sep s = true → split_on sep s = [s].
Proof.
  induction s as [|c s IH]; simpl; [done|].
  destruct (Ascii.eqb c sep); simpl; [done|]. intros Hfree. by rewrite IH.
Qed.

Lemma split_on_app sep p s :
  split_on sep (p +:+ String sep s) = split_on sep p ++ split_on sep s.
Proof.
  induction p as [|c p IH].
  - change ("" +:+ String sep s) with (String sep s). simpl.
    by rewrite Ascii.eqb_refl.
  - change (String c p +:+ String sep s) with (String c (p +:+ String sep s)).
    simpl. destruct (Ascii.eqb c sep); [by rewrite IH|]. rewrite IH.
    pose proof (split_on_nonempty sep p). by destruct (split_on sep p).
Qed.

(** The local name is the tag without its namespace prefix: what follows
    the last colon, or the whole tag when it has none. *)
Lemma extractLocalName_unprefixed t :
  free_of ":" t = true → extractLocalName t = Some t.
Proof. intros Hfree. unfold extractLocalName. by rewrite split_on_free. Qed.

Lemma extractLocalName_prefixed prefix name :
  free_of ":" name = true →
  extractLocalName (prefix +:+ String ":" name) = Some name.
Proof.
  intros Hfree. unfold extractLocalName.
  rewrite split_on_app, (split_on_free _ _ Hfree). apply last_snoc.
Qed.

(** ** The sort pass *)

Lemma filter_all {A} (P : A → Prop) `{∀ x, Decision (P x)} (l : list A) :
  Forall P l → filter P l = l.
Proof.
  induction 1 as [|x l Hx _ IH]; [done|]. by rewrite filter_cons_True, IH.
Qed.

Lemma filter_none {A} (P : A → Prop) `{∀ x, Decision (P x)} (l : list A) :
  Forall (λ x, ¬ P x) l → filter P l = [].
Proof.
  induction 1 as [|x l Hx _ IH]; [done|]. by rewrite filter_cons_False.
Qed.

Lemma children_fold_remove l c :
  _children (fold_left (λ parent elem, remove elem parent) l c)
  = filter (λ x, _id x ∉ _id <$> l) (_children c).
Proof.
  revert c. induction l as [|el l IH]; intros c; simpl.
  - symmetry. apply filter_all. apply Forall_forall. intros x _.
    apply not_elem_of_nil.
  - rewrite IH. simpl. rewrite list_filter_filter.
    apply list_filter_iff. intros x. rewrite not_elem_of_cons. tauto.
Qed.

Lemma fields_fold_remove l c :
  let c' := fold_left (λ parent elem, remove elem parent) l c in
  _id c' = _id c ∧ tag c' = tag c ∧ attrib c' = attrib c ∧ text c' = text c
  ∧ localName c' = localName c.
Proof.
  revert c. induction l as [|el l IH]; intros c; simpl; [done|].
  apply (IH (remove el c)).
Qed.

Lemma fold_append l c :
  fold_left (λ parent elem, append elem parent) l c
  = set_children (_children c ++ l) c.
Proof.
  revert c. induction l as [|el l IH]; intros c; simpl.
  - rewrite app_nil_r. by destruct c.
  - rewrite IH. unfold append, set_children. simpl. by rewrite <- app_assoc.
Qed.

(** The sort pass replaces the children by the sorted array of the
    children, each with its [localName]. *)
Lemma sort_children_eq engine c :
  sort_children engine c
  = set_children (Array_sort compare_localName engine
                             (with_localName <$> getchildren c)) c.
Proof.
  unfold sort_children. rewrite fold_append.
  set (emptied := fold_left _ (getchildren c) c).
  assert (Hempty : _children emptied = []).
  { subst emptied. rewrite children_fold_remove. unfold getchildren.
    apply filter_none. apply Forall_forall. intros x Hx Hnot.
    apply Hnot. by apply list_elem_of_fmap_2. }
  destruct (fields_fold_remove (getchildren c) c) as (H1 & H2 & H3 & H4 & H5).
  fold emptied in H1, H2, H3, H4, H5.
  rewrite Hempty. unfold set_children. simpl. by rewrite H1, H2, H3, H4, H5.
Qed.

Lemma tag_sort_children engine c : tag (sort_children engine c) = tag c.
Proof. by rewrite sort_children_eq. Qed.

Lemma StronglySorted_weaken {A} (R R' : A → A → Prop) (P : A → Prop) l :
  (∀ x y, P x → P y → R x y → R' x y) →
  Forall P l → StronglySorted R l → StronglySorted R' l.
Proof.
  intros Himpl HP Hsorted. induction Hsorted as [|x l Hl IH Hx]; [constructor|].
  apply Forall_cons in HP as [Px Pl]. constructor; [by apply IH|].
  rewrite Forall_forall in *. intros y Hy. apply Himpl; auto.
Qed.

Lemma children_sort_children_sorted engine c :
  StronglySorted ascending_localName (getchildren (sort_children engine c)).
Proof.
  rewrite sort_children_eq. unfold getchildren at 1. simpl.
  set (named := with_localName <$> getchildren c).
  assert (Hnamed : Forall (λ el, localName el = extractLocalName (tag el)) named).
  { subst named. apply Forall_fmap, Forall_forall. by intros x _. }
  assert (HD : Forall has_localName named).
  { eapply Forall_impl; [done|]. intros x Hx. unfold has_localName. rewrite Hx.
    apply extractLocalName_is_Some. }
  apply (StronglySorted_weaken localName_le _
           (λ el, localName el = extractLocalName (tag el))).
  - intros x y Hx Hy. unfold localName_le, ascending_localName.
    rewrite Hx, Hy.
    destruct (extractLocalName_is_Some (tag x)) as [lx ->].
    destruct (extractLocalName_is_Some (tag y)) as [ly ->]. simpl. eauto.
  - by rewrite Array_sort_Permutation.
  - apply (Array_sort_sorted compare_localName has_localName localName_le).
    + intros x y z. apply string_le_trans.
    + intros x y. apply string_le_total.
    + apply compare_localName_sign.
    + done.
Qed.

(** ** The three passes together *)

Lemma children_normalize_capabilities engine c :
  NoDup (_id <$> getchildren c) →
  getchildren (normalize_capabilities engine c)
  = Array_sort compare_localName engine
      (with_localName <$> keep_first [] (uap_prefixed <$> getchildren c)).
Proof.
  intros Hids. unfold normalize_capabilities. rewrite sort_children_eq.
  rewrite ensureUniqueCapabilities_keep_first.
  - done.
  - unfold ensureUapPrefixedCapabilities, getchildren. simpl.
    rewrite <- list_fmap_compose.
    erewrite list_fmap_ext; [done|]. intros i x _. simpl. apply _id_uap_prefixed.
Qed.

(** [writeToString] finds the Capabilities element three times, runs the
    three passes on it and serialises the document. *)
Lemma writeToString_run et_write engine this capabilities :
  capabilities_of this = Some capabilities →
  ∃ this',
    writeToString et_write engine this = (Normal (et_write (doc this') 4), this')
    ∧ capabilities_of this' = Some (normalize_capabilities engine capabilities)
    ∧ path this' = path this.
Proof.
  intros Hcaps.
  destruct (with_capabilities_run ensureUapPrefixedCapabilities this capabilities)
    as (this1 & Hrun1 & Hcaps1 & Hpath1); [done|done|].
  destruct (with_capabilities_run ensureUniqueCapabilities this1 _
              tag_ensureUniqueCapabilities Hcaps1)
    as (this2 & Hrun2 & Hcaps2 & Hpath2).
  destruct (with_capabilities_run (sort_children engine) this2 _
              (tag_sort_children engine) Hcaps2)
    as (this3 & Hrun3 & Hcaps3 & Hpath3).
  exists this3. unfold writeToString, sortCapabilities, bind.
  rewrite Hrun1, Hrun2, Hrun3. simpl. split; [done|]. split; [done|]. congruence.
Qed.

Lemma length_filter_fmap {A B} (f : A → B) (P : B → Prop) `{∀ x, Decision (P x)}
    (l : list A) :
  length (filter P (f <$> l)) = length (filter (λ x, P (f x)) l).
Proof.
  induction l as [|x l IH]; [done|].
  rewrite fmap_cons, !filter_cons. destruct (decide (P (f x))); simpl; by rewrite IH.
Qed.

(** ** The manifest without a Capabilities element *)

Lemma find_descendant_absent t e :
  Forall (λ d, tag d ≠ t) (iter e) → find_descendant t e = None.
Proof.
  induction e as [e IH] using Element_ind'. intros Habsent.
  rewrite find_descendant_unfold. apply scan_descendants_none.
  assert (Hiter : iter e = e :: flat_map iter (_children e)) by (by destruct e).
  rewrite Hiter in Habsent. apply Forall_cons in Habsent as [_ Habsent].
  rewrite Forall_forall in *. intros c Hc.
  assert (Hsub : ∀ d, d ∈ iter c → tag d ≠ t).
  { intros d Hd. apply Habsent. apply list_elem_of_In, in_flat_map.
    exists c. split; by apply list_elem_of_In. }
  split.
  - apply Hsub. destruct c. simpl. by left.
  - apply IH; [done|]. by apply Forall_forall.
Qed.

Lemma find_child_absent t e :
  Forall (λ d, tag d ≠ t) (iter e) → find_child t e = None.
Proof.
  intros Habsent. unfold find_child. rewrite find_child_from_none; [done|].
  assert (Hiter : iter e = e :: flat_map iter (_children e)) by (by destruct e).
  rewrite Hiter in Habsent. apply Forall_cons in Habsent as [_ Habsent].
  rewrite Forall_forall in *. intros c Hc. apply Habsent.
  apply list_elem_of_In, in_flat_map. exists c. split; [by apply list_elem_of_In|].
  destruct c. simpl. by left.
Qed.

(** ** Serialisation and the Capabilities section *)

(** C1. Whatever number of children of the Capabilities element declare a
    name, the document that [writeToString] serialises declares it once.
    The children are distinct objects, as the nodes of a tree are. *)
Theorem writeToString_one_declaration_per_name
    et_write engine this capabilities name :
  capabilities_of this = Some capabilities →
  NoDup (_id <$> getchildren capabilities) →
  declarations_of name capabilities ≠ [] →
  ∃ this' capabilities',
    writeToString et_write engine this = (Normal (et_write (doc this') 4), this')
    ∧ capabilities_of this' = Some capabilities'
    ∧ length (declarations_of name capabilities') = 1.
Proof.
  intros Hcaps Hids Hdeclared.
  destruct (writeToString_run et_write engine this capabilities Hcaps)
    as (this' & Hrun & Hcaps' & _).
  exists this', (normalize_capabilities engine capabilities).
  split; [done|]. split; [done|].
  unfold declarations_of. rewrite children_normalize_capabilities by done.
  rewrite Array_sort_Permutation, length_filter_fmap.
  apply (keep_first_once [] _ name); [apply not_elem_of_nil|].
  unfold declarations_of in Hdeclared.
  destruct (filter _ (getchildren capabilities)) as [|el l] eqn:Hfilter; [done|].
  assert (Hel : el ∈ filter (λ el, name_of el = Some name) (getchildren capabilities))
    by (rewrite Hfilter; by left).
  apply list_elem_of_filter in Hel as [Hname Hel].
  rewrite <- list_fmap_compose. apply list_elem_of_fmap.
  exists el. split; [|done]. simpl. by rewrite name_of_uap_prefixed.
Qed.

Lemma writeToString_one_declaration_per_name_witness :
  ∃ this' capabilities',
    writeToString no_text TimSort duplicated_manifest
    = (Normal (no_text (doc this') 4), this')
    ∧ capabilities_of this' = Some capabilities'
    ∧ length (declarations_of "enterpriseAuthentication" capabilities') = 1.
Proof.
  apply (writeToString_one_declaration_per_name no_text TimSort duplicated_manifest
           duplicated_capabilities "enterpriseAuthentication").
  - vm_compute. reflexivity.
  - apply (bool_decide_unpack _). vm_compute. exact I.
  - vm_compute. discriminate.
Defined.

(** C7. After the sort pass the children of the Capabilities element stand
    in ascending order of their local names, compared as strings code unit
    by code unit; the local name is the tag without its namespace prefix,
    what follows the last colon. The children are those of before, each
    with its [localName]. *)
Theorem sortCapabilities_ascending engine this capabilities :
  capabilities_of this = Some capabilities →
  (∃ this' capabilities',
     sortCapabilities engine this = (Normal tt, this')
     ∧ capabilities_of this' = Some capabilities'
     ∧ StronglySorted ascending_localName (getchildren capabilities')
     ∧ getchildren capabilities' ≡ₚ with_localName <$> getchildren capabilities)
  ∧ (∀ t, free_of ":" t = true → extractLocalName t = Some t)
  ∧ (∀ prefix name, free_of ":" name = true →
       extractLocalName (prefix +:+ String ":" name) = Some name).
Proof.
  intros Hcaps. split; [|split].
  - destruct (with_capabilities_run (sort_children engine) this capabilities
                (tag_sort_children engine) Hcaps) as (this' & Hrun & Hcaps' & _).
    exists this', (sort_children engine capabilities).
    split; [done|]. split; [done|]. split.
    + apply children_sort_children_sorted.
    + rewrite sort_children_eq. unfold getchildren at 1. simpl.
      apply Array_sort_Permutation.
  - apply extractLocalName_unprefixed.
  - apply extractLocalName_prefixed.
Qed.

Lemma sortCapabilities_ascending_witness :
  (∃ this' capabilities',
     sortCapabilities TimSort duplicated_manifest = (Normal tt, this')
     ∧ capabilities_of this' = Some capabilities'
     ∧ StronglySorted ascending_localName (getchildren capabilities')
     ∧ getchildren capabilities'
       ≡ₚ with_localName <$> getchildren duplicated_capabilities)
  ∧ (∀ t, free_of ":" t = true → extractLocalName t = Some t)
  ∧ (∀ prefix name, free_of ":" name = true →
       extractLocalName (prefix +:+ String ":" name) = Some name).
Proof.
  apply (sortCapabilities_ascending TimSort duplicated_manifest
           duplicated_capabilities).
  vm_compute. reflexivity.
Defined.

(** C8. On a document without a Capabilities element [writeToString], and
    with it [write], raises a TypeError, the first pass being handed
    [null]; [getCapabilities] returns the empty list. *)
Theorem writeToString_without_Capabilities et_write engine destPath this :
  Forall (λ el, tag el ≠ "Capabilities") (iter (root_of this)) →
  writeToString et_write engine this
  = (Throw (TypeError "Cannot read property getchildren of null"), this)
  ∧ write et_write engine destPath this
    = (Throw (TypeError "Cannot read property getchildren of null"), this)
  ∧ getCapabilities this = [].
Proof.
  intros Habsent.
  pose proof (find_descendant_absent _ _ Habsent) as Hnone.
  assert (Hto : writeToString et_write engine this
                = (Throw (TypeError "Cannot read property getchildren of null"), this)).
  { unfold writeToString, bind. by rewrite (with_capabilities_null _ _ Hnone). }
  split; [done|]. split.
  - unfold write, bind, get_state. by rewrite Hto.
  - unfold getCapabilities. by rewrite (find_child_absent _ _ Habsent).
Qed.

Lemma writeToString_without_Capabilities_witness :
  writeToString no_text TimSort bare_manifest
  = (Throw (TypeError "Cannot read property getchildren of null"), bare_manifest)
  ∧ write no_text TimSort None bare_manifest
    = (Throw (TypeError "Cannot read property getchildren of null"), bare_manifest)
  ∧ getCapabilities bare_manifest = [].
Proof.
  apply (writeToString_without_Capabilities no_text TimSort None bare_manifest).
  apply (bool_decide_unpack _). vm_compute. exact I.
Defined.

(** ** Running the passes again *)

Lemma fmap_fixed {A} (f : A → A) (l : list A) :
  Forall (λ x, f x = x) l → f <$> l = l.
Proof.
  intros Hfixed. rewrite <- (list_fmap_id l) at 2. by apply Forall_fmap_ext_1.
Qed.

(** X25. The prefix pass is idempotent: an element that it has prefixed
    is not prefixed again. *)
Lemma ensureUapPrefixedCapabilities_idempotent c :
  ensureUapPrefixedCapabilities (ensureUapPrefixedCapabilities c)
  = ensureUapPrefixedCapabilities c.
Proof.
  unfold ensureUapPrefixedCapabilities, getchildren, set_children. simpl.
  f_equal. apply fmap_fixed, Forall_fmap, Forall_forall. intros x _.
  apply uap_prefixed_idempotent.
Qed.

Lemma keep_first_sublist seen l : keep_first seen l `sublist_of` l.
Proof.
  revert seen. induction l as [|x l IH]; intros seen; simpl; [done|].
  destruct (bool_decide _); [by apply sublist_cons|by apply sublist_skip].
Qed.

Lemma keep_first_names seen l :
  NoDup (name_of <$> keep_first seen l)
  ∧ ∀ x, x ∈ keep_first seen l → name_of x ∉ seen.
Proof.
  revert seen. induction l as [|x l IH]; intros seen; simpl.
  - split; [constructor|]. by intros x ?%elem_of_nil.
  - destruct (bool_decide_reflect (name_of x ∈ seen)) as [Hin|Hout]; [apply IH|].
    destruct (IH (seen ++ [name_of x])) as [Hnodup Hfresh]. split.
    + rewrite fmap_cons. apply NoDup_cons. split; [|done].
      intros (y & Hy & Hyin)%list_elem_of_fmap. apply (Hfresh y Hyin).
      apply elem_of_app. right. rewrite Hy. by left.
    + intros y [->|Hy]%elem_of_cons; [done|].
      intros Hseen. apply (Hfresh y Hy). apply elem_of_app. by left.
Qed.

Lemma keep_first_fixed seen l :
  NoDup (name_of <$> l) → Forall (λ x, name_of x ∉ seen) l →
  keep_first seen l = l.
Proof.
  revert seen. induction l as [|x l IH]; intros seen; simpl; [done|].
  intros [Hx Hl]%NoDup_cons [Hfresh Hrest]%Forall_cons.
  rewrite bool_decide_eq_false_2 by done. f_equal. apply IH; [done|].
  rewrite Forall_forall in *. intros y Hy. rewrite elem_of_app, list_elem_of_singleton.
  intros [Hseen|Heq]; [by apply (Hrest y)|].
  apply Hx. rewrite <- Heq. by apply list_elem_of_fmap_2.
Qed.

(** X26. The duplicate elimination is idempotent, on an element whose
    children are distinct objects. *)
Lemma ensureUniqueCapabilities_idempotent c :
  NoDup (_id <$> getchildren c) →
  ensureUniqueCapabilities (ensureUniqueCapabilities c)
  = ensureUniqueCapabilities c.
Proof.
  intros Hids. rewrite (ensureUniqueCapabilities_keep_first c Hids).
  rewrite ensureUniqueCapabilities_keep_first.
  - unfold getchildren, set_children. simpl. f_equal.
    destruct (keep_first_names [] (_children c)) as [Hnodup _].
    apply keep_first_fixed; [done|]. apply Forall_forall. intros x _.
    apply not_elem_of_nil.
  - unfold getchildren. simpl.
    eapply sublist_NoDup; [exact Hids|]. apply fmap_sublist, keep_first_sublist.
Qed.

Lemma ensureUniqueCapabilities_idempotent_witness :
  ensureUniqueCapabilities (ensureUniqueCapabilities duplicated_capabilities)
  = ensureUniqueCapabilities duplicated_capabilities.
Proof.
  apply (ensureUniqueCapabilities_idempotent duplicated_capabilities).
  apply (bool_decide_unpack _). vm_compute. exact I.
Defined.

Lemma normalize_capabilities_eq engine c :
  NoDup (_id <$> getchildren c) →
  normalize_capabilities engine c
  = set_children (getchildren (normalize_capabilities engine c)) c.
Proof.
  intros Hids. unfold normalize_capabilities at 1. rewrite sort_children_eq.
  rewrite ensureUniqueCapabilities_keep_first.
  - rewrite children_normalize_capabilities by done. done.
  - unfold ensureUapPrefixedCapabilities, getchildren. simpl.
    rewrite <- list_fmap_compose.
    erewrite list_fmap_ext; [done|]. intros i x _. simpl. apply _id_uap_prefixed.
Qed.

(** X27. On the engine that sorts by straight insertion, a second run of the
    three passes changes nothing: the comparison function's answer for
    elements of the same local name is one that straight insertion takes
    for "in order". *)
Lemma normalize_capabilities_InsertionSort_idempotent c :
  NoDup (_id <$> getchildren c) →
  normalize_capabilities InsertionSort (normalize_capabilities InsertionSort c)
  = normalize_capabilities InsertionSort c.
Proof.
  intros Hids.
  set (kept := with_localName <$> keep_first [] (uap_prefixed <$> getchildren c)).
  pose proof (children_normalize_capabilities InsertionSort c Hids) as Hchildren.
  fold kept in Hchildren. simpl in Hchildren.
  set (r := getchildren (normalize_capabilities InsertionSort c)) in *.
  assert (Hperm : r ≡ₚ kept) by (rewrite Hchildren; apply insertion_sort_Permutation).
  assert (Hkept : Forall (λ x, uap_prefixed x = x ∧ with_localName x = x) kept).
  { subst kept. apply Forall_fmap, Forall_forall. intros x Hx. simpl.
    split; [|done].
    assert (Hx' : x ∈ uap_prefixed <$> getchildren c)
      by (eapply elem_of_sublist; [exact Hx|apply keep_first_sublist]).
    apply list_elem_of_fmap in Hx' as (y & -> & _).
    unfold uap_prefixed at 1.
    change (needs_uap_prefix (with_localName (uap_prefixed y)))
      with (needs_uap_prefix (uap_prefixed y)).
    by rewrite needs_uap_prefix_uap_prefixed. }
  assert (Hnames : NoDup (name_of <$> r)).
  { rewrite Hperm. subst kept. rewrite <- list_fmap_compose.
    apply (keep_first_names [] (uap_prefixed <$> getchildren c)). }
  assert (Hrids : NoDup (_id <$> r)).
  { rewrite Hperm. subst kept. rewrite <- list_fmap_compose.
    eapply sublist_NoDup; [|apply fmap_sublist, keep_first_sublist].
    rewrite <- list_fmap_compose.
    erewrite list_fmap_ext; [exact Hids|]. intros i x _. simpl.
    apply _id_uap_prefixed. }
  assert (Hr : Forall (λ x, uap_prefixed x = x ∧ with_localName x = x) r)
    by (by rewrite Hperm).
  assert (Hrun : getchildren (normalize_capabilities InsertionSort
                                (normalize_capabilities InsertionSort c)) = r).
  { rewrite children_normalize_capabilities by done. fold r. simpl.
    rewrite (fmap_fixed uap_prefixed r)
      by (eapply Forall_impl; [exact Hr|]; by intros x [? ?]).
    rewrite keep_first_fixed;
      [|done|apply Forall_forall; intros x _; apply not_elem_of_nil].
    rewrite (fmap_fixed with_localName r)
      by (eapply Forall_impl; [exact Hr|]; by intros x [? ?]).
    apply (insertion_sort_sorted_id compare_localName has_localName localName_le).
    - intros x y Hx Hy. apply compare_localName_sign; done.
    - eapply Forall_impl; [exact Hr|]. intros x [_ Hx]. unfold has_localName.
      rewrite <- Hx. simpl. apply extractLocalName_is_Some.
    - subst r. rewrite Hchildren.
      apply (insertion_sort_sorted compare_localName has_localName localName_le).
      + intros x y z. apply string_le_trans.
      + intros x y. apply string_le_total.
      + apply compare_localName_sign.
      + subst kept. apply Forall_fmap, Forall_forall. intros x _.
        unfold has_localName. simpl. apply extractLocalName_is_Some. }
  rewrite (normalize_capabilities_eq InsertionSort
             (normalize_capabilities InsertionSort c)) by done.
  rewrite Hrun. transitivity (set_children r c).
  - clear -Hids. clearbody r.
    by rewrite (normalize_capabilities_eq InsertionSort c Hids).
  - symmetry. apply (normalize_capabilities_eq InsertionSort c Hids).
Qed.

Lemma normalize_capabilities_InsertionSort_idempotent_witness :
  normalize_capabilities InsertionSort
    (normalize_capabilities InsertionSort duplicated_capabilities)
  = normalize_capabilities InsertionSort duplicated_capabilities.
Proof.
  apply (normalize_capabilities_InsertionSort_idempotent duplicated_capabilities).
  apply (bool_decide_unpack _). vm_compute. exact I.
Defined.

(** C2. On the engine that sorts with TimSort a second run of the three
    passes does not leave the tree as the first run made it: of two
    capabilities with the same local name the comparison function says
    that each comes before the other, and every run reverses them. *)
Theorem normalize_capabilities_twice_differs :
  _id <$> getchildren two_capabilities = [9; 10]
  ∧ _id <$> getchildren (normalize_capabilities TimSort two_capabilities)
    = [10; 9]
  ∧ _id <$> getchildren (normalize_capabilities TimSort
                           (normalize_capabilities TimSort two_capabilities))
    = [9; 10]
  ∧ normalize_capabilities TimSort
      (normalize_capabilities TimSort two_capabilities)
    ≠ normalize_capabilities TimSort two_capabilities.
Proof.
  split; [done|]. split; [by vm_compute|]. split; [by vm_compute|].
  intros Heq. apply (f_equal (λ c, _id <$> getchildren c)) in Heq.
  vm_compute in Heq. discriminate.
Qed.

(** ** The identity view: versions *)

Lemma append_cons c s1 s2 : String c s1 +:+ s2 = String c (s1 +:+ s2).
Proof. done. Qed.

Lemma append_nil_r s : s +:+ "" = s.
Proof. induction s as [|c s IH]; [done|]. by rewrite append_cons, IH. Qed.

Lemma append_assoc s1 s2 s3 : (s1 +:+ s2) +:+ s3 = s1 +:+ (s2 +:+ s3).
Proof. induction s1 as [|c s1 IH]; [done|]. by rewrite !append_cons, IH. Qed.

Lemma dot_digit_matches_skip c s :
  Ascii.eqb c "." = false → dot_digit_matches (String c s) = dot_digit_matches s.
Proof. intros Hc. simpl. rewrite Hc. by destruct s. Qed.

Lemma length_split_on_skip sep c s :
  Ascii.eqb c sep = false →
  length (split_on sep (String c s)) = length (split_on sep s).
Proof.
  intros Hc. simpl. rewrite Hc.
  pose proof (split_on_nonempty sep s). by destruct (split_on sep s).
Qed.

Lemma is_digit_not_dot d : is_digit d = true → Ascii.eqb d "." = false.
Proof.
  intros Hd. destruct (Ascii.eqb_spec d ".") as [->|]; [|done].
  by vm_compute in Hd.
Qed.

(** When every dot is followed by a digit, the regular expression matches
    once per dot: one time less than there are components. *)
Lemma dot_digit_matches_components s :
  dots_before_digits s = true →
  length (dot_digit_matches s) + 1 = length (components s).
Proof.
  unfold components. induction s as [|c s IH]; [done|].
  intros Hdots. simpl in Hdots. apply andb_prop in Hdots as [Hhere Hrest].
  destruct (Ascii.eqb c ".") eqn:Hc.
  - destruct s as [|d s]; [done|].
    change (dot_digit_matches (String c (String d s)))
      with (if Ascii.eqb c "." && is_digit d
            then String c (String d EmptyString) :: dot_digit_matches s
            else dot_digit_matches (String d s)).
    rewrite Hc, Hhere. simpl andb. cbv iota.
    change (split_on "." (String c (String d s)))
      with (if Ascii.eqb c "." then EmptyString :: split_on "." (String d s)
            else match split_on "." (String d s) with
                 | [] => [String c EmptyString]
                 | piece :: pieces => String c piece :: pieces
                 end).
    rewrite Hc. cbv iota. specialize (IH Hrest).
    rewrite (dot_digit_matches_skip d s (is_digit_not_dot d Hhere)) in IH.
    rewrite !length_cons. lia.
  - rewrite (dot_digit_matches_skip c s Hc), (length_split_on_skip "." c s Hc).
    by apply IH.
Qed.

Lemma pad_version_appends n version :
  2 ≤ n → pad_version 4 n version = version +:+ zero_components (4 - n).
Proof.
  intros Hn. destruct n as [|[|[|[|[|n]]]]]; try lia; simpl.
  - by rewrite append_assoc.
  - done.
  - by rewrite append_nil_r.
  - by rewrite append_nil_r.
Qed.

Lemma length_split_zero_components k :
  length (split_on "." ("0" +:+ zero_components k)) = S k.
Proof.
  induction k as [|k IH]; [done|].
  change ("0" +:+ zero_components (S k))
    with (String "0" (String "." ("0" +:+ zero_components k))).
  rewrite length_split_on_skip by done.
  change (split_on "." (String "." ?s)) with (EmptyString :: split_on "." s).
  by rewrite length_cons, IH.
Qed.

Lemma components_padded version k :
  length (components (version +:+ zero_components k))
  = length (components version) + k.
Proof.
  unfold components. destruct k as [|k].
  - simpl. rewrite append_nil_r. lia.
  - change (zero_components (S k)) with (String "." ("0" +:+ zero_components k)).
    rewrite split_on_app, length_app, length_split_zero_components. done.
Qed.

Lemma getIdentity_node this identity :
  getIdentity this = (Normal identity, this) →
  ∃ el, node_at identity (root_of this) = Some el ∧ tag el = "Identity".
Proof.
  unfold getIdentity.
  destruct (find_child "Identity" (root_of this)) as [h|] eqn:Hfind; [|done].
  intros [= <-]. destruct (find_child_node _ _ _ Hfind) as (i & c & -> & Hc & Htag).
  simpl. rewrite Hc. simpl. eauto.
Qed.

(** What a setter that stores an attribute leaves behind. *)
Lemma set_attribute_stored h name value this el :
  node_at h (root_of this) = Some el →
  (el' ← node_at h (root_of (on_root (modify_at (set_attribute name value) h) this));
   attrib el' !! name) = Some value.
Proof.
  intros Hnode. rewrite root_of_on_root.
  rewrite (node_at_modify_at _ _ _ _ Hnode). simpl. apply lookup_insert_eq.
Qed.

Lemma setVersion_stores identity version this el :
  node_at identity (root_of this) = Some el →
  truthy (Some version) = true →
  ∃ this', setVersion identity (Some version) this = (Normal This, this')
           ∧ getVersion identity this' = Some (adjust_version version).
Proof.
  intros Hnode Htruthy. unfold setVersion. rewrite Htruthy.
  eexists. split; [reflexivity|]. unfold getVersion.
  by apply (set_attribute_stored _ _ _ _ el).
Qed.

Lemma truthy_nonempty version :
  version ≠ "" → truthy (Some version) = true.
Proof. intros Hne. simpl. by destruct (String.eqb_spec version ""). Qed.

(** C3, as the code has it. Of a version with two or three components, in
    which a digit follows every dot, the setter stores the version padded
    with [".0"] to four components; ["1.2"] is stored as ["1.2.0.0"]. A
    version without a dot, a single component, is stored as it is. *)
Theorem setVersion_pads_to_four_components this identity :
  getIdentity this = (Normal identity, this) →
  (∀ version,
     dots_before_digits version = true →
     2 ≤ length (components version) ≤ 3 →
     ∃ this' stored,
       setVersion identity (Some version) this = (Normal This, this')
       ∧ getVersion identity this' = Some stored
       ∧ stored = version +:+ zero_components (4 - length (components version))
       ∧ length (components stored) = 4)
  ∧ (∃ this', setVersion identity (Some "1.2") this = (Normal This, this')
              ∧ getVersion identity this' = Some "1.2.0.0")
  ∧ (∀ version,
       version ≠ "" → free_of "." version = true →
       ∃ this', setVersion identity (Some version) this = (Normal This, this')
                ∧ getVersion identity this' = Some version).
Proof.
  intros Hidentity. destruct (getIdentity_node _ _ Hidentity) as (el & Hnode & _).
  split; [|split].
  - intros version Hdots Hcomponents.
    assert (Hne : version ≠ "") by (intros ->; simpl in Hcomponents; lia).
    destruct (setVersion_stores identity version this el Hnode
                (truthy_nonempty _ Hne)) as (this' & Hrun & Hstored).
    pose proof (dot_digit_matches_components version Hdots) as Hmatches.
    exists this', (adjust_version version). split; [done|]. split; [done|].
    assert (Hadjust : adjust_version version
              = version +:+ zero_components (4 - length (components version))).
    { unfold adjust_version, match_dot_digit.
      destruct (dot_digit_matches version) as [|m ms] eqn:Hms;
        [simpl in Hmatches; lia|].
      rewrite pad_version_appends by (simpl; lia).
      by rewrite Hmatches. }
    split; [done|]. rewrite Hadjust, components_padded. lia.
  - apply (setVersion_stores identity "1.2" this el Hnode eq_refl).
  - intros version Hne Hfree.
    destruct (setVersion_stores identity version this el Hnode
                (truthy_nonempty _ Hne)) as (this' & Hrun & Hstored).
    exists this'. split; [done|]. rewrite Hstored. f_equal.
    unfold adjust_version, match_dot_digit.
    assert (dot_digit_matches version = []) as ->; [|done].
    clear -Hfree. induction version as [|c s IH]; [done|].
    simpl in Hfree. apply andb_prop in Hfree as [Hc Hs].
    rewrite dot_digit_matches_skip; [by apply IH|].
    by destruct (Ascii.eqb c ".").
Qed.

Lemma setVersion_pads_to_four_components_witness :
  (∀ version,
     dots_before_digits version = true →
     2 ≤ length (components version) ≤ 3 →
     ∃ this' stored,
       setVersion [0] (Some version) sample_manifest = (Normal This, this')
       ∧ getVersion [0] this' = Some stored
       ∧ stored = version +:+ zero_components (4 - length (components version))
       ∧ length (components stored) = 4)
  ∧ (∃ this', setVersion [0] (Some "1.2") sample_manifest = (Normal This, this')
              ∧ getVersion [0] this' = Some "1.2.0.0")
  ∧ (∀ version,
       version ≠ "" → free_of "." version = true →
       ∃ this', setVersion [0] (Some version) sample_manifest = (Normal This, this')
                ∧ getVersion [0] this' = Some version).
Proof.
  apply (setVersion_pads_to_four_components sample_manifest [0]).
  vm_compute. reflexivity.
Defined.

(** C3, as it is written, fails on a version of one component: ["1"] is
    stored as ["1"]. *)
Lemma setVersion_single_component_unpadded :
  "1" ≠ ""
  ∧ length (components "1") = 1
  ∧ getIdentity sample_manifest = (Normal [0], sample_manifest)
  ∧ ∃ this', setVersion [0] (Some "1") sample_manifest = (Normal This, this')
             ∧ getVersion [0] this' = Some "1"
             ∧ length (components "1") ≠ 4.
Proof.
  split; [done|]. split; [done|]. split; [by vm_compute|].
  eexists. split; [reflexivity|]. split; [by vm_compute|]. by vm_compute.
Qed.

(** ** The application view: the start page *)

Lemma getApplication_node this application :
  getApplication this = (Normal application, this) →
  ∃ el, node_at application (root_of this) = Some el ∧ tag el = "Application".
Proof.
  unfold getApplication, find_grandchild.
  destruct (find_grandchild_from _ _ 0 _) as [h|] eqn:Hfind; [|done].
  intros [= <-].
  destruct (find_grandchild_from_node _ _ _ _ _ Hfind)
    as (k & j & c & g & -> & Hc & Hg & _ & Htag).
  simpl. rewrite Hc. simpl. rewrite Hg. simpl. eauto.
Qed.

(** C10. Given an empty or undefined page, the start-page setter raises
    nothing: it stores ['www/index.html'] and returns the view. *)
Theorem setStartPage_defaults this application page :
  getApplication this = (Normal application, this) →
  truthy page = false →
  ∃ this', setStartPage application page this = (Normal This, this')
           ∧ getStartPage application this' = Some "www/index.html".
Proof.
  intros Happlication Hpage.
  destruct (getApplication_node _ _ Happlication) as (el & Hnode & _).
  unfold setStartPage. rewrite Hpage. eexists. split; [reflexivity|].
  unfold getStartPage. by apply (set_attribute_stored _ _ _ _ el).
Qed.

Lemma setStartPage_defaults_witness :
  ∃ this', setStartPage [4; 0] None sample_manifest = (Normal This, this')
           ∧ getStartPage [4; 0] this' = Some "www/index.html".
Proof.
  apply (setStartPage_defaults sample_manifest [4; 0] None).
  - vm_compute. reflexivity.
  - reflexivity.
Defined.

(** ** The Dependencies section *)

Lemma fold_append_family h l this element_ids el :
  node_at h (root_of this) = Some el →
  ∃ this' el',
    fold_left (append_family h) l (this, element_ids)
    = (this', element_ids + length l)
    ∧ node_at h (root_of this') = Some el'
    ∧ _children el'
      = _children el
        ++ imap (λ i info, mkElement (element_ids + i) "TargetDeviceFamily"
                                     info None [] None) l.
Proof.
  revert this element_ids el. induction l as [|info l IH];
    intros this element_ids el Hnode; simpl.
  - exists this, el. rewrite Nat.add_0_r, app_nil_r. done.
  - set (family := mkElement element_ids "TargetDeviceFamily" info None [] None).
    destruct (IH (on_root (modify_at (append family) h) this) (S element_ids)
                 (append family el)) as (this' & el' & Hfold & Hnode' & Hchildren).
    { rewrite root_of_on_root. by apply node_at_modify_at. }
    exists this', el'. split; [|split; [done|]].
    + rewrite Hfold. f_equal. lia.
    + rewrite Hchildren. simpl. rewrite <- app_assoc. simpl.
      rewrite Nat.add_0_r. do 2 f_equal. apply imap_ext. intros i x _. simpl.
      f_equal. lia.
Qed.

(** X28. With dependencies, an existing Dependencies element is emptied
    and gets one TargetDeviceFamily child per entry, with the entry for
    its attributes; nothing is returned. *)
Lemma setDependencies_appends this element_ids l h el :
  find_child "Dependencies" (root_of this) = Some h →
  node_at h (root_of this) = Some el →
  l ≠ [] →
  ∃ this' el',
    setDependencies (Some l) (this, element_ids)
    = (Normal Undefined, (this', element_ids + length l))
    ∧ node_at h (root_of this') = Some el'
    ∧ _children el'
      = imap (λ i info, mkElement (element_ids + i) "TargetDeviceFamily"
                                  info None [] None) l.
Proof.
  intros Hfind Hnode Hl. unfold setDependencies. rewrite Hfind.
  assert (no_dependencies (Some l) = false) as -> by (by destruct l).
  rewrite Hnode. unfold len.
  destruct (Nat.ltb_spec 0 (length (_children el))) as [Hsome|Hnone].
  - destruct (fold_append_family h l (on_root (modify_at clear h) this)
                                 element_ids (clear el))
      as (this' & el' & Hfold & Hnode' & Hchildren).
    { rewrite root_of_on_root. by apply node_at_modify_at. }
    exists this', el'. by rewrite Hfold.
  - destruct (fold_append_family h l this element_ids el Hnode)
      as (this' & el' & Hfold & Hnode' & Hchildren).
    exists this', el'. rewrite Hfold. split; [done|]. split; [done|].
    rewrite Hchildren. by destruct (_children el); [|simpl in Hnone; lia].
Qed.

Lemma setDependencies_appends_witness :
  ∃ this' el',
    setDependencies (Some [{["Name" := "Windows.Universal"]}; {["Name" := "Windows.Mobile"]}])
      (sample_manifest, 12)
    = (Normal Undefined,
       (this', 12 + length [({["Name" := "Windows.Universal"]} : gmap string string);
                            {["Name" := "Windows.Mobile"]}]))
    ∧ node_at [3] (root_of this') = Some el'
    ∧ _children el'
      = imap (λ i info, mkElement (12 + i) "TargetDeviceFamily" info None [] None)
             [({["Name" := "Windows.Universal"]} : gmap string string);
              {["Name" := "Windows.Mobile"]}].
Proof.
  apply (setDependencies_appends sample_manifest 12
           [{["Name" := "Windows.Universal"]}; {["Name" := "Windows.Mobile"]}] [3]
           (element 4 "Dependencies" []
              [element 5 "TargetDeviceFamily" [("Name", "Windows.Universal")] []])).
  - reflexivity.
  - reflexivity.
  - discriminate.
Defined.

(** C9. A call with no or an empty list on a manifest that has a
    Dependencies element, and any call on a manifest that has none, ends
    in a TypeError: [this.doc] is the tree object, which has no [remove]
    and no [append]. Nothing is removed, nothing is appended, and the
    manifest is not returned. *)
Theorem setDependencies_not_a_function this element_ids dependencies :
  no_dependencies dependencies = true
  ∨ find_child "Dependencies" (root_of this) = None →
  ∃ message element_ids',
    setDependencies dependencies (this, element_ids)
    = (Throw (TypeError message), (this, element_ids')).
Proof.
  intros Hcase. unfold setDependencies.
  destruct (find_child "Dependencies" (root_of this)) as [h|] eqn:Hfind.
  - destruct Hcase as [Hnone|?]; [|done]. rewrite Hnone. by eexists _, _.
  - cbn [new_Element]. by eexists _, _.
Qed.

Lemma setDependencies_not_a_function_witness :
  ∃ message element_ids',
    setDependencies (Some []) (sample_manifest, 12)
    = (Throw (TypeError message), (sample_manifest, element_ids')).
Proof.
  apply (setDependencies_not_a_function sample_manifest 12 (Some [])).
  left. reflexivity.
Defined.

(** ** Demultiplexing *)

Lemma fold_retarget changes built :
  fold_left (λ changes change,
               if negb (targets_generic change) then changes ++ [change]
               else changes ++ [demuxChangeWithSubsts change])
            changes built
  = built ++ (retarget <$> changes).
Proof.
  revert built. induction changes as [|c changes IH]; intros built; simpl.
  - by rewrite app_nil_r.
  - rewrite IH. unfold retarget. destruct (targets_generic c); simpl;
      by rewrite <- app_assoc.
Qed.

Lemma retarget_others changes :
  existsb targets_generic changes = false → retarget <$> changes = changes.
Proof.
  induction changes as [|c changes IH]; [done|].
  intros Hany. simpl in Hany. apply orb_false_elim in Hany as [Hc Hrest].
  rewrite fmap_cons, IH by done. unfold retarget. by rewrite Hc.
Qed.

(** C5. When no change targets the generic manifest, [processChanges]
    returns the array it was given. Otherwise it builds an array in which,
    position by position, a change with the generic target is replaced by
    one with the concrete target and the same other fields, and every
    other change stands as it was. *)
Theorem processChanges_retargets changes :
  processChanges changes
  = (if existsb targets_generic changes then Built (retarget <$> changes)
     else Argument)
  ∧ items_of changes (processChanges changes) = retarget <$> changes
  ∧ ∀ change,
      targets_generic change = bool_decide (target change = "package.appxmanifest")
      ∧ retarget change
        = if targets_generic change
          then mkChange "package.windows10.appxmanifest" (parent change)
                        (after change) (xmls change) (versions change)
                        (deviceTarget change)
          else change.
Proof.
  assert (Hrun : processChanges changes
                 = if existsb targets_generic changes
                   then Built (retarget <$> changes) else Argument).
  { unfold processChanges. destruct (existsb targets_generic changes); [|done].
    simpl. by rewrite fold_retarget. }
  split; [done|]. split.
  - rewrite Hrun. destruct (existsb targets_generic changes) eqn:Hany; [done|].
    simpl. symmetry. by apply retarget_others.
  - intros change. split; [|done]. unfold targets_generic, GENERIC_MANIFEST.
    destruct (String.eqb_spec (target change) "package.appxmanifest");
      [by rewrite bool_decide_eq_true_2|by rewrite bool_decide_eq_false_2].
Qed.

(** ** The manifest cache *)

Lemma cache_member_own cache fileName instance :
  cache !! fileName = Some instance →
  cache_member cache fileName = Some (Manifest instance).
Proof. intros Hown. unfold cache_member. by rewrite Hown. Qed.

Lemma cache_member_Manifest cache fileName instance :
  cache_member cache fileName = Some (Manifest instance) →
  cache !! fileName = Some instance.
Proof.
  unfold cache_member. destruct (cache !! fileName) as [own|]; [by intros [= ->]|].
  by destruct (bool_decide _).
Qed.

Lemma cache_member_None cache fileName :
  cache_member cache fileName = None
  ↔ cache !! fileName = None ∧ fileName ∉ Object_prototype_keys.
Proof.
  unfold cache_member. destruct (cache !! fileName) as [own|].
  - split; [done|by intros [? _]].
  - destruct (decide (fileName ∈ Object_prototype_keys)) as [Hin|Hout].
    + rewrite bool_decide_eq_true_2 by done. split; [done|by intros [_ ?]].
    + by rewrite bool_decide_eq_false_2.
Qed.

Lemma cache_member_inherited cache fileName :
  cache !! fileName = None → fileName ∈ Object_prototype_keys →
  cache_member cache fileName = Some (Inherited fileName).
Proof.
  intros Hown Hin. unfold cache_member. by rewrite Hown, bool_decide_eq_true_2.
Qed.

Lemma get_cached fileName p cached :
  cache_member (manifestCache p) fileName = Some cached →
  get fileName false p = (Normal cached, p).
Proof. intros Hhit. unfold get, bind, get_state. by rewrite Hhit. Qed.

(** A call that does not end at the cache parses the file, checks its root
    and creates an instance, for which it parses the file again. *)
Lemma get_uncached fileName (ignoreCache : bool) p :
  (if ignoreCache then @None Value else cache_member (manifestCache p) fileName)
  = None →
  get fileName ignoreCache p
  = match files p !! fileName with
    | None =>
        (@Throw Value (Error ("Cannot read " +:+ fileName)), logged [fileName] p)
    | Some tree =>
        if bool_decide ("xmlns:uap" ∈ Object_keys (attrib (_root tree))) then
          if String.eqb (tag (_root tree)) "Package" then
            (Normal (Manifest (length (instances p))),
             mkProcess (if ignoreCache then manifestCache p
                        else <[fileName := length (instances p)]> (manifestCache p))
                       (instances p ++ [mkAppxManifest fileName tree true])
                       (files p) (parsed p ++ [fileName; fileName]))
          else
            (Throw (Error (fileName +:+ " has incorrect root node name (expected "
                           +:+ dquote +:+ "Package" +:+ dquote +:+ ")")),
             logged [fileName; fileName] p)
        else (Throw (Thrown "Windows 10 is only supported"), logged [fileName] p)
    end.
Proof.
  intros Hmiss. unfold get, bind, get_state. rewrite Hmiss.
  unfold parseElementtreeSync at 1. simpl.
  destruct (files p !! fileName) as [tree|] eqn:Hfile; [|done].
  destruct (bool_decide _); simpl; [|done].
  unfold new_AppxManifest, bind, parseElementtreeSync. simpl. rewrite Hfile.
  unfold logged. destruct (String.eqb (tag (_root tree)) "Package"); simpl.
  - destruct ignoreCache; simpl; by rewrite <- app_assoc.
  - unfold throw. by rewrite <- app_assoc.
Qed.

Lemma Object_keys_includes (o : gmap string string) key :
  key ∈ Object_keys o ↔ is_Some (o !! key).
Proof.
  unfold Object_keys. rewrite list_elem_of_fmap. split.
  - intros ([k v] & -> & Hin). apply elem_of_map_to_list in Hin. eauto.
  - intros [v Hv]. exists (key, v). split; [done|]. by apply elem_of_map_to_list.
Qed.

(** C6. A call of [get] that is not answered by the cache (the cache is
    ignored, or the lookup [manifestCache[fileName]] gives [undefined]), on
    a file whose root does not carry the attribute [xmlns:uap], throws
    ['Windows 10 is only supported']: no instance is created and none is
    cached. *)
Theorem get_without_uap_namespace p fileName (ignoreCache : bool) tree :
  files p !! fileName = Some tree →
  attrib (_root tree) !! "xmlns:uap" = None →
  (if ignoreCache then @None Value else cache_member (manifestCache p) fileName)
  = None →
  get fileName ignoreCache p
  = (Throw (Thrown "Windows 10 is only supported"), logged [fileName] p)
  ∧ instances (logged [fileName] p) = instances p
  ∧ manifestCache (logged [fileName] p) = manifestCache p.
Proof.
  intros Hfile Habsent Hmiss. split; [|done].
  rewrite (get_uncached _ _ _ Hmiss), Hfile.
  rewrite bool_decide_eq_false_2; [done|].
  rewrite Object_keys_includes, Habsent. by intros [? ?].
Qed.

Lemma get_without_uap_namespace_witness :
  let p := loaded {["/no/prefixed" := mkElementTree (element 0 "Package" [] [])]} in
  get "/no/prefixed" false p
  = (Throw (Thrown "Windows 10 is only supported"), logged ["/no/prefixed"] p)
  ∧ instances (logged ["/no/prefixed"] p) = instances p
  ∧ manifestCache (logged ["/no/prefixed"] p) = manifestCache p.
Proof.
  apply (get_without_uap_namespace
           (loaded {["/no/prefixed" := mkElementTree (element 0 "Package" [] [])]})
           "/no/prefixed" false (mkElementTree (element 0 "Package" [] []))).
  - vm_compute. reflexivity.
  - vm_compute. reflexivity.
  - vm_compute. reflexivity.
Defined.

(** What a call of [get] does to the cache and to the instances. *)
Lemma get_cases fileName (ignoreCache : bool) p r p' :
  get fileName ignoreCache p = (r, p') →
  (ignoreCache = false ∧ p' = p
   ∧ ∃ cached, cache_member (manifestCache p) fileName = Some cached
               ∧ r = Normal cached)
  ∨ (manifestCache p' = manifestCache p ∧ instances p' = instances p
     ∧ ∃ e, r = Throw e)
  ∨ (r = Normal (Manifest (length (instances p)))
     ∧ length (instances p') = S (length (instances p))
     ∧ manifestCache p'
       = (if ignoreCache then manifestCache p
          else <[fileName := length (instances p)]> (manifestCache p))
     ∧ (ignoreCache = false → cache_member (manifestCache p) fileName = None)).
Proof.
  destruct (if ignoreCache then @None Value
            else cache_member (manifestCache p) fileName)
    as [cached|] eqn:Hlookup.
  - destruct ignoreCache; [done|]. rewrite (get_cached _ _ _ Hlookup).
    intros [= <- <-]. left. eauto.
  - rewrite (get_uncached _ _ _ Hlookup).
    destruct (files p !! fileName) as [tree|]; [|intros [= <- <-]; right; left; eauto].
    destruct (bool_decide _); [|intros [= <- <-]; right; left; eauto].
    destruct (String.eqb _ _); [|intros [= <- <-]; right; left; eauto].
    intros [= <- <-]. right. right. simpl. rewrite length_app. simpl.
    split; [done|]. split; [lia|]. split; [done|]. by intros ->.
Qed.

Lemma lookup_fold_delete (keys : list string) (cache : gmap string nat) key instance :
  fold_left (λ cache key, delete key cache) keys cache !! key = Some instance →
  cache !! key = Some instance.
Proof.
  revert cache. induction keys as [|k keys IH]; intros cache; simpl; [done|].
  intros Hlookup. apply IH in Hlookup.
  destruct (decide (k = key)) as [->|Hne].
  - by rewrite lookup_delete_eq in Hlookup.
  - by rewrite lookup_delete_ne in Hlookup.
Qed.

Lemma purgeCache_cases cacheKeys p :
  instances (purgeCache cacheKeys p).2 = instances p
  ∧ parsed (purgeCache cacheKeys p).2 = parsed p
  ∧ ∀ key instance,
      manifestCache (purgeCache cacheKeys p).2 !! key = Some instance →
      manifestCache p !! key = Some instance.
Proof.
  unfold purgeCache. destruct (no_cache_keys cacheKeys); simpl.
  - split; [done|]. split; [done|]. intros key instance. by rewrite lookup_empty.
  - split; [done|]. split; [done|]. intros key instance. apply lookup_fold_delete.
Qed.

(** An instance that is not in the cache is not returned by any later
    call, and does not get into the cache. *)
Lemma call_uncached instance c p r p' :
  uncached instance p → call c p = (r, p') →
  uncached instance p' ∧ r ≠ Some (Normal (Manifest instance)).
Proof.
  intros [Hexists Hout]. destruct c as [fileName ignoreCache|cacheKeys|file content];
    simpl.
  - destruct (get fileName ignoreCache p) as [r' p''] eqn:Hget.
    intros [= <- <-].
    destruct (get_cases _ _ _ _ _ Hget)
      as [(_ & -> & c & Hc & ->)|[(Hcache & Hinst & e & ->)
                                  |(-> & Hlen & Hcache & _)]].
    + split; [done|]. intros [= ->]. apply cache_member_Manifest in Hc.
      by apply (Hout fileName).
    + split; [|done]. split; [by rewrite Hinst|]. by rewrite Hcache.
    + split; [|intros [= Heq]; lia]. split; [lia|]. rewrite Hcache.
      destruct ignoreCache; [done|]. intros key.
      destruct (decide (fileName = key)) as [->|Hne].
      * rewrite lookup_insert_eq. intros [= Heq]. lia.
      * by rewrite lookup_insert_ne.
  - intros [= <- <-].
    destruct (purgeCache_cases cacheKeys p) as (Hinst & _ & Hcache).
    split; [|done]. split; [by rewrite Hinst|].
    intros key Hkey. by apply (Hout key), Hcache.
  - intros [= <- <-]. by split.
Qed.

Lemma calls_uncached instance cs p rs p' :
  uncached instance p → calls cs p = (rs, p') →
  uncached instance p' ∧ Some (Normal (Manifest instance)) ∉ rs.
Proof.
  revert p rs. induction cs as [|c cs IH]; intros p rs Hun; simpl.
  - intros [= <- <-]. split; [done|]. apply not_elem_of_nil.
  - destruct (call c p) as [r p1] eqn:Hcall.
    destruct (calls cs p1) as [rs' p2] eqn:Hcalls.
    intros [= <- <-].
    destruct (call_uncached _ _ _ _ _ Hun Hcall) as [Hun1 Hr].
    destruct (IH _ _ Hun1 Hcalls) as [Hun2 Hrs].
    split; [done|]. rewrite not_elem_of_cons. split; [congruence|done].
Qed.

(** The references that calls hand out are to instances that exist. *)
Lemma call_bounded c p r p' :
  cache_bounded p → call c p = (r, p') →
  cache_bounded p'
  ∧ length (instances p) ≤ length (instances p')
  ∧ ∀ instance, r = Some (Normal (Manifest instance)) →
                instance < length (instances p').
Proof.
  intros Hbound. destruct c as [fileName ignoreCache|cacheKeys|file content]; simpl.
  - destruct (get fileName ignoreCache p) as [r' p''] eqn:Hget.
    intros [= <- <-].
    destruct (get_cases _ _ _ _ _ Hget)
      as [(_ & -> & c & Hc & ->)|[(Hcache & Hinst & e & ->)
                                  |(-> & Hlen & Hcache & _)]].
    + split; [done|]. split; [done|]. intros instance [= ->].
      apply cache_member_Manifest in Hc. by eapply Hbound.
    + split; [|split; [by rewrite Hinst|done]].
      intros key instance. rewrite Hcache, Hinst. apply Hbound.
    + split; [|split; [lia|intros instance [= <-]; lia]].
      intros key instance. rewrite Hcache, Hlen.
      destruct ignoreCache.
      * intros Hkey. specialize (Hbound _ _ Hkey). lia.
      * destruct (decide (fileName = key)) as [->|Hne].
        -- rewrite lookup_insert_eq. intros [= <-]. lia.
        -- rewrite lookup_insert_ne by done. intros Hkey.
           specialize (Hbound _ _ Hkey). lia.
  - intros [= <- <-].
    destruct (purgeCache_cases cacheKeys p) as (Hinst & _ & Hcache).
    split; [|split; [by rewrite Hinst|done]].
    intros key instance Hkey. rewrite Hinst. by apply (Hbound key), Hcache.
  - intros [= <- <-]. by split.
Qed.

Lemma calls_bounded cs p rs p' :
  cache_bounded p → calls cs p = (rs, p') →
  cache_bounded p'
  ∧ length (instances p) ≤ length (instances p')
  ∧ ∀ instance, Some (Normal (Manifest instance)) ∈ rs →
                instance < length (instances p').
Proof.
  revert p rs. induction cs as [|c cs IH]; intros p rs Hbound; simpl.
  - intros [= <- <-]. split; [done|]. split; [done|]. by intros ? ?%elem_of_nil.
  - destruct (call c p) as [r p1] eqn:Hcall.
    destruct (calls cs p1) as [rs' p2] eqn:Hcalls.
    intros [= <- <-].
    destruct (call_bounded _ _ _ _ Hbound Hcall) as (Hbound1 & Hlen1 & Hr).
    destruct (IH _ _ Hbound1 Hcalls) as (Hbound2 & Hlen2 & Hrs).
    split; [done|]. split; [lia|].
    intros instance [Heq|Hin]%elem_of_cons.
    + specialize (Hr instance (eq_sym Heq)). lia.
    + by apply Hrs.
Qed.

Lemma loaded_bounded disk : cache_bounded (loaded disk).
Proof. intros key instance. unfold loaded. simpl. by rewrite lookup_empty. Qed.

(** The cache never has a property of its own under a name that it
    inherits a member for: [get] stores an instance only under a name
    whose lookup gave [undefined]. *)
Lemma call_own_keys c p r p' :
  (∀ key, key ∈ Object_prototype_keys → manifestCache p !! key = None) →
  call c p = (r, p') →
  ∀ key, key ∈ Object_prototype_keys → manifestCache p' !! key = None.
Proof.
  intros Hown. destruct c as [fileName ignoreCache|cacheKeys|file content]; simpl.
  - destruct (get fileName ignoreCache p) as [r' p''] eqn:Hget.
    intros [= <- <-] key Hkey.
    destruct (get_cases _ _ _ _ _ Hget)
      as [(_ & -> & _)|[(Hcache & _)|(_ & _ & Hcache & Hmiss)]].
    + by apply Hown.
    + rewrite Hcache. by apply Hown.
    + rewrite Hcache. destruct ignoreCache; [by apply Hown|].
      apply cache_member_None in Hmiss as [_ Hout]; [|done].
      rewrite lookup_insert_ne; [by apply Hown|]. by intros ->.
  - intros [= <- <-] key Hkey.
    destruct (manifestCache (purgeCache cacheKeys p).2 !! key) as [instance|] eqn:Hhit;
      [|done].
    apply purgeCache_cases in Hhit. by rewrite Hown in Hhit.
  - intros [= <- <-]. exact Hown.
Qed.

Lemma calls_own_keys cs p rs p' :
  (∀ key, key ∈ Object_prototype_keys → manifestCache p !! key = None) →
  calls cs p = (rs, p') →
  ∀ key, key ∈ Object_prototype_keys → manifestCache p' !! key = None.
Proof.
  revert p rs. induction cs as [|c cs IH]; intros p rs Hown; simpl.
  - by intros [= <- <-].
  - destruct (call c p) as [r p1] eqn:Hcall.
    destruct (calls cs p1) as [rs' p2] eqn:Hcalls.
    intros [= <- <-]. eapply IH; [|exact Hcalls].
    by eapply call_own_keys.
Qed.

(** What holds of the cache for every path: at any point of a run of the
    module, a [get] that returns returns the same again when repeated; a
    [get] that ignores the cache returns an instance that it does not
    store, that no earlier call returned, that no later call returns and
    that never gets into the cache; and [purgeCache()] empties the cache.
    The next [get] then parses the file, when it ignores the cache or the
    path is not the name of a member that the cache object inherits. *)
Lemma manifestCache_semantics disk before earlier p :
  calls before (loaded disk) = (earlier, p) →
  (∀ fileName value p1,
     get fileName false p = (Normal value, p1) →
     get fileName false p1 = (Normal value, p1))
  ∧ (∀ fileName value p1,
       get fileName true p = (Normal value, p1) →
       ∃ instance,
         value = Manifest instance
         ∧ manifestCache p1 = manifestCache p
         ∧ (Some (Normal (Manifest instance)) ∉ earlier)
         ∧ ∀ after later p2,
             calls after p1 = (later, p2) →
             (Some (Normal (Manifest instance)) ∉ later)
             ∧ ∀ key, manifestCache p2 !! key ≠ Some instance)
  ∧ (∀ fileName (ignoreCache : bool),
       manifestCache (purgeCache NoKeys p).2 = ∅
       ∧ (ignoreCache = true ∨ fileName ∉ Object_prototype_keys →
          ∃ rest,
            parsed (get fileName ignoreCache (purgeCache NoKeys p).2).2
            = parsed p ++ fileName :: rest)).
Proof.
  intros Hrun.
  destruct (calls_bounded _ _ _ _ (loaded_bounded disk) Hrun)
    as (Hbound & _ & Hearlier).
  split; [|split].
  - intros fileName value p1 Hget.
    destruct (get_cases _ _ _ _ _ Hget)
      as [(_ & -> & c & Hc & [= ->])|[(_ & _ & e & [=])
                                      |([= ->] & Hlen & Hcache & _)]].
    + by apply get_cached.
    + apply get_cached, cache_member_own. rewrite Hcache. apply lookup_insert_eq.
  - intros fileName value p1 Hget.
    destruct (get_cases _ _ _ _ _ Hget)
      as [([=] & _)|[(_ & _ & e & [=])|([= ->] & Hlen & Hcache & _)]].
    assert (Hun : uncached (length (instances p)) p1).
    { split; [lia|]. intros key Hkey. rewrite Hcache in Hkey.
      specialize (Hbound _ _ Hkey). lia. }
    exists (length (instances p)). split; [done|]. split; [done|]. split.
    + intros Hin. specialize (Hearlier _ Hin). lia.
    + intros after later p2 Hlater.
      destruct (calls_uncached _ _ _ _ _ Hun Hlater) as [[_ Hout] Hnot]. done.
  - intros fileName ignoreCache. split; [done|]. intros Hreaches.
    set (purged := (purgeCache NoKeys p).2).
    assert (Hmiss : (if ignoreCache then @None Value
                     else cache_member (manifestCache purged) fileName) = None).
    { destruct ignoreCache; [done|]. destruct Hreaches as [?|Hout]; [done|].
      by apply cache_member_None. }
    rewrite (get_uncached _ _ _ Hmiss).
    destruct (files purged !! fileName) as [tree|]; [|by eexists].
    destruct (bool_decide _); [|by eexists].
    destruct (String.eqb _ _); by eexists.
Qed.

(** C4. The cache is a plain object, and a path that is the name of a
    member inherited from [Object.prototype], such as ["constructor"], is
    "in the cache" from the start: at any point of a run of the module,
    [get] of such a path without the bypass flag returns the inherited
    member, which is no manifest instance, and does not read the file;
    so it does after [purgeCache()], which leaves the cache empty. *)
Theorem get_inherited_member disk before earlier p fileName :
  fileName ∈ Object_prototype_keys →
  calls before (loaded disk) = (earlier, p) →
  get fileName false p = (Normal (Inherited fileName), p)
  ∧ manifestCache (purgeCache NoKeys p).2 = ∅
  ∧ parsed (purgeCache NoKeys p).2 = parsed p
  ∧ get fileName false (purgeCache NoKeys p).2
    = (Normal (Inherited fileName), (purgeCache NoKeys p).2).
Proof.
  intros Hkey Hrun.
  assert (Hown : manifestCache p !! fileName = None).
  { apply (calls_own_keys before (loaded disk) earlier p); [|done|done].
    intros key _. apply lookup_empty. }
  split; [|split; [done|split; [done|]]].
  - by apply get_cached, cache_member_inherited.
  - apply get_cached, cache_member_inherited; [apply lookup_empty|done].
Qed.

Lemma get_inherited_member_witness :
  let disk : gmap string ElementTree :=
    {["constructor" := mkElementTree (element 0 "Package" [("xmlns:uap", "")] [])]} in
  let p := (calls [CallGet "constructor" true] (loaded disk)).2 in
  get "constructor" false p = (Normal (Inherited "constructor"), p)
  ∧ manifestCache (purgeCache NoKeys p).2 = ∅
  ∧ parsed (purgeCache NoKeys p).2 = parsed p
  ∧ get "constructor" false (purgeCache NoKeys p).2
    = (Normal (Inherited "constructor"), (purgeCache NoKeys p).2).
Proof.
  apply (get_inherited_member
           {["constructor" := mkElementTree
                                (element 0 "Package" [("xmlns:uap", "")] [])]}
           [CallGet "constructor" true]
           [Some (Normal (Manifest 0))]).
  - apply (bool_decide_unpack _). vm_compute. exact I.
  - vm_compute. reflexivity.
Defined.

(** ** Colours *)

Lemma string_forall_app P s1 s2 :
  string_forall P (s1 +:+ s2) = string_forall P s1 && string_forall P s2.
Proof.
  induction s1 as [|c s1 IH]; [done|].
  rewrite append_cons. simpl. by rewrite IH, andb_assoc.
Qed.

Lemma length_append s1 s2 :
  String.length (s1 +:+ s2) = String.length s1 + String.length s2.
Proof. induction s1 as [|c s1 IH]; [done|]. rewrite append_cons. simpl. by rewrite IH. Qed.

Lemma prefix_cons_false a b s1 s2 :
  a ≠ b → String.prefix (String a s1) (String b s2) = false.
Proof. intros Hne. simpl. by destruct (ascii_dec a b). Qed.

Lemma prefix_cons_same a s1 s2 :
  String.prefix (String a s1) (String a s2) = String.prefix s1 s2.
Proof. simpl. by destruct (ascii_dec a a). Qed.

(** A string of hexadecimal digits holds neither ['#'] nor ['0x']. *)
Lemma hex_without_hash h :
  string_forall is_hex_digit h = true →
  contains "#" h = false ∧ replace_first "#" "" h = h.
Proof.
  induction h as [|c h IH]; [done|].
  intros [Hc Hh]%andb_prop. destruct (IH Hh) as [Hcontains Hreplace].
  assert (Hne : "#"%char ≠ c) by (intros <-; by vm_compute in Hc).
  cbn [contains replace_first].
  rewrite (prefix_cons_false _ _ _ _ Hne). by rewrite Hcontains, Hreplace.
Qed.

Lemma hex_without_0x h :
  string_forall is_hex_digit h = true →
  contains "0x" h = false ∧ replace_first "0x" "" h = h.
Proof.
  induction h as [|c h IH]; [done|].
  intros [Hc Hh]%andb_prop. destruct (IH Hh) as [Hcontains Hreplace].
  assert (Hprefix : String.prefix "0x" (String c h) = false).
  { destruct (ascii_dec "0" c) as [<-|Hne]; [|by apply prefix_cons_false].
    rewrite prefix_cons_same. destruct h as [|d h]; [done|].
    change (is_hex_digit d && string_forall is_hex_digit h = true) in Hh.
    apply andb_prop in Hh as [Hd _].
    destruct (ascii_dec "x" d) as [<-|Hne]; [by vm_compute in Hd|].
    by apply prefix_cons_false. }
  cbn [contains replace_first]. by rewrite Hprefix, Hcontains, Hreplace.
Qed.

(** What is left of a colour that is ['#'] or ['0x'] and hexadecimal
    digits, once the markers are taken out. *)
Lemma refineColor_strips marker h :
  marker = "#" ∨ marker = "0x" →
  string_forall is_hex_digit h = true →
  isCSSColorName (marker +:+ h) = false
  ∧ replace_first "#" "" (replace_first "0x" "" (marker +:+ h)) = h.
Proof.
  intros Hmarker Hhex.
  destruct (hex_without_hash h Hhex) as [Hhash Hreplace_hash].
  destruct (hex_without_0x h Hhex) as [H0x Hreplace_0x].
  destruct Hmarker as [-> | ->].
  - change ("#" +:+ h) with (String "#" h).
    assert (Hfirst : String.prefix "#" (String "#" h) = true)
      by (rewrite prefix_cons_same; by destruct h).
    split.
    + unfold isCSSColorName. cbn [contains]. rewrite Hfirst. simpl.
      apply andb_false_r.
    + cbn [replace_first]. rewrite (prefix_cons_false "0" "#") by done.
      rewrite Hreplace_0x. cbn [replace_first]. by rewrite Hfirst.
  - change ("0x" +:+ h) with (String "0" (String "x" h)).
    assert (Hfirst : String.prefix "0x" (String "0" (String "x" h)) = true)
      by (rewrite !prefix_cons_same; by destruct h).
    split.
    + unfold isCSSColorName. cbn [contains]. by rewrite Hfirst.
    + cbn [replace_first]. by rewrite Hfirst.
Qed.

(** X1. A colour written as ['#'] or ['0x'] and three, six or eight
    hexadecimal digits comes out as ['#'] and six digits: three digits are
    doubled one by one, six are kept, and of eight the first two (the
    alpha channel) are dropped. *)
Theorem refineColor_hexadecimal marker h :
  marker = "#" ∨ marker = "0x" →
  string_forall is_hex_digit h = true →
  String.length h = 3 ∨ String.length h = 6 ∨ String.length h = 8 →
  ∃ rgb,
    refineColor (marker +:+ h) = "#" +:+ rgb
    ∧ String.length rgb = 6
    ∧ string_forall is_hex_digit rgb = true
    ∧ match String.length h with
      | 3 => ∀ i c, String.get i h = Some c →
                    String.get (2 * i) rgb = Some c
                    ∧ String.get (2 * i + 1) rgb = Some c
      | 6 => rgb = h
      | _ => rgb = string_drop 2 h
      end.
Proof.
  intros Hmarker Hhex Hlength.
  destruct (refineColor_strips marker h Hmarker Hhex) as [Hcss Hstrip].
  unfold refineColor. rewrite Hcss, Hstrip. clear Hcss Hstrip Hmarker.
  destruct Hlength as [Hl|[Hl|Hl]].
  - destruct h as [|a [|b [|c [|d h]]]]; try done.
    simpl in Hhex. repeat (apply andb_prop in Hhex as [? Hhex]).
    eexists. split; [reflexivity|]. split; [done|]. split.
    + simpl. repeat (apply andb_true_intro; split); done.
    + intros [|[|[|i]]] x; simpl; intros [= <-]; done.
  - rewrite Hl. simpl. exists h. by rewrite Hl.
  - rewrite Hl. simpl. exists (string_drop 2 h). rewrite Hl.
    destruct h as [|a [|b h]]; try done. simpl in *.
    repeat (apply andb_prop in Hhex as [? Hhex]).
    split; [done|]. split; [lia|]. by split.
Qed.

Lemma refineColor_hexadecimal_witness :
  ∃ rgb,
    refineColor ("#" +:+ "0af") = "#" +:+ rgb
    ∧ String.length rgb = 6
    ∧ string_forall is_hex_digit rgb = true
    ∧ match String.length "0af" with
      | 3 => ∀ i c, String.get i "0af" = Some c →
                    String.get (2 * i) rgb = Some c
                    ∧ String.get (2 * i + 1) rgb = Some c
      | 6 => rgb = "0af"
      | _ => rgb = string_drop 2 "0af"
      end.
Proof.
  apply (refineColor_hexadecimal "#" "0af").
  - left. reflexivity.
  - reflexivity.
  - left. reflexivity.
Defined.

(** ** Descriptions *)

Lemma string_forall_replace_each (P Q : ascii → bool) f s :
  (∀ c, Q c = true → string_forall P (f c) = true) →
  string_forall Q s = true →
  string_forall P (replace_each f s) = true.
Proof.
  intros Hf. induction s as [|c s IH]; [done|].
  intros [Hc Hs]%andb_prop. simpl. rewrite string_forall_app.
  by rewrite (Hf c Hc), IH.
Qed.

Lemma string_forall_true s : string_forall (λ _, true) s = true.
Proof. induction s as [|c s IH]; [done|]. done. Qed.

(** X2. A processed description holds no line feed, no carriage return
    and no tab, whatever the text was. *)
Theorem processDescription_plain text :
  string_forall is_plain (processDescription text) = true.
Proof.
  unfold processDescription.
  set (result := if 2048 <? String.length text then _ else _). clearbody result.
  apply (string_forall_replace_each _
           (λ c, negb (Ascii.eqb c newline) && negb (Ascii.eqb c carriage_return))).
  - intros c Hc. unfold tab_to_spaces.
    destruct (Ascii.eqb c tab) eqn:Htab; [done|].
    simpl. unfold is_plain. by rewrite Hc, Htab.
  - apply (string_forall_replace_each _ (λ _, true)); [|apply string_forall_true].
    intros c _. unfold line_break_to_space.
    destruct (Ascii.eqb c newline) eqn:Hn; [done|].
    destruct (Ascii.eqb c carriage_return) eqn:Hr; [done|].
    simpl. by rewrite Hn, Hr.
Qed.

Lemma replace_each_unchanged f s :
  string_forall (λ c, String.eqb (f c) (String c EmptyString)) s = true →
  replace_each f s = s.
Proof.
  induction s as [|c s IH]; [done|].
  intros [Hc Hs]%andb_prop. simpl. apply String.eqb_eq in Hc. by rewrite Hc, IH.
Qed.

Lemma string_forall_impl (P Q : ascii → bool) s :
  (∀ c, P c = true → Q c = true) →
  string_forall P s = true → string_forall Q s = true.
Proof.
  intros Himpl. induction s as [|c s IH]; [done|].
  intros [Hc Hs]%andb_prop. simpl. by rewrite (Himpl c Hc), IH.
Qed.

(** X3. A text of at most 2048 characters without line break or tab is
    its own processed description. *)
Theorem processDescription_unchanged text :
  String.length text ≤ 2048 →
  string_forall is_plain text = true →
  processDescription text = text.
Proof.
  intros Hshort Hplain. unfold processDescription.
  destruct (Nat.ltb_spec 2048 (String.length text)) as [Hlong|_]; [lia|].
  rewrite (replace_each_unchanged line_break_to_space).
  - apply replace_each_unchanged.
    eapply string_forall_impl; [|exact Hplain].
    intros c Hc. unfold is_plain in Hc. unfold tab_to_spaces.
    apply andb_prop in Hc as [_ Htab].
    destruct (Ascii.eqb c tab); [done|]. apply String.eqb_refl.
  - eapply string_forall_impl; [|exact Hplain].
    intros c Hc. unfold is_plain in Hc. unfold line_break_to_space.
    apply andb_prop in Hc as [[Hn Hr]%andb_prop _].
    destruct (Ascii.eqb c newline); [done|].
    destruct (Ascii.eqb c carriage_return); [done|]. apply String.eqb_refl.
Qed.

Lemma processDescription_unchanged_witness :
  processDescription "Apache Cordova app" = "Apache Cordova app".
Proof.
  apply (processDescription_unchanged "Apache Cordova app").
  - vm_compute. lia.
  - reflexivity.
Defined.

Lemma length_string_take n s : String.length (string_take n s) = n `min` String.length s.
Proof.
  revert s. induction n as [|n IH]; intros [|c s]; simpl; try done.
  by rewrite IH.
Qed.

Lemma string_take_all n s : String.length s ≤ n → string_take n s = s.
Proof.
  revert s. induction n as [|n IH]; intros [|c s]; simpl; try done; [lia|].
  intros Hle. rewrite IH; [done|lia].
Qed.

Lemma string_count_app P a b :
  string_count P (a +:+ b) = string_count P a + string_count P b.
Proof.
  induction a as [|x a IHa]; [done|]. rewrite append_cons. simpl. rewrite IHa. lia.
Qed.

Lemma length_replace_each_same f s :
  (∀ c, String.length (f c) = 1) →
  String.length (replace_each f s) = String.length s.
Proof.
  intros Hf. induction s as [|c s IH]; [done|]. simpl.
  by rewrite length_append, Hf, IH.
Qed.

Lemma string_count_replace_each P f s :
  (∀ c, string_count P (f c) = if P c then 1 else 0) →
  string_count P (replace_each f s) = string_count P s.
Proof.
  intros Hf. induction s as [|c s IH]; [done|]. simpl.
  by rewrite string_count_app, Hf, IH.
Qed.

Lemma length_tab_to_spaces s :
  String.length (replace_each tab_to_spaces s)
  = String.length s + 3 * string_count (λ c, Ascii.eqb c tab) s.
Proof.
  induction s as [|c s IH]; [done|]. simpl. rewrite length_append, IH.
  unfold tab_to_spaces. destruct (Ascii.eqb c tab); simpl; lia.
Qed.

(** X4. The length of a processed description: that of the text, cut at
    2048, and three more for every tab among the characters kept. *)
Theorem length_processDescription text :
  String.length (processDescription text)
  = String.length text `min` 2048
    + 3 * string_count (λ c, Ascii.eqb c tab) (string_take 2048 text).
Proof.
  unfold processDescription.
  assert (Hresult : (if 2048 <? String.length text then string_take 2048 text
                     else text) = string_take 2048 text).
  { destruct (Nat.ltb_spec 2048 (String.length text)); [done|].
    by rewrite string_take_all. }
  rewrite Hresult. rewrite length_tab_to_spaces.
  rewrite length_replace_each_same
    by (intros c; unfold line_break_to_space; by destruct (_ || _)).
  rewrite length_string_take.
  rewrite (string_count_replace_each (λ c, Ascii.eqb c tab)); [lia|].
  intros c. unfold line_break_to_space.
  destruct (Ascii.eqb c newline) eqn:Hn.
  - apply Ascii.eqb_eq in Hn as ->. done.
  - destruct (Ascii.eqb c carriage_return) eqn:Hr.
    + apply Ascii.eqb_eq in Hr as ->. done.
    + simpl. by destruct (Ascii.eqb c tab).
Qed.

(** ** Handles under mutation *)

Lemma node_at_app h1 h2 e :
  node_at (h1 ++ h2) e = (n ← node_at h1 e; node_at h2 n).
Proof.
  revert e. induction h1 as [|i h1 IH]; intros e; simpl; [done|].
  destruct (_children e !! i) as [c|]; simpl; [apply IH|done].
Qed.

Lemma modify_at_app f h1 h2 e :
  modify_at f (h1 ++ h2) e = modify_at (modify_at f h2) h1 e.
Proof.
  revert e. induction h1 as [|i h1 IH]; intros e; simpl; [done|].
  f_equal. apply list_alter_ext; [|done]. intros c _. apply IH.
Qed.

(** The element at a handle, after a mutation at that handle or below. *)
Lemma node_at_modify_at_below f h r e :
  node_at h (modify_at f (h ++ r) e) = modify_at f r <$> node_at h e.
Proof.
  rewrite modify_at_app.
  destruct (node_at h e) as [n|] eqn:Hnode; simpl.
  - by apply node_at_modify_at.
  - revert e Hnode. induction h as [|i h IH]; intros e; simpl; [done|].
    rewrite list_lookup_alter_eq.
    destruct (_children e !! i) as [c|]; simpl; [apply IH|done].
Qed.

(** The element at a handle, after a mutation in another branch. *)
Lemma node_at_modify_at_aside f pre i j r1 r2 e :
  i ≠ j →
  node_at (pre ++ i :: r1) (modify_at f (pre ++ j :: r2) e)
  = node_at (pre ++ i :: r1) e.
Proof.
  intros Hne. revert e. induction pre as [|k pre IH]; intros e; simpl.
  - by rewrite list_lookup_alter_ne.
  - rewrite list_lookup_alter_eq.
    destruct (_children e !! k) as [c|]; simpl; [apply IH|done].
Qed.

Lemma fields_modify_at_below f i r e :
  let e' := modify_at f (i :: r) e in
  _id e' = _id e ∧ tag e' = tag e ∧ attrib e' = attrib e ∧ text e' = text e.
Proof. done. Qed.

Lemma scan_children_ext inside1 inside2 t i cs1 cs2 :
  Forall2 (λ c1 c2,
             (if String.eqb (tag c1) t then inside1 c1 else None)
             = (if String.eqb (tag c2) t then inside2 c2 else None)) cs1 cs2 →
  scan_children inside1 t i cs1 = scan_children inside2 t i cs2.
Proof.
  intros Hsame. revert i. induction Hsame as [|c1 c2 cs1 cs2 Hc _ IH]; intros i;
    simpl; [done|].
  rewrite Hc. by rewrite IH.
Qed.

Lemma scan_children_found inside t i cs h :
  scan_children inside t i cs = Some h →
  ∃ k c h', h = (i + k) :: h' ∧ cs !! k = Some c ∧ tag c = t
            ∧ inside c = Some h'
            ∧ Forall (λ d, tag d ≠ t ∨ inside d = None) (take k cs).
Proof.
  revert i. induction cs as [|c cs IH]; intros i; simpl; [done|].
  destruct (String.eqb_spec (tag c) t) as [Htag|Htag].
  - destruct (inside c) as [h'|] eqn:Hin.
    + intros [= <-]. exists 0, c, h'. rewrite Nat.add_0_r. simpl. eauto 10.
    + intros Hscan. destruct (IH _ Hscan) as (k & d & h' & -> & Hk & Hd & Hh' & Hbefore).
      exists (S k), d, h'. replace (i + S k) with (S i + k) by lia. simpl.
      split; [done|]. split; [done|]. split; [done|]. split; [done|].
      constructor; [by right|done].
  - intros Hscan. destruct (IH _ Hscan) as (k & d & h' & -> & Hk & Hd & Hh' & Hbefore).
    exists (S k), d, h'. replace (i + S k) with (S i + k) by lia. simpl.
    split; [done|]. split; [done|]. split; [done|]. split; [done|].
    constructor; [by left|done].
Qed.

Lemma scan_children_none inside t i cs :
  Forall (λ d, tag d ≠ t ∨ inside d = None) cs →
  scan_children inside t i cs = None.
Proof.
  intros Hnone. revert i. induction Hnone as [|c cs Hc _ IH]; intros i; simpl; [done|].
  destruct (String.eqb_spec (tag c) t) as [Htag|Htag]; [|apply IH].
  destruct Hc as [Hc|Hc]; [done|]. rewrite Hc. apply IH.
Qed.

Lemma scan_children_none_inv inside t i cs :
  scan_children inside t i cs = None →
  Forall (λ d, tag d ≠ t ∨ inside d = None) cs.
Proof.
  revert i. induction cs as [|c cs IH]; intros i; simpl; [by constructor|].
  destruct (String.eqb_spec (tag c) t) as [Htag|Htag].
  - destruct (inside c) eqn:Hin; [done|]. intros Hscan.
    constructor; [by right|by eapply IH].
  - intros Hscan. constructor; [by left|by eapply IH].
Qed.

(** The handle that a path search returns refers to an element; the
    element has the last tag of the path. *)
Lemma find_path_node tags e h :
  find_path tags e = Some h →
  ∃ c, node_at h e = Some c ∧ tag c = default (tag e) (last tags).
Proof.
  revert e h. induction tags as [|t tags IH]; intros e h; simpl.
  - intros [= <-]. eauto.
  - intros Hscan.
    destruct (scan_children_found _ _ _ _ _ Hscan)
      as (k & c & h' & -> & Hk & Htag & Hrest & _).
    simpl. rewrite Hk. simpl. destruct (IH _ _ Hrest) as (d & Hd & Hdtag).
    exists d. split; [done|]. rewrite Hdtag.
    destruct tags as [|t' tags]; [exact Htag|].
    change (last (t :: t' :: tags)) with (last (t' :: tags)).
    destruct (last (t' :: tags)) eqn:Hlast; [done|].
    by apply last_None in Hlast.
Qed.

(** A search for a child: the first child with the tag. *)
Lemma find_path_child t e h :
  find_path [t] e = Some h →
  ∃ i c, h = [i] ∧ _children e !! i = Some c ∧ tag c = t
         ∧ Forall (λ d, tag d ≠ t) (take i (_children e)).
Proof.
  simpl. intros Hscan.
  destruct (scan_children_found _ _ _ _ _ Hscan)
    as (k & c & h' & -> & Hk & Htag & [= <-] & Hbefore).
  exists k, c. split; [done|]. split; [done|]. split; [done|].
  eapply Forall_impl; [exact Hbefore|]. by intros d [?|?].
Qed.

Lemma find_path_child_none t e :
  find_path [t] e = None ↔ Forall (λ d, tag d ≠ t) (_children e).
Proof.
  simpl. split.
  - intros Hscan%scan_children_none_inv.
    eapply Forall_impl; [exact Hscan|]. by intros d [?|?].
  - intros Hnone. apply scan_children_none.
    eapply Forall_impl; [exact Hnone|]. intros d ?. by left.
Qed.

(** A search for a child looks at the tags of the children only. *)
Lemma find_path_child_tags t e1 e2 :
  tag <$> _children e1 = tag <$> _children e2 →
  find_path [t] e1 = find_path [t] e2.
Proof.
  intros Htags. simpl. apply scan_children_ext.
  revert Htags. generalize (_children e2). induction (_children e1) as [|c cs IH];
    intros [|d ds]; simpl; try done.
  intros [= Hc Hcs]. constructor; [by rewrite Hc|by apply IH].
Qed.

Lemma find_under_child h t root h' :
  find_under h [t] root = Some h' →
  ∃ node i c, node_at h root = Some node ∧ h' = h ++ [i]
              ∧ _children node !! i = Some c ∧ tag c = t
              ∧ node_at h' root = Some c.
Proof.
  unfold find_under. intros (node & Hnode & Hrest)%bind_Some.
  apply bind_Some in Hrest as (rel & Hfind & [= <-]).
  destruct (find_path_child _ _ _ Hfind) as (i & c & -> & Hc & Htag & _).
  exists node, i, c. split; [done|]. split; [done|]. split; [done|]. split; [done|].
  rewrite node_at_app, Hnode. simpl. by rewrite Hc.
Qed.

Lemma tags_alter_same (f : Element → Element) i (cs : list Element) :
  (∀ c, tag (f c) = tag c) → tag <$> alter f i cs = tag <$> cs.
Proof.
  intros Hf. revert i. induction cs as [|c cs IH]; intros [|i]; try done.
  - change (tag (f c) :: (tag <$> cs) = tag c :: (tag <$> cs)). by rewrite Hf.
  - change (tag c :: (tag <$> alter f i cs) = tag c :: (tag <$> cs)). by rewrite IH.
Qed.

(** A mutation of a child that keeps its tag does not change what a
    search for a child finds. *)
Lemma find_under_modify_at_child f h i t root :
  (∀ c, tag (f c) = tag c) →
  find_under h [t] (modify_at f (h ++ [i]) root) = find_under h [t] root.
Proof.
  intros Hf. unfold find_under. rewrite node_at_modify_at_below.
  destruct (node_at h root) as [node|]; [|done].
  change ((find_path [t] (modify_at f [i] node) ≫= λ rel, Some (h ++ rel))
          = (find_path [t] node ≫= λ rel, Some (h ++ rel))).
  rewrite (find_path_child_tags t _ node); [done|].
  by apply tags_alter_same.
Qed.

(** ** Attribute setters *)

Lemma get_attribute_set h name value this el :
  node_at h (root_of this) = Some el →
  get_attribute h name (on_root (modify_at (set_attribute name value) h) this)
  = Some value.
Proof. intros Hnode. unfold get_attribute. by apply (set_attribute_stored _ _ _ _ el). Qed.

Lemma get_attribute_set_other h name other value this :
  name ≠ other →
  get_attribute h other (on_root (modify_at (set_attribute name value) h) this)
  = get_attribute h other this.
Proof.
  intros Hne. unfold get_attribute. rewrite root_of_on_root.
  rewrite <- (app_nil_r h) at 2. rewrite node_at_modify_at_below.
  destruct (node_at h (root_of this)) as [el|]; simpl; [|done].
  by apply lookup_insert_ne.
Qed.

Lemma set_required_attribute_run message h name value this :
  set_required_attribute message h name value this
  = if truthy value
    then (Normal This,
          on_root (modify_at (set_attribute name (default "" value)) h) this)
    else (Throw (TypeError message), this).
Proof. unfold set_required_attribute. by destruct (truthy value). Qed.

(** ** The views: attributes *)

Lemma get_attribute_set_other_node h name other value this :
  name ≠ other →
  (el ← node_at h (root_of (on_root (modify_at (set_attribute name value) h) this));
   attrib el !! other)
  = (el ← node_at h (root_of this); attrib el !! other).
Proof. intros Hne. by apply (get_attribute_set_other h name other value this). Qed.

(** X5. The identifier that [setId] stores is the first 64 characters of
    its argument: the argument itself when it has no more. The start page
    of the application is left as it is. *)
Theorem setId_truncates this application id :
  getApplication this = (Normal application, this) →
  id ≠ "" →
  ∃ this',
    setId application (Some id) this = (Normal This, this')
    ∧ getId application this' = Some (string_take 64 id)
    ∧ String.length (string_take 64 id) = 64 `min` String.length id
    ∧ (String.length id ≤ 64 → getId application this' = Some id)
    ∧ getStartPage application this' = getStartPage application this.
Proof.
  intros Hview Hid. destruct (getApplication_node _ _ Hview) as (el & Hnode & _).
  assert (Hstored : (if String.length id <=? 64 then id else string_take 64 id)
                    = string_take 64 id).
  { destruct (Nat.leb_spec (String.length id) 64) as [Hle|Hgt]; [|done].
    symmetry. by apply string_take_all. }
  unfold setId. rewrite (truthy_nonempty _ Hid).
  change (default "" (Some id)) with id. cbv zeta. rewrite Hstored. eexists. split; [reflexivity|].
  split; [by apply (get_attribute_set _ _ _ _ el)|].
  split; [apply length_string_take|].
  split.
  - intros Hle. unfold getId. rewrite (get_attribute_set _ _ _ _ el Hnode).
    by rewrite string_take_all.
  - by apply get_attribute_set_other_node.
Qed.

Lemma setId_truncates_witness :
  ∃ this',
    setId [4; 0] (Some "io.cordova.hellocordova") template_manifest
    = (Normal This, this')
    ∧ getId [4; 0] this' = Some (string_take 64 "io.cordova.hellocordova")
    ∧ String.length (string_take 64 "io.cordova.hellocordova")
      = 64 `min` String.length "io.cordova.hellocordova"
    ∧ (String.length "io.cordova.hellocordova" ≤ 64 →
       getId [4; 0] this' = Some "io.cordova.hellocordova")
    ∧ getStartPage [4; 0] this' = getStartPage [4; 0] template_manifest.
Proof.
  apply (setId_truncates template_manifest [4; 0] "io.cordova.hellocordova").
  - reflexivity.
  - discriminate.
Defined.

(** X6. The name and the publisher setters of the identity view store
    their argument and leave the two other attributes that the view reads
    as they are. *)
Theorem setName_setPublisher_store this identity value :
  getIdentity this = (Normal identity, this) →
  value ≠ "" →
  (∃ this',
     setName identity (Some value) this = (Normal This, this')
     ∧ getName identity this' = Some value
     ∧ getPublisher identity this' = getPublisher identity this
     ∧ getVersion identity this' = getVersion identity this)
  ∧ (∃ this',
       setPublisher identity (Some value) this = (Normal This, this')
       ∧ getPublisher identity this' = Some value
       ∧ getName identity this' = getName identity this
       ∧ getVersion identity this' = getVersion identity this).
Proof.
  intros Hview Hvalue. destruct (getIdentity_node _ _ Hview) as (el & Hnode & _).
  unfold setName, setPublisher. rewrite !set_required_attribute_run.
  rewrite (truthy_nonempty _ Hvalue). cbn [default from_option]. split.
  - eexists. split; [reflexivity|].
    split; [by apply (get_attribute_set _ _ _ _ el)|].
    split; [by apply get_attribute_set_other|by apply get_attribute_set_other_node].
  - eexists. split; [reflexivity|].
    split; [by apply (get_attribute_set _ _ _ _ el)|].
    split; [by apply get_attribute_set_other|by apply get_attribute_set_other_node].
Qed.

Lemma setName_setPublisher_store_witness :
  (∃ this',
     setName [0] (Some "io.cordova.hellocordova") template_manifest
     = (Normal This, this')
     ∧ getName [0] this' = Some "io.cordova.hellocordova"
     ∧ getPublisher [0] this' = getPublisher [0] template_manifest
     ∧ getVersion [0] this' = getVersion [0] template_manifest)
  ∧ (∃ this',
       setPublisher [0] (Some "io.cordova.hellocordova") template_manifest
       = (Normal This, this')
       ∧ getPublisher [0] this' = Some "io.cordova.hellocordova"
       ∧ getName [0] this' = getName [0] template_manifest
       ∧ getVersion [0] this' = getVersion [0] template_manifest).
Proof.
  apply (setName_setPublisher_store template_manifest [0] "io.cordova.hellocordova").
  - reflexivity.
  - discriminate.
Defined.

(** X7. A setter that requires its argument throws for an empty or
    missing one, before it touches the document: a [TypeError] from the
    setters of the identity, application, properties and visual elements
    views, an [Error] from the setter of the phone identity view. *)
Theorem setters_reject_empty (value : option string) h defaultTitle this element_ids :
  truthy value = false →
  (∃ message, setName h value this = (Throw (TypeError message), this))
  ∧ (∃ message, setPublisher h value this = (Throw (TypeError message), this))
  ∧ (∃ message, setVersion h value this = (Throw (TypeError message), this))
  ∧ (∃ message, setId h value this = (Throw (TypeError message), this))
  ∧ (∃ message,
       VisualElements_setDisplayName h value this = (Throw (TypeError message), this))
  ∧ (∃ message, setShortName defaultTitle value this = (Throw (TypeError message), this))
  ∧ (∃ message, setBackgroundColor h value this = (Throw (TypeError message), this))
  ∧ (∃ message,
       VisualElements_setDescription h value this = (Throw (TypeError message), this))
  ∧ (∃ message,
       Properties_setDisplayName h value (this, element_ids)
       = (Throw (TypeError message), (this, element_ids)))
  ∧ (∃ message,
       setPublisherDisplayName h value (this, element_ids)
       = (Throw (TypeError message), (this, element_ids)))
  ∧ (∃ message, setPhoneProductId h value this = (Throw (Error message), this)).
Proof.
  intros Hempty.
  unfold setName, setPublisher, VisualElements_setDisplayName.
  rewrite !set_required_attribute_run.
  unfold setVersion, setId, setShortName, setBackgroundColor,
    VisualElements_setDescription, Properties_setDisplayName,
    setPublisherDisplayName, set_child_text, setPhoneProductId.
  rewrite !Hempty. unfold throw.
  repeat (split; [by eexists|]). by eexists.
Qed.

Lemma setters_reject_empty_witness :
  (∃ message, setName [0] (Some "") template_manifest
              = (Throw (TypeError message), template_manifest))
  ∧ (∃ message, setPublisher [0] (Some "") template_manifest
                = (Throw (TypeError message), template_manifest))
  ∧ (∃ message, setVersion [0] (Some "") template_manifest
                = (Throw (TypeError message), template_manifest))
  ∧ (∃ message, setId [0] (Some "") template_manifest
                = (Throw (TypeError message), template_manifest))
  ∧ (∃ message, VisualElements_setDisplayName [0] (Some "") template_manifest
                = (Throw (TypeError message), template_manifest))
  ∧ (∃ message, setShortName None (Some "") template_manifest
                = (Throw (TypeError message), template_manifest))
  ∧ (∃ message, setBackgroundColor [0] (Some "") template_manifest
                = (Throw (TypeError message), template_manifest))
  ∧ (∃ message, VisualElements_setDescription [0] (Some "") template_manifest
                = (Throw (TypeError message), template_manifest))
  ∧ (∃ message, Properties_setDisplayName [0] (Some "") (template_manifest, 18)
                = (Throw (TypeError message), (template_manifest, 18)))
  ∧ (∃ message, setPublisherDisplayName [0] (Some "") (template_manifest, 18)
                = (Throw (TypeError message), (template_manifest, 18)))
  ∧ (∃ message, setPhoneProductId [0] (Some "") template_manifest
                = (Throw (Error message), template_manifest)).
Proof.
  apply (setters_reject_empty (Some "") [0] None template_manifest 18).
  reflexivity.
Defined.

(** X8. [trySetBackgroundColor] never throws and returns the view; what
    it does is what [setBackgroundColor] does for a colour, and nothing
    without one. The colour is read back refined. *)
Theorem trySetBackgroundColor_never_throws visualElements color this :
  ∃ this',
    trySetBackgroundColor visualElements color this = (Normal This, this')
    ∧ (truthy color = false → this' = this)
    ∧ (truthy color = true →
       setBackgroundColor visualElements color this = (Normal This, this')
       ∧ (is_Some (node_at visualElements (root_of this)) →
          getBackgroundColor visualElements this'
          = Some (refineColor (default "" color)))).
Proof.
  unfold trySetBackgroundColor, try_catch, setBackgroundColor.
  destruct (truthy color) eqn:Hcolor.
  - eexists. split; [reflexivity|]. split; [done|]. intros _.
    split; [reflexivity|]. intros [el Hnode].
    by apply (get_attribute_set _ _ _ _ el).
  - exists this. split; [reflexivity|]. by split.
Qed.

(** X9. Each of the three attribute setters of the visual elements view
    stores its argument (the description processed, the colour refined)
    and leaves the two other attributes as they are. *)
Theorem VisualElements_setters_store this visualElements value :
  getVisualElements this = (Normal visualElements, this) →
  value ≠ "" →
  (∃ this',
     VisualElements_setDisplayName visualElements (Some value) this
     = (Normal This, this')
     ∧ VisualElements_getDisplayName visualElements this' = Some value
     ∧ VisualElements_getDescription visualElements this'
       = VisualElements_getDescription visualElements this
     ∧ getBackgroundColor visualElements this' = getBackgroundColor visualElements this)
  ∧ (∃ this',
       VisualElements_setDescription visualElements (Some value) this
       = (Normal This, this')
       ∧ VisualElements_getDescription visualElements this'
         = Some (processDescription value)
       ∧ VisualElements_getDisplayName visualElements this'
         = VisualElements_getDisplayName visualElements this
       ∧ getBackgroundColor visualElements this'
         = getBackgroundColor visualElements this)
  ∧ (∃ this',
       setBackgroundColor visualElements (Some value) this = (Normal This, this')
       ∧ getBackgroundColor visualElements this' = Some (refineColor value)
       ∧ VisualElements_getDisplayName visualElements this'
         = VisualElements_getDisplayName visualElements this
       ∧ VisualElements_getDescription visualElements this'
         = VisualElements_getDescription visualElements this).
Proof.
  intros Hview Hvalue. unfold getVisualElements in Hview.
  destruct (find_path _ (root_of this)) as [h|] eqn:Hfind; [|done].
  injection Hview as ->.
  destruct (find_path_node _ _ _ Hfind) as (el & Hnode & _).
  unfold VisualElements_setDisplayName. rewrite set_required_attribute_run.
  unfold VisualElements_setDescription, setBackgroundColor.
  rewrite (truthy_nonempty _ Hvalue). change (default "" (Some value)) with value.
  split; [|split].
  - eexists. split; [reflexivity|].
    split; [by apply (get_attribute_set _ _ _ _ el)|].
    split; by apply get_attribute_set_other.
  - eexists. split; [reflexivity|].
    split; [by apply (get_attribute_set _ _ _ _ el)|].
    split; by apply get_attribute_set_other.
  - eexists. split; [reflexivity|].
    split; [by apply (get_attribute_set _ _ _ _ el)|].
    split; by apply get_attribute_set_other.
Qed.

Lemma VisualElements_setters_store_witness :
  (∃ this',
     VisualElements_setDisplayName [4; 0; 0] (Some "#fff") template_manifest
     = (Normal This, this')
     ∧ VisualElements_getDisplayName [4; 0; 0] this' = Some "#fff"
     ∧ VisualElements_getDescription [4; 0; 0] this'
       = VisualElements_getDescription [4; 0; 0] template_manifest
     ∧ getBackgroundColor [4; 0; 0] this'
       = getBackgroundColor [4; 0; 0] template_manifest)
  ∧ (∃ this',
       VisualElements_setDescription [4; 0; 0] (Some "#fff") template_manifest
       = (Normal This, this')
       ∧ VisualElements_getDescription [4; 0; 0] this'
         = Some (processDescription "#fff")
       ∧ VisualElements_getDisplayName [4; 0; 0] this'
         = VisualElements_getDisplayName [4; 0; 0] template_manifest
       ∧ getBackgroundColor [4; 0; 0] this'
         = getBackgroundColor [4; 0; 0] template_manifest)
  ∧ (∃ this',
       setBackgroundColor [4; 0; 0] (Some "#fff") template_manifest
       = (Normal This, this')
       ∧ getBackgroundColor [4; 0; 0] this' = Some (refineColor "#fff")
       ∧ VisualElements_getDisplayName [4; 0; 0] this'
         = VisualElements_getDisplayName [4; 0; 0] template_manifest
       ∧ VisualElements_getDescription [4; 0; 0] this'
         = VisualElements_getDescription [4; 0; 0] template_manifest).
Proof.
  apply (VisualElements_setters_store template_manifest [4; 0; 0] "#fff").
  - reflexivity.
  - discriminate.
Defined.

(** ** The views: child elements *)

Lemma tag_set_attribute name value e : tag (set_attribute name value e) = tag e.
Proof. done. Qed.

Lemma tag_delete_attribute name e : tag (delete_attribute name e) = tag e.
Proof. done. Qed.

Lemma tag_set_text value e : tag (set_text value e) = tag e.
Proof. done. Qed.

(** X10. [setSplashBackgroundColor] never throws. With a splash screen
    element, the colour is read back refined, and after a call without a
    colour the attribute is gone; without the element nothing changes. *)
Theorem setSplashBackgroundColor_cases visualElements color this :
  ∃ this',
    setSplashBackgroundColor visualElements color this = (Normal This, this')
    ∧ match find_under visualElements ["uap:SplashScreen"] (root_of this) with
      | Some _ =>
          getSplashBackgroundColor visualElements this'
          = if truthy color then Some (refineColor (default "" color)) else None
      | None => this' = this
      end.
Proof.
  unfold setSplashBackgroundColor, bind, get_state, modify_state, ret.
  destruct (find_under visualElements ["uap:SplashScreen"] (root_of this))
    as [splashNode|] eqn:Hfind; [|by exists this].
  eexists. split; [reflexivity|].
  destruct (find_under_child _ _ _ _ Hfind) as (node & i & c & Hnode & -> & Hc & _ & Hat).
  unfold getSplashBackgroundColor. rewrite root_of_on_root.
  rewrite find_under_modify_at_child, Hfind.
  - change (get_attribute (visualElements ++ [i]) "BackgroundColor"
              (on_root (modify_at
                 (if truthy color
                  then set_attribute "BackgroundColor" (refineColor (default "" color))
                  else delete_attribute "BackgroundColor") (visualElements ++ [i])) this)
            = if truthy color then Some (refineColor (default "" color)) else None).
    unfold get_attribute. rewrite root_of_on_root, (node_at_modify_at _ _ _ _ Hat).
    destruct (truthy color); simpl; [apply lookup_insert_eq|apply lookup_delete_eq].
  - intros d. by destruct (truthy color).
Qed.

Lemma scan_children_here inside t i cs k c h :
  cs !! k = Some c → tag c = t → inside c = Some h →
  Forall (λ d, tag d ≠ t) (take k cs) →
  scan_children inside t i cs = Some ((i + k) :: h).
Proof.
  revert i k. induction cs as [|a cs IH]; intros i [|k]; simpl; try done.
  - intros [= ->] -> -> _. rewrite String.eqb_refl. by rewrite Nat.add_0_r.
  - intros Hc Htag Hin [Ha Hbefore]%Forall_cons.
    destruct (String.eqb_spec (tag a) t) as [?|_]; [done|].
    rewrite (IH (S i) k Hc Htag Hin Hbefore). do 2 f_equal. lia.
Qed.

Lemma find_path_child_at t e i c :
  _children e !! i = Some c → tag c = t →
  Forall (λ d, tag d ≠ t) (take i (_children e)) →
  find_path [t] e = Some [i].
Proof.
  intros Hc Htag Hbefore.
  by apply (scan_children_here (find_path []) t 0 _ i c []).
Qed.

Lemma child_text_at parent t this node :
  node_at parent (root_of this) = Some node →
  child_text parent t this
  = match find_path [t] node with
    | Some h => c ← node_at h node; text c
    | None => None
    end.
Proof.
  intros Hnode. unfold child_text, find_under. rewrite Hnode.
  change (((find_path [t] node ≫= λ rel, Some (parent ++ rel))
           ≫= λ h, node_at h (root_of this) ≫= text)
          = match find_path [t] node with
            | Some h => c ← node_at h node; text c
            | None => None
            end).
  destruct (find_path [t] node) as [rel|]; [|done].
  change (node_at (parent ++ rel) (root_of this) ≫= text = node_at rel node ≫= text).
  by rewrite node_at_app, Hnode.
Qed.

(** A search for a child after a child with another tag was appended. *)
Lemma find_path_child_append t created e :
  tag created ≠ t →
  find_path [t] (append created e) = find_path [t] e.
Proof.
  intros Hother. unfold append. simpl.
  generalize 0. induction (_children e) as [|a cs IH]; intros i; simpl.
  - by destruct (String.eqb_spec (tag created) t).
  - destruct (String.eqb (tag a) t); [done|]. apply IH.
Qed.

Lemma alter_last {A} (f : A → A) (l : list A) x :
  alter f (length l) (l ++ [x]) = l ++ [f x].
Proof.
  induction l as [|a l IH]; [done|].
  change (a :: alter f (length l) (l ++ [x]) = a :: (l ++ [f x])). by rewrite IH.
Qed.

(** What the setters of a child's text have in common: the child is
    searched for, created and appended when there is none, and given the
    text. Afterwards a search for the child finds an element with that
    text, and the texts found under the other tags are those of before. *)
Lemma find_or_append_set_text parent t value this element_ids node :
  node_at parent (root_of this) = Some node →
  ∃ this' element_ids',
    (let! child := find_or_append parent t in
     do! with_manifest (modify_state (on_root (modify_at (set_text value) child))) in
     ret This) (this, element_ids)
    = (Normal This, (this', element_ids'))
    ∧ element_ids ≤ element_ids'
    ∧ child_text parent t this' = value
    ∧ ∀ t', t' ≠ t → child_text parent t' this' = child_text parent t' this.
Proof.
  intros Hnode. unfold bind, find_or_append, with_manifest, modify_state, ret.
  destruct (find_under parent [t] (root_of this)) as [h|] eqn:Hfind.
  - destruct (find_under_child _ _ _ _ Hfind)
      as (node0 & i & c & Hnode0 & -> & Hc & Htag & Hat).
    assert (node0 = node) as -> by congruence.
    eexists _, _. split; [reflexivity|]. split; [done|]. split.
    + unfold child_text. rewrite root_of_on_root.
      rewrite (find_under_modify_at_child _ _ _ _ _ (tag_set_text value)), Hfind.
      change (node_at (parent ++ [i])
                (modify_at (set_text value) (parent ++ [i]) (root_of this)) ≫= text
              = value).
      by rewrite (node_at_modify_at _ _ _ _ Hat).
    + intros t' Hother. unfold child_text. rewrite root_of_on_root.
      rewrite (find_under_modify_at_child _ _ _ _ _ (tag_set_text value)).
      destruct (find_under parent [t'] (root_of this)) as [h'|] eqn:Hfind'; [|done].
      destruct (find_under_child _ _ _ _ Hfind')
        as (node1 & j & c' & Hnode1 & -> & Hc' & Htag' & _).
      assert (node1 = node) as -> by congruence.
      change (node_at (parent ++ [j])
                (modify_at (set_text value) (parent ++ [i]) (root_of this)) ≫= text
              = node_at (parent ++ [j]) (root_of this) ≫= text).
      rewrite node_at_modify_at_aside; [done|]. intros ->. congruence.
  - assert (Hnone : find_path [t] node = None).
    { unfold find_under in Hfind. rewrite Hnode in Hfind.
      apply bind_None in Hfind as [?|(node0 & [= <-] & Hrest)]; [done|].
      by apply bind_None in Hrest as [?|(rel & _ & ?)]. }
    rewrite Hnode. cbn [from_option new_Element].
    set (created := mkElement element_ids t ∅ None [] None).
    set (index := length (_children node)).
    eexists _, _. split; [reflexivity|]. split; [lia|].
    assert (Hnode' : node_at parent
                       (root_of (on_root (modify_at (set_text value) (parent ++ [index]))
                                   (on_root (modify_at (append created) parent) this)))
                     = Some (set_children (_children node ++ [set_text value created])
                                          node)).
    { rewrite !root_of_on_root, node_at_modify_at_below.
      rewrite (node_at_modify_at _ _ _ _ Hnode). simpl. f_equal.
      unfold set_children. f_equal. apply alter_last. }
    split.
    + rewrite (child_text_at _ _ _ _ Hnode').
      rewrite (find_path_child_at t _ index (set_text value created)).
      * simpl. by rewrite lookup_app_r, Nat.sub_diag.
      * simpl. by rewrite lookup_app_r, Nat.sub_diag.
      * done.
      * simpl. unfold index. rewrite take_app_length. by apply find_path_child_none.
    + intros t' Hother.
      rewrite (child_text_at _ _ _ _ Hnode'), (child_text_at _ _ _ _ Hnode).
      change (set_children (_children node ++ [set_text value created]) node)
        with (append (set_text value created) node).
      rewrite find_path_child_append by (simpl; congruence).
      destruct (find_path [t'] node) as [h'|] eqn:Hfind'; [|done].
      destruct (find_path_child _ _ _ Hfind') as (j & c' & -> & Hc' & _).
      simpl. rewrite Hc'. by rewrite (lookup_app_l_Some _ _ _ _ Hc').
Qed.

Lemma getProperties_node this properties :
  getProperties this = (Normal properties, this) →
  ∃ el, node_at properties (root_of this) = Some el ∧ tag el = "Properties".
Proof.
  unfold getProperties.
  destruct (find_path ["Properties"] (root_of this)) as [h|] eqn:Hfind; [|done].
  intros [= <-]. by apply (find_path_node _ _ _ Hfind).
Qed.

(** X11. The two name setters of the properties view: after
    [setDisplayName] the display name is read back, after
    [setPublisherDisplayName] the publisher's, whether the child element
    was there or had to be created; the other name and the description
    are read back as before. *)
Theorem Properties_names_stored this properties name element_ids :
  getProperties this = (Normal properties, this) →
  name ≠ "" →
  (∃ this' element_ids',
     Properties_setDisplayName properties (Some name) (this, element_ids)
     = (Normal This, (this', element_ids'))
     ∧ Properties_getDisplayName properties this' = Some name
     ∧ getPublisherDisplayName properties this'
       = getPublisherDisplayName properties this
     ∧ Properties_getDescription properties this'
       = Properties_getDescription properties this)
  ∧ (∃ this' element_ids',
       setPublisherDisplayName properties (Some name) (this, element_ids)
       = (Normal This, (this', element_ids'))
       ∧ getPublisherDisplayName properties this' = Some name
       ∧ Properties_getDisplayName properties this'
         = Properties_getDisplayName properties this
       ∧ Properties_getDescription properties this'
         = Properties_getDescription properties this).
Proof.
  intros Hview Hname. destruct (getProperties_node _ _ Hview) as (node & Hnode & _).
  unfold Properties_setDisplayName, setPublisherDisplayName, set_child_text.
  rewrite (truthy_nonempty _ Hname). split.
  - destruct (find_or_append_set_text properties "DisplayName" (Some name)
                this element_ids node Hnode)
      as (this' & element_ids' & Hrun & _ & Hstored & Hothers).
    exists this', element_ids'. split; [exact Hrun|]. split; [exact Hstored|].
    split; by apply Hothers.
  - destruct (find_or_append_set_text properties "PublisherDisplayName" (Some name)
                this element_ids node Hnode)
      as (this' & element_ids' & Hrun & _ & Hstored & Hothers).
    exists this', element_ids'. split; [exact Hrun|]. split; [exact Hstored|].
    split; by apply Hothers.
Qed.

Lemma Properties_names_stored_witness :
  (∃ this' element_ids',
     Properties_setDisplayName [2] (Some "HelloCordova") (template_manifest, 18)
     = (Normal This, (this', element_ids'))
     ∧ Properties_getDisplayName [2] this' = Some "HelloCordova"
     ∧ getPublisherDisplayName [2] this'
       = getPublisherDisplayName [2] template_manifest
     ∧ Properties_getDescription [2] this'
       = Properties_getDescription [2] template_manifest)
  ∧ (∃ this' element_ids',
       setPublisherDisplayName [2] (Some "HelloCordova") (template_manifest, 18)
       = (Normal This, (this', element_ids'))
       ∧ getPublisherDisplayName [2] this' = Some "HelloCordova"
       ∧ Properties_getDisplayName [2] this'
         = Properties_getDisplayName [2] template_manifest
       ∧ Properties_getDescription [2] this'
         = Properties_getDescription [2] template_manifest).
Proof.
  apply (Properties_names_stored template_manifest [2] "HelloCordova" 18).
  - reflexivity.
  - discriminate.
Defined.

Lemma length_le_1_eq {A} (l : list A) x y :
  length l ≤ 1 → x ∈ l → y ∈ l → x = y.
Proof.
  destruct l as [|a [|b l]]; simpl; [by intros _ ?%elem_of_nil| |lia].
  by intros _ ->%list_elem_of_singleton ->%list_elem_of_singleton.
Qed.

(** X12. The description setter of the properties view never throws.
    With a text, the description is read back processed, and the two
    names are read back as before. Without one, the first Description
    child is removed: when the element had no more than one, none is
    found afterwards, and when it had none nothing changes. *)
Theorem Properties_setDescription_cases this properties node text element_ids :
  node_at properties (root_of this) = Some node →
  ∃ this' element_ids',
    Properties_setDescription properties text (this, element_ids)
    = (Normal This, (this', element_ids'))
    ∧ if truthy text then
        Properties_getDescription properties this'
        = Some (processDescription (default "" text))
        ∧ Properties_getDisplayName properties this'
          = Properties_getDisplayName properties this
        ∧ getPublisherDisplayName properties this'
          = getPublisherDisplayName properties this
      else
        element_ids' = element_ids
        ∧ (length (findall_children "Description" node) ≤ 1 →
           Properties_getDescription properties this' = None)
        ∧ (findall_children "Description" node = [] → this' = this).
Proof.
  intros Hnode. unfold Properties_setDescription.
  destruct (truthy text) eqn:Htext; cbn [negb].
  - destruct (find_or_append_set_text properties "Description"
                (Some (processDescription (default "" text)))
                this element_ids node Hnode)
      as (this' & element_ids' & Hrun & _ & Hstored & Hothers).
    exists this', element_ids'. split; [exact Hrun|]. split; [exact Hstored|].
    split; by apply Hothers.
  - destruct (find_under properties ["Description"] (root_of this))
      as [h|] eqn:Hfind.
    + destruct (find_under_child _ _ _ _ Hfind)
        as (node0 & i & el & Hnode0 & -> & Hel & Htag & Hat).
      assert (node0 = node) as -> by congruence.
      rewrite Hat. eexists _, _. split; [reflexivity|]. split; [done|]. split.
      * intros Hone.
        assert (Hnode' : node_at properties
                           (root_of (on_root (modify_at (remove el) properties) this))
                         = Some (remove el node)).
        { rewrite root_of_on_root. by apply node_at_modify_at. }
        unfold Properties_getDescription.
        rewrite (child_text_at _ _ _ _ Hnode').
        assert (Hnone : find_path ["Description"] (remove el node) = None);
          [|by rewrite Hnone].
        apply find_path_child_none. unfold remove. simpl.
        apply Forall_forall. intros x [Hid Hx]%list_elem_of_filter Hxtag.
        apply Hid. f_equal. apply (length_le_1_eq _ _ _ Hone).
        -- by apply list_elem_of_filter.
        -- apply list_elem_of_filter. split; [done|].
           by apply (list_elem_of_lookup_2 _ i).
      * intros Hnone. exfalso.
        assert (Hin : el ∈ findall_children "Description" node).
        { apply list_elem_of_filter. split; [done|].
          by apply (list_elem_of_lookup_2 _ i). }
        rewrite Hnone in Hin. by apply elem_of_nil in Hin.
    + eexists _, _. split; [reflexivity|]. split; [done|]. split; [|done].
      intros _. unfold Properties_getDescription, child_text. by rewrite Hfind.
Qed.

Lemma Properties_setDescription_cases_witness :
  ∃ this' element_ids',
    Properties_setDescription [2] (Some "A sample app") (template_manifest, 18)
    = (Normal This, (this', element_ids'))
    ∧ if truthy (Some "A sample app") then
        Properties_getDescription [2] this'
        = Some (processDescription (default "" (Some "A sample app")))
        ∧ Properties_getDisplayName [2] this'
          = Properties_getDisplayName [2] template_manifest
        ∧ getPublisherDisplayName [2] this'
          = getPublisherDisplayName [2] template_manifest
      else
        element_ids' = 18
        ∧ (length (findall_children "Description" template_properties) ≤ 1 →
           Properties_getDescription [2] this' = None)
        ∧ (findall_children "Description" template_properties = [] →
           this' = template_manifest).
Proof.
  apply (Properties_setDescription_cases template_manifest [2] template_properties
           (Some "A sample app") 18).
  reflexivity.
Defined.

(** ** The views: lists of child elements *)

Lemma modify_at_ext f g h e :
  (∀ x, f x = g x) → modify_at f h e = modify_at g h e.
Proof.
  intros Hfg. revert e. induction h as [|i h IH]; intros e; simpl; [apply Hfg|].
  f_equal. apply list_alter_ext; [|done]. intros c _. apply IH.
Qed.

Lemma modify_at_compose f g h e :
  modify_at f h (modify_at g h e) = modify_at (f ∘ g) h e.
Proof.
  revert e. induction h as [|i h IH]; intros e; simpl; [done|].
  unfold set_children. simpl. f_equal. rewrite list_alter_alter_eq.
  apply list_alter_ext; [|done]. intros c _. apply IH.
Qed.

Lemma set_children_same e : set_children (_children e) e = e.
Proof. by destruct e. Qed.

Lemma modify_at_id f h e : (∀ x, f x = x) → modify_at f h e = e.
Proof.
  intros Hf. revert e. induction h as [|i h IH]; intros e; simpl; [apply Hf|].
  rewrite list_alter_id by apply IH. apply set_children_same.
Qed.

Lemma on_root_id f this : (∀ x, f x = x) → on_root f this = this.
Proof. intros Hf. destruct this as [p [root] b]. unfold on_root. simpl. by rewrite Hf. Qed.

(** A loop that appends one new element per entry to the element at a
    handle, in one step. *)
Lemma fold_append_at {X} (make : nat → X → Element)
    (step : AppxManifest * nat → X → AppxManifest * nat) h l this element_ids :
  (∀ this element_ids x,
     step (this, element_ids) x
     = (on_root (modify_at (append (make element_ids x)) h) this, S element_ids)) →
  fold_left step l (this, element_ids)
  = (on_root (modify_at
       (λ e, set_children (_children e ++ imap (λ i x, make (element_ids + i) x) l) e)
       h) this,
     element_ids + length l).
Proof.
  intros Hstep. revert this element_ids.
  induction l as [|x l IH]; intros this element_ids.
  - simpl. rewrite Nat.add_0_r. f_equal. symmetry. apply on_root_id. intros root.
    apply modify_at_id. intros e. rewrite app_nil_r. apply set_children_same.
  - cbn [fold_left]. rewrite Hstep, IH. f_equal; [|simpl; lia].
    unfold on_root. simpl. do 2 f_equal. rewrite modify_at_compose.
    apply modify_at_ext. intros e. unfold append, set_children. simpl.
    f_equal. rewrite <- app_assoc. simpl. rewrite Nat.add_0_r. do 2 f_equal.
    apply imap_ext. intros i y _. simpl. f_equal. lia.
Qed.

Lemma filter_alter_other (P : Element → Prop) `{∀ x, Decision (P x)}
    (f : Element → Element) i (cs : list Element) c :
  cs !! i = Some c → ¬ P c → ¬ P (f c) →
  filter P (alter f i cs) = filter P cs.
Proof.
  revert i. induction cs as [|a cs IH]; intros [|i]; simpl; try done.
  - intros [= ->] Hc Hfc. change (filter P (f c :: cs) = filter P (c :: cs)).
    by rewrite !filter_cons, !decide_False.
  - intros Hi Hc Hfc.
    change (filter P (a :: alter f i cs) = filter P (a :: cs)).
    rewrite !filter_cons. by rewrite (IH i Hi Hc Hfc).
Qed.

(** What [find_or_append] leaves behind: the handle refers to a child
    with the tag, a search finds that child, and the children with other
    tags are those of before. *)
Lemma find_or_append_result parent t this element_ids node :
  node_at parent (root_of this) = Some node →
  ∃ i this1 element_ids1 node1 c,
    find_or_append parent t (this, element_ids)
    = (Normal (parent ++ [i]), (this1, element_ids1))
    ∧ element_ids ≤ element_ids1
    ∧ node_at parent (root_of this1) = Some node1
    ∧ find_under parent [t] (root_of this1) = Some (parent ++ [i])
    ∧ _children node1 !! i = Some c ∧ tag c = t
    ∧ attrib node1 = attrib node
    ∧ ∀ t', t' ≠ t → findall_children t' node1 = findall_children t' node.
Proof.
  intros Hnode. unfold find_or_append.
  destruct (find_under parent [t] (root_of this)) as [h|] eqn:Hfind.
  - destruct (find_under_child _ _ _ _ Hfind)
      as (node0 & i & c & Hnode0 & -> & Hc & Htag & _).
    assert (node0 = node) as -> by congruence.
    exists i, this, element_ids, node, c. eauto 10.
  - assert (Hnone : find_path [t] node = None).
    { unfold find_under in Hfind. rewrite Hnode in Hfind.
      apply bind_None in Hfind as [?|(node0 & [= <-] & Hrest)]; [done|].
      by apply bind_None in Hrest as [?|(rel & _ & ?)]. }
    rewrite Hnode. cbn [from_option new_Element].
    set (created := mkElement element_ids t ∅ None [] None).
    assert (Hnode1 : node_at parent
                       (root_of (on_root (modify_at (append created) parent) this))
                     = Some (append created node)).
    { rewrite root_of_on_root. by apply node_at_modify_at. }
    assert (Hlast : _children (append created node) !! length (_children node)
                    = Some created).
    { simpl. by rewrite lookup_app_r, Nat.sub_diag. }
    exists (length (_children node)), (on_root (modify_at (append created) parent) this),
      (S element_ids), (append created node), created.
    split; [done|]. split; [lia|]. split; [exact Hnode1|]. split.
    { unfold find_under. rewrite Hnode1.
      change ((find_path [t] (append created node) ≫= λ rel, Some (parent ++ rel))
              = Some (parent ++ [length (_children node)])).
      rewrite (find_path_child_at t _ _ created Hlast); [done|done|].
      simpl. rewrite take_app_length. by apply find_path_child_none. }
    split; [exact Hlast|]. split; [done|]. split; [done|].
    intros t' Hother. unfold findall_children. simpl. rewrite filter_app.
    rewrite filter_cons, decide_False by (simpl; congruence).
    rewrite filter_nil. apply app_nil_r.
Qed.

(** The first child with a tag is removed from the element a handle
    refers to. *)
Lemma remove_found_child parent t this node :
  node_at parent (root_of this) = Some node →
  ∃ node',
    node_at parent
      (root_of (remove_found parent (find_under parent [t] (root_of this)) this))
    = Some node'
    ∧ attrib node' = attrib node
    ∧ (length (findall_children t node) ≤ 1 → findall_children t node' = []).
Proof.
  intros Hnode. unfold remove_found.
  destruct (find_under parent [t] (root_of this)) as [h|] eqn:Hfind.
  - destruct (find_under_child _ _ _ _ Hfind)
      as (node0 & i & el & Hnode0 & -> & Hel & Htag & Hat).
    assert (node0 = node) as -> by congruence.
    rewrite Hat. exists (remove el node).
    split; [rewrite root_of_on_root; by apply node_at_modify_at|].
    split; [done|].
    intros Hone. unfold findall_children, remove. simpl.
    apply filter_none. apply Forall_forall.
    intros x [Hid Hx]%list_elem_of_filter Hxtag.
    apply Hid. f_equal. apply (length_le_1_eq _ _ _ Hone).
    + by apply list_elem_of_filter.
    + apply list_elem_of_filter. split; [done|].
      by apply (list_elem_of_lookup_2 _ i).
  - exists node. split; [done|]. split; [done|].
    intros _. unfold find_under in Hfind. rewrite Hnode in Hfind.
    apply bind_None in Hfind as [?|(node0 & [= <-] & Hrest)]; [done|].
    apply bind_None in Hrest as [Hnone|(rel & _ & ?)]; [|done].
    apply filter_none. by apply find_path_child_none.
Qed.

Lemma setAccessRules_run application rules this element_ids :
  setAccessRules application rules (this, element_ids)
  = let this1 :=
      remove_found application
        (find_under application ["uap:ApplicationContentUriRules"] (root_of this))
        this in
    if no_items rules then (Normal Undefined, (this1, element_ids))
    else
      let index :=
        length (from_option _children [] (node_at application (root_of this1))) in
      (Normal This,
       fold_left (append_rule (application ++ [index])) (default [] rules)
         (on_root (modify_at
            (append (mkElement element_ids "uap:ApplicationContentUriRules"
                               ∅ None [] None)) application) this1,
          S element_ids)).
Proof. unfold setAccessRules. simpl. by destruct (no_items rules). Qed.

(** X13. [setAccessRules] replaces the access rules of an application
    that has at most one rules element: the rules that [getAccessRules]
    reads afterwards are the ones given, in their order. Without rules,
    or with an empty list, it goes no further than the removal and
    returns nothing. The attributes of the application are left as they
    are. *)
Theorem setAccessRules_round_trip this application node rules element_ids :
  node_at application (root_of this) = Some node →
  length (findall_children "uap:ApplicationContentUriRules" node) ≤ 1 →
  ∃ this' element_ids',
    setAccessRules application rules (this, element_ids)
    = (Normal (if no_items rules then Undefined else This), (this', element_ids'))
    ∧ getAccessRules application this' = Some <$> default [] rules
    ∧ getId application this' = getId application this
    ∧ getStartPage application this' = getStartPage application this.
Proof.
  intros Hnode Hone. rewrite setAccessRules_run. cbv zeta.
  destruct (remove_found_child application "uap:ApplicationContentUriRules"
              this node Hnode) as (node1 & Hnode1 & Hattrib & Hnone).
  specialize (Hnone Hone).
  set (this1 := remove_found application _ this) in *.
  destruct (no_items rules) eqn:Hrules.
  - eexists _, _. split; [reflexivity|]. split; [|split].
    + unfold getAccessRules, findall_grandchildren. rewrite Hnode1, Hnone.
      destruct rules as [[|rule rules]|]; done.
    + unfold getId, get_attribute. rewrite Hnode1, Hnode.
      cbn [mbind option_bind]. by rewrite Hattrib.
    + unfold getStartPage. rewrite Hnode1, Hnode.
      cbn [mbind option_bind]. by rewrite Hattrib.
  - rewrite Hnode1. cbn [from_option].
    set (created := mkElement element_ids "uap:ApplicationContentUriRules"
                              ∅ None [] None).
    set (make := λ ids rule,
           mkElement ids "uap:Rule"
             (list_to_map [("Match", rule); ("Type", "include");
                           ("WindowsRuntimeAccess", "all")]) None [] None).
    rewrite (fold_append_at make _ (application ++ [length (_children node1)]))
      by done.
    set (rule_elements := imap (λ i rule, make (S element_ids + i) rule)
                               (default [] rules)).
    eexists _, _. split; [reflexivity|].
    assert (Hnode' :
      node_at application
        (root_of (on_root (modify_at
           (λ e, set_children (_children e ++ rule_elements) e)
           (application ++ [length (_children node1)]))
           (on_root (modify_at (append created) application) this1)))
      = Some (set_children (_children node1 ++ [set_children rule_elements created])
                           node1)).
    { rewrite !root_of_on_root, node_at_modify_at_below.
      rewrite (node_at_modify_at _ _ _ _ Hnode1).
      change (Some (set_children
                      (alter (λ e, set_children (_children e ++ rule_elements) e)
                             (length (_children node1)) (_children node1 ++ [created]))
                      node1)
              = Some (set_children
                        (_children node1 ++ [set_children rule_elements created])
                        node1)).
      by rewrite alter_last. }
    split; [|split].
    + unfold getAccessRules. rewrite Hnode'.
      unfold findall_grandchildren.
      assert (Hrules_found :
        findall_children "uap:ApplicationContentUriRules"
          (set_children (_children node1 ++ [set_children rule_elements created]) node1)
        = [set_children rule_elements created]).
      { unfold findall_children in *. simpl. rewrite filter_app, Hnone. done. }
      rewrite Hrules_found.
      change ((λ rule, attrib rule !! "Match")
                <$> (findall_children "uap:Rule" (set_children rule_elements created)
                     ++ [])
              = Some <$> default [] rules).
      rewrite app_nil_r. unfold findall_children. simpl.
      rewrite filter_all.
      * unfold rule_elements. rewrite fmap_imap. rewrite <- imap_const.
        apply imap_ext. intros i rule _. simpl. done.
      * apply Forall_forall. intros x Hx. unfold rule_elements in Hx.
        apply elem_of_lookup_imap_1 in Hx as (i & rule & -> & _). done.
    + unfold getId, get_attribute. rewrite Hnode', Hnode.
      cbn [mbind option_bind]. by rewrite <- Hattrib.
    + unfold getStartPage. rewrite Hnode', Hnode.
      cbn [mbind option_bind]. by rewrite <- Hattrib.
Qed.

Lemma setAccessRules_round_trip_witness :
  ∃ this' element_ids',
    setAccessRules [4; 0] (Some ["https://cordova.apache.org"; "ms-appx-web:///"])
      (template_manifest, 18)
    = (Normal (if no_items (Some ["https://cordova.apache.org"; "ms-appx-web:///"])
               then Undefined else This), (this', element_ids'))
    ∧ getAccessRules [4; 0] this'
      = Some <$> default [] (Some ["https://cordova.apache.org"; "ms-appx-web:///"])
    ∧ getId [4; 0] this' = getId [4; 0] template_manifest
    ∧ getStartPage [4; 0] this' = getStartPage [4; 0] template_manifest.
Proof.
  apply (setAccessRules_round_trip template_manifest [4; 0]
           (element 7 "Application" [("Id", "$safeprojectname$");
                                     ("StartPage", "www/index.html")]
              [template_visual_elements])).
  - reflexivity.
  - vm_compute. lia.
Defined.

Lemma setOrientation_run visualElements orientation this element_ids :
  let requested :=
    if truthy orientation then default "" orientation else "default" in
  setOrientation visualElements orientation (this, element_ids)
  = match find_or_append visualElements "uap:InitialRotationPreference"
            (this, element_ids) with
    | (Normal rotationPreferenceRoot, (this, element_ids)) =>
        let this := on_root (modify_at clear rotationPreferenceRoot) this in
        if bool_decide (requested ∈ Object_prototype_keys) then
          (Throw (TypeError "orientations.forEach is not a function"),
           (this, element_ids))
        else
          (Normal This,
           fold_left (append_rotation rotationPreferenceRoot)
             match KNOWN_ORIENTATIONS requested with
             | Some known => known
             | None => split_on "," requested
             end (this, element_ids))
    | (Throw e, state) => (Throw e, state)
    end.
Proof.
  unfold setOrientation.
  assert (Hrequested :
    (if negb (truthy orientation) || String.eqb (default "" orientation) ""
     then "default" else default "" orientation)
    = if truthy orientation then default "" orientation else "default").
  { destruct orientation as [o|]; [|done]. simpl.
    by destruct (String.eqb o ""). }
  cbv zeta. rewrite Hrequested.
  assert (Htruthy :
    truthy (Some (if truthy orientation then default "" orientation else "default"))
    = true).
  { destruct orientation as [o|]; [|done]. simpl.
    destruct (String.eqb o "") eqn:Ho; [done|]. simpl. by rewrite Ho. }
  rewrite Htruthy. done.
Qed.

(** X14. [setOrientation] with an orientation that is no key inherited
    from [Object.prototype]: the removal branch is never taken; the
    InitialRotationPreference child of the visual elements, created when
    missing, is emptied and gets one uap:Rotation child per orientation
    (those of [KNOWN_ORIENTATIONS], or the pieces between commas). What
    [getOrientation] reads, the uap:Rotation children of the visual
    elements themselves, is left as it was. *)
Theorem setOrientation_rotations this visualElements node orientation element_ids :
  let requested :=
    if truthy orientation then default "" orientation else "default" in
  node_at visualElements (root_of this) = Some node →
  requested ∉ Object_prototype_keys →
  ∃ this' element_ids' h el,
    setOrientation visualElements orientation (this, element_ids)
    = (Normal This, (this', element_ids'))
    ∧ find_under visualElements ["uap:InitialRotationPreference"] (root_of this')
      = Some h
    ∧ node_at h (root_of this') = Some el
    ∧ attrib el = ∅
    ∧ (λ c, (tag c, attrib c !! "Preference")) <$> _children el
      = (λ preference, ("uap:Rotation", Some preference))
          <$> match KNOWN_ORIENTATIONS requested with
              | Some known => known
              | None => split_on "," requested
              end
    ∧ getOrientation visualElements this' = getOrientation visualElements this.
Proof.
  intros requested Hnode Hown. rewrite setOrientation_run. fold requested.
  destruct (find_or_append_result visualElements "uap:InitialRotationPreference"
              this element_ids node Hnode)
    as (i & this1 & ids1 & node1 & c & -> & _ & Hnode1 & Hfind1 & Hc & Htag
        & _ & Hothers).
  cbv zeta. rewrite bool_decide_eq_false_2 by done.
  set (orientations := match KNOWN_ORIENTATIONS requested with
                       | Some known => known
                       | None => split_on "," requested
                       end).
  set (make := λ ids orientation,
         mkElement ids "uap:Rotation" {["Preference" := orientation]} None [] None).
  rewrite (fold_append_at make _ (visualElements ++ [i])) by done.
  set (rotations := imap (λ j orientation, make (ids1 + j) orientation) orientations).
  set (F := (λ e, set_children (_children e ++ rotations) e) ∘ clear).
  assert (Hroot :
    root_of (on_root (modify_at (λ e, set_children (_children e ++ rotations) e)
                                (visualElements ++ [i]))
               (on_root (modify_at clear (visualElements ++ [i])) this1))
    = modify_at F (visualElements ++ [i]) (root_of this1)).
  { rewrite !root_of_on_root. apply modify_at_compose. }
  assert (HF : ∀ d, tag (F d) = tag d) by done.
  assert (Hat : node_at (visualElements ++ [i]) (root_of this1) = Some c).
  { rewrite node_at_app, Hnode1. simpl. by rewrite Hc. }
  eexists _, _, (visualElements ++ [i]), (F c).
  split; [reflexivity|]. rewrite Hroot.
  split; [by rewrite find_under_modify_at_child|].
  split; [by apply node_at_modify_at|].
  split; [done|]. split.
  - unfold F, rotations. simpl. rewrite fmap_imap, <- imap_const.
    by apply imap_ext.
  - unfold getOrientation. rewrite Hroot.
    rewrite node_at_modify_at_below, Hnode1, Hnode.
    change ((λ element, attrib element !! "Preference")
              <$> findall_children "uap:Rotation" (modify_at F [i] node1)
            = (λ element, attrib element !! "Preference")
                <$> findall_children "uap:Rotation" node).
    f_equal.
    rewrite <- (Hothers "uap:Rotation") by done.
    unfold findall_children. simpl.
    apply (filter_alter_other _ _ _ _ c Hc); rewrite ?HF, Htag; done.
Qed.

Lemma setOrientation_rotations_witness :
  ∃ this' element_ids' h el,
    setOrientation [4; 0; 0] (Some "landscape") (template_manifest, 18)
    = (Normal This, (this', element_ids'))
    ∧ find_under [4; 0; 0] ["uap:InitialRotationPreference"] (root_of this') = Some h
    ∧ node_at h (root_of this') = Some el
    ∧ attrib el = ∅
    ∧ (λ c, (tag c, attrib c !! "Preference")) <$> _children el
      = (λ preference, ("uap:Rotation", Some preference))
          <$> match KNOWN_ORIENTATIONS
                      (if truthy (Some "landscape")
                       then default "" (Some "landscape") else "default") with
              | Some known => known
              | None => split_on ","
                          (if truthy (Some "landscape")
                           then default "" (Some "landscape") else "default")
              end
    ∧ getOrientation [4; 0; 0] this' = getOrientation [4; 0; 0] template_manifest.
Proof.
  apply (setOrientation_rotations template_manifest [4; 0; 0]
           template_visual_elements (Some "landscape") 18).
  - reflexivity.
  - apply (bool_decide_unpack _). vm_compute. exact I.
Defined.

(** X15. [setOrientation] with an orientation that names a property that
    [KNOWN_ORIENTATIONS] inherits from [Object.prototype], such as
    ["constructor"]: the lookup gives something that is no array, and the
    call throws a [TypeError], after the InitialRotationPreference element
    has been created or emptied. *)
Theorem setOrientation_inherited_key this visualElements node orientation element_ids :
  node_at visualElements (root_of this) = Some node →
  orientation ∈ Object_prototype_keys →
  ∃ this' element_ids' message h el,
    setOrientation visualElements (Some orientation) (this, element_ids)
    = (Throw (TypeError message), (this', element_ids'))
    ∧ find_under visualElements ["uap:InitialRotationPreference"] (root_of this')
      = Some h
    ∧ node_at h (root_of this') = Some el
    ∧ _children el = [] ∧ attrib el = ∅.
Proof.
  intros Hnode Hkey. rewrite setOrientation_run.
  assert (Hrequested :
    (if truthy (Some orientation) then default "" (Some orientation) else "default")
    = orientation).
  { rewrite truthy_nonempty; [done|]. intros ->.
    apply (bool_decide_pack _) in Hkey. by vm_compute in Hkey. }
  cbv zeta. rewrite Hrequested.
  destruct (find_or_append_result visualElements "uap:InitialRotationPreference"
              this element_ids node Hnode)
    as (i & this1 & ids1 & node1 & c & -> & _ & Hnode1 & Hfind1 & Hc & Htag & _).
  rewrite bool_decide_eq_true_2 by done.
  assert (Hat : node_at (visualElements ++ [i]) (root_of this1) = Some c).
  { rewrite node_at_app, Hnode1. simpl. by rewrite Hc. }
  eexists _, _, _, (visualElements ++ [i]), (clear c).
  split; [reflexivity|]. rewrite root_of_on_root.
  split; [by rewrite find_under_modify_at_child|].
  split; [by apply node_at_modify_at|done].
Qed.

Lemma setOrientation_inherited_key_witness :
  ∃ this' element_ids' message h el,
    setOrientation [4; 0; 0] (Some "constructor") (template_manifest, 18)
    = (Throw (TypeError message), (this', element_ids'))
    ∧ find_under [4; 0; 0] ["uap:InitialRotationPreference"] (root_of this') = Some h
    ∧ node_at h (root_of this') = Some el
    ∧ _children el = [] ∧ attrib el = ∅.
Proof.
  apply (setOrientation_inherited_key template_manifest [4; 0; 0]
           template_visual_elements "constructor" 18).
  - reflexivity.
  - apply (bool_decide_unpack _). vm_compute. exact I.
Defined.

(** ** The shortcuts *)

(** X16. [setPackageName]: without an Identity element it throws the
    [Error] of [getIdentity], without a name the [TypeError] of
    [setName], and in both cases the manifest is unchanged; otherwise it
    returns the manifest, whose identity has the name. *)
Theorem setPackageName_cases this name :
  match find_child "Identity" (root_of this) with
  | None => ∃ message, setPackageName name this = (Throw (Error message), this)
  | Some identity =>
      if truthy name then
        ∃ this', setPackageName name this = (Normal This, this')
                 ∧ getName identity this' = name
                 ∧ getVersion identity this' = getVersion identity this
      else ∃ message, setPackageName name this = (Throw (TypeError message), this)
  end.
Proof.
  unfold setPackageName, bind.
  destruct (find_child "Identity" (root_of this)) as [identity|] eqn:Hfind.
  - assert (Hview : getIdentity this = (Normal identity, this)).
    { unfold getIdentity. by rewrite Hfind. }
    destruct (getIdentity_node _ _ Hview) as (el & Hnode & _).
    rewrite Hview. unfold setName. rewrite set_required_attribute_run.
    destruct (truthy name) eqn:Hname; [|by eexists].
    eexists. split; [reflexivity|]. split.
    + unfold getName. rewrite (get_attribute_set _ _ _ _ el Hnode).
      by destruct name.
    + by apply get_attribute_set_other_node.
  - unfold getIdentity. rewrite Hfind. by eexists.
Qed.

Lemma Forall2_alter_l {A} (R : A → A → Prop) (g : A → A) i (l : list A) :
  (∀ x, R x x) → (∀ x, l !! i = Some x → R (g x) x) →
  Forall2 R (alter g i l) l.
Proof.
  intros Hrefl. revert i. induction l as [|a l IH]; intros i Hg; [constructor|].
  destruct i as [|i].
  - change (Forall2 R (g a :: l) (a :: l)). constructor; [by apply Hg|].
    by apply Forall_Forall2_diag, Forall_forall.
  - change (Forall2 R (a :: alter g i l) (a :: l)). constructor; [done|].
    apply IH. intros x Hx. by apply Hg.
Qed.

(** A search along a path does not see a mutation that keeps the tag and
    the children of the element it is made on. *)
Lemma find_path_modify_at_fields f h tags e :
  (∀ x, tag (f x) = tag x) → (∀ x, _children (f x) = _children x) →
  find_path tags (modify_at f h e) = find_path tags e.
Proof.
  intros Htag Hchildren. revert tags e.
  induction h as [|i h IH]; intros [|t tags] e; try done.
  - simpl. by rewrite Hchildren.
  - change (scan_children (find_path tags) t 0
              (alter (modify_at f h) i (_children e))
            = scan_children (find_path tags) t 0 (_children e)).
    apply scan_children_ext. apply Forall2_alter_l; [done|].
    intros c _. by rewrite tag_modify_at, IH.
Qed.

(** Nor one under a child whose tag is not the first of the path. *)
Lemma find_path_modify_at_other f p r e c t tags :
  _children e !! p = Some c → tag c ≠ t → tag (modify_at f r c) = tag c →
  find_path (t :: tags) (modify_at f (p :: r) e) = find_path (t :: tags) e.
Proof.
  intros Hc Hother Hkept.
  change (scan_children (find_path tags) t 0
            (alter (modify_at f r) p (_children e))
          = scan_children (find_path tags) t 0 (_children e)).
  apply scan_children_ext. apply Forall2_alter_l; [done|].
  intros x Hx. assert (x = c) as -> by congruence. rewrite Hkept.
  by destruct (String.eqb_spec (tag c) t).
Qed.

Lemma on_root_on_root f g this :
  on_root f (on_root g this) = on_root (f ∘ g) this.
Proof. done. Qed.

(** The setters of a child's text act under the parent only. *)
Lemma find_or_append_set_text_frame parent t value this element_ids :
  ∃ F this' element_ids',
    (let! child := find_or_append parent t in
     do! with_manifest (modify_state (on_root (modify_at (set_text value) child))) in
     ret This) (this, element_ids)
    = (Normal This, (this', element_ids'))
    ∧ root_of this' = modify_at F parent (root_of this)
    ∧ ∀ x, tag (F x) = tag x.
Proof.
  unfold bind, find_or_append, with_manifest, modify_state, ret.
  destruct (find_under parent [t] (root_of this)) as [h|] eqn:Hfind.
  - apply bind_Some in Hfind as (node & Hnode & Hrest).
    apply bind_Some in Hrest as (rel & Hrel & [= <-]).
    destruct (find_path_child _ _ _ Hrel) as (i & c & -> & _).
    exists (modify_at (set_text value) [i]). eexists _, _.
    split; [reflexivity|]. split; [|done].
    rewrite root_of_on_root. apply modify_at_app.
  - cbn [new_Element].
    set (created := mkElement element_ids t ∅ None [] None).
    set (index := length _).
    exists (modify_at (set_text value) [index] ∘ append created). eexists _, _.
    split; [reflexivity|]. split; [|done].
    rewrite !root_of_on_root, modify_at_app. apply modify_at_compose.
Qed.

Lemma child_text_aside parent t this this' :
  (∀ r, node_at (parent ++ r) (root_of this') = node_at (parent ++ r) (root_of this)) →
  child_text parent t this' = child_text parent t this.
Proof.
  intros Hsame. unfold child_text, find_under.
  pose proof (Hsame []) as Hparent. rewrite !app_nil_r in Hparent. rewrite Hparent.
  destruct (node_at parent (root_of this)) as [node|]; [|done].
  change (((find_path [t] node ≫= λ rel, Some (parent ++ rel))
           ≫= λ h, node_at h (root_of this') ≫= text)
          = ((find_path [t] node ≫= λ rel, Some (parent ++ rel))
             ≫= λ h, node_at h (root_of this) ≫= text)).
  destruct (find_path [t] node) as [rel|]; [|done].
  change (node_at (parent ++ rel) (root_of this') ≫= text
          = node_at (parent ++ rel) (root_of this) ≫= text).
  by rewrite Hsame.
Qed.

Lemma node_at_modify_at_aside_0 f i j r1 r2 e :
  i ≠ j → node_at (i :: r1) (modify_at f (j :: r2) e) = node_at (i :: r1) e.
Proof. intros Hne. by apply (node_at_modify_at_aside f [] i j r1 r2 e). Qed.

(** What [setAppName] does up to its second step: the display name of
    the properties is set, and the searches of the views find what they
    found before. *)
Lemma setAppName_first_step this properties name element_ids :
  getProperties this = (Normal properties, this) →
  name ≠ "" →
  ∃ this1 element_ids1,
    Properties_setDisplayName properties (Some name) (this, element_ids)
    = (Normal This, (this1, element_ids1))
    ∧ Properties_getDisplayName properties this1 = Some name
    ∧ path this1 = path this
    ∧ find_path ["Applications"; "Application"; "uap:VisualElements"] (root_of this1)
      = find_path ["Applications"; "Application"; "uap:VisualElements"] (root_of this)
    ∧ ∃ p F, properties = [p] ∧ root_of this1 = modify_at F [p] (root_of this).
Proof.
  intros Hview Hname. destruct (getProperties_node _ _ Hview) as (node & Hnode & _).
  unfold getProperties in Hview.
  destruct (find_path ["Properties"] (root_of this)) as [h|] eqn:Hfind; [|done].
  injection Hview as ->.
  destruct (find_path_child _ _ _ Hfind) as (p & pc & -> & Hpc & Hptag & _).
  unfold Properties_setDisplayName, set_child_text.
  rewrite (truthy_nonempty _ Hname).
  destruct (find_or_append_set_text [p] "DisplayName" (Some name)
              this element_ids node Hnode)
    as (this1 & ids1 & Hrun & _ & Hstored & _).
  destruct (find_or_append_set_text_frame [p] "DisplayName" (Some name)
              this element_ids)
    as (F & this1' & ids1' & Hrun' & Hroot & HF).
  rewrite Hrun in Hrun'. injection Hrun' as <- <-.
  exists this1, ids1. split; [exact Hrun|]. split; [exact Hstored|]. split.
  - clear -Hrun. unfold bind, find_or_append, with_manifest, modify_state, ret in Hrun.
    destruct (find_under [p] ["DisplayName"] (root_of this)); simpl in Hrun.
    + by injection Hrun as <- _.
    + by injection Hrun as <- _.
  - split; [|by exists p, F].
    rewrite Hroot. apply (find_path_modify_at_other _ _ _ _ pc); [done| |apply HF].
    by rewrite Hptag.
Qed.

(** X17. [setAppName] on a manifest with the three elements it writes to:
    the display name of the properties, the display name of the visual
    elements and the short name of the default tile are all read back as
    the name. *)
Theorem setAppName_sets_three_names this properties visualElements defaultTitle
    name element_ids :
  getProperties this = (Normal properties, this) →
  getVisualElements this = (Normal visualElements, this) →
  getDefaultTitle visualElements this = Some defaultTitle →
  name ≠ "" →
  ∃ this' element_ids',
    setAppName (Some name) (this, element_ids) = (Normal This, (this', element_ids'))
    ∧ Properties_getDisplayName properties this' = Some name
    ∧ VisualElements_getDisplayName visualElements this' = Some name
    ∧ getShortName (Some defaultTitle) this' = Normal (Some name).
Proof.
  intros Hproperties Hvisual Hdefault Hname.
  destruct (setAppName_first_step this properties name element_ids Hproperties Hname)
    as (this1 & ids1 & Hrun1 & Hstored1 & Hpath1 & Hfind1 & p & F & -> & Hroot1).
  unfold getVisualElements in Hvisual.
  destruct (find_path _ (root_of this)) as [h|] eqn:Hfind; [|done].
  injection Hvisual as ->.
  destruct (scan_children_found _ _ _ _ _ Hfind)
    as (a & ac & rest & HV & Hac & Hatag & _).
  simpl in HV.
  assert (Hpa : p ≠ a).
  { intros ->. destruct (getProperties_node _ _ Hproperties) as (el & Hel & Heltag).
    simpl in Hel. rewrite Hac in Hel. simpl in Hel. congruence. }
  unfold getDefaultTitle in Hdefault.
  apply bind_Some in Hdefault as (vnode & Hvnode & Hrest).
  apply bind_Some in Hrest as (rel & Hrel & [= <-]).
  destruct (find_path_child _ _ _ Hrel) as (d & dc & -> & Hdc & _).
  set (set_display := set_attribute "DisplayName" name).
  set (set_short := set_attribute "ShortName" name).
  set (this2 := on_root (modify_at set_display visualElements) this1).
  set (this3 := on_root (modify_at set_short (visualElements ++ [d])) this2).
  assert (Hvnode1 : node_at visualElements (root_of this1) = Some vnode).
  { rewrite Hroot1, HV. rewrite node_at_modify_at_aside_0 by done.
    by rewrite <- HV. }
  assert (Hvnode2 : node_at visualElements (root_of this2) = Some (set_display vnode)).
  { unfold this2. rewrite root_of_on_root. by apply node_at_modify_at. }
  assert (Hfind2 : find_path ["Applications"; "Application"; "uap:VisualElements"]
                     (root_of this2) = Some visualElements).
  { unfold this2. rewrite root_of_on_root.
    rewrite find_path_modify_at_fields by done. by rewrite Hfind1. }
  assert (Hdefault2 : find_under visualElements ["uap:DefaultTile"] (root_of this2)
                      = Some (visualElements ++ [d])).
  { unfold find_under. rewrite Hvnode2.
    change ((find_path ["uap:DefaultTile"] (set_display vnode)
             ≫= λ rel, Some (visualElements ++ rel))
            = Some (visualElements ++ [d])).
    rewrite (find_path_child_tags _ _ vnode) by done. by rewrite Hrel. }
  assert (Hdnode2 : node_at (visualElements ++ [d]) (root_of this2) = Some dc).
  { rewrite node_at_app, Hvnode2. simpl. by rewrite Hdc. }
  exists this3, ids1. split; [|split; [|split]].
  - unfold setAppName, bind, with_manifest. rewrite Hproperties, Hrun1.
    unfold getVisualElements. rewrite Hfind1.
    unfold VisualElements_setDisplayName. rewrite set_required_attribute_run.
    rewrite (truthy_nonempty _ Hname). change (default "" (Some name)) with name.
    fold set_display. fold this2. rewrite Hfind2.
    unfold getDefaultTitle. rewrite Hdefault2.
    unfold setShortName. rewrite (truthy_nonempty _ Hname). done.
  - unfold Properties_getDisplayName. rewrite <- Hstored1.
    apply child_text_aside. intros r. unfold this3, this2.
    rewrite !root_of_on_root, HV. simpl.
    change (node_at (p :: r)
              (modify_at set_short (a :: (rest ++ [d]))
                 (modify_at set_display (a :: rest) (root_of this1)))
            = node_at (p :: r) (root_of this1)).
    by rewrite !node_at_modify_at_aside_0.
  - unfold VisualElements_getDisplayName, get_attribute, this3.
    rewrite root_of_on_root, node_at_modify_at_below, Hvnode2.
    simpl. apply lookup_insert_eq.
  - unfold getShortName. f_equal. unfold this3.
    by apply (get_attribute_set _ _ _ _ dc).
Qed.

Lemma setAppName_sets_three_names_witness :
  ∃ this' element_ids',
    setAppName (Some "HelloCordova") (template_manifest, 18)
    = (Normal This, (this', element_ids'))
    ∧ Properties_getDisplayName [2] this' = Some "HelloCordova"
    ∧ VisualElements_getDisplayName [4; 0; 0] this' = Some "HelloCordova"
    ∧ getShortName (Some [4; 0; 0; 0]) this' = Normal (Some "HelloCordova").
Proof.
  apply (setAppName_sets_three_names template_manifest [2] [4; 0; 0] [4; 0; 0; 0]
           "HelloCordova" 18).
  - reflexivity.
  - reflexivity.
  - reflexivity.
  - discriminate.
Defined.

(** X18. [setAppName] is not atomic. On a manifest with a Properties
    element and no visual elements it throws the [Error] of
    [getVisualElements], after it has set the display name of the
    properties. *)
Theorem setAppName_without_VisualElements this properties name element_ids :
  getProperties this = (Normal properties, this) →
  find_path ["Applications"; "Application"; "uap:VisualElements"] (root_of this)
  = None →
  name ≠ "" →
  ∃ this' element_ids' message,
    setAppName (Some name) (this, element_ids)
    = (Throw (Error message), (this', element_ids'))
    ∧ Properties_getDisplayName properties this' = Some name.
Proof.
  intros Hproperties Hvisual Hname.
  destruct (setAppName_first_step this properties name element_ids Hproperties Hname)
    as (this1 & ids1 & Hrun1 & Hstored1 & _ & Hfind1 & _).
  exists this1, ids1. eexists. split; [|exact Hstored1].
  unfold setAppName, bind, with_manifest. rewrite Hproperties, Hrun1.
  unfold getVisualElements. rewrite Hfind1, Hvisual. reflexivity.
Qed.

Lemma setAppName_without_VisualElements_witness :
  ∃ this' element_ids' message,
    setAppName (Some "HelloCordova") (sample_manifest, 12)
    = (Throw (Error message), (this', element_ids'))
    ∧ Properties_getDisplayName [2] this' = Some "HelloCordova".
Proof.
  apply (setAppName_without_VisualElements sample_manifest [2] "HelloCordova" 12).
  - reflexivity.
  - reflexivity.
  - discriminate.
Defined.

(** ** More of the manifest cache *)

(** X19. A call of [get] that is not answered by the cache (the cache
    is ignored, or the lookup [manifestCache[fileName]] gives
    [undefined]), on a file whose root is a Package that declares the uap
    namespace, reads the file twice (once for the check of the namespace,
    once in the constructor) and returns a reference to a new instance for
    that path and document; unless the cache is ignored, the instance is
    cached under the file name and the next call returns it without
    reading the file. *)
Theorem get_creates_instance p fileName (ignoreCache : bool) tree :
  files p !! fileName = Some tree →
  is_Some (attrib (_root tree) !! "xmlns:uap") →
  tag (_root tree) = "Package" →
  (if ignoreCache then @None Value else cache_member (manifestCache p) fileName)
  = None →
  ∃ instance p',
    get fileName ignoreCache p = (Normal (Manifest instance), p')
    ∧ instances p' = instances p ++ [mkAppxManifest fileName tree true]
    ∧ instances p' !! instance = Some (mkAppxManifest fileName tree true)
    ∧ parsed p' = parsed p ++ [fileName; fileName]
    ∧ files p' = files p
    ∧ if ignoreCache then manifestCache p' = manifestCache p
      else manifestCache p' = <[fileName := instance]> (manifestCache p)
           ∧ get fileName false p' = (Normal (Manifest instance), p').
Proof.
  intros Hfile Huap Hroot Hmiss. rewrite (get_uncached _ _ _ Hmiss), Hfile.
  rewrite bool_decide_eq_true_2 by by apply Object_keys_includes.
  rewrite Hroot. eexists _, _. split; [reflexivity|]. simpl.
  split; [done|]. split; [by rewrite lookup_app_r, Nat.sub_diag|].
  split; [done|]. split; [done|].
  destruct ignoreCache; [done|]. split; [done|].
  apply get_cached, cache_member_own. simpl. apply lookup_insert_eq.
Qed.

Lemma get_creates_instance_witness :
  ∃ instance p',
    get "/uap/prefixed" false (loaded test_disk) = (Normal (Manifest instance), p')
    ∧ instances p'
      = instances (loaded test_disk)
        ++ [mkAppxManifest "/uap/prefixed"
              (mkElementTree (element 0 "Package" [("xmlns:uap", "")] [])) true]
    ∧ instances p' !! instance
      = Some (mkAppxManifest "/uap/prefixed"
                (mkElementTree (element 0 "Package" [("xmlns:uap", "")] [])) true)
    ∧ parsed p' = parsed (loaded test_disk) ++ ["/uap/prefixed"; "/uap/prefixed"]
    ∧ files p' = files (loaded test_disk)
    ∧ if false then manifestCache p' = manifestCache (loaded test_disk)
      else manifestCache p'
           = <["/uap/prefixed" := instance]> (manifestCache (loaded test_disk))
           ∧ get "/uap/prefixed" false p' = (Normal (Manifest instance), p').
Proof.
  apply (get_creates_instance (loaded test_disk) "/uap/prefixed" false
           (mkElementTree (element 0 "Package" [("xmlns:uap", "")] []))).
  - vm_compute. reflexivity.
  - vm_compute. eexists. reflexivity.
  - reflexivity.
  - vm_compute. reflexivity.
Defined.

(** X20. A file whose root declares the uap namespace and is no Package
    passes the check of [get] and is rejected by the constructor, after
    the file has been read a second time: a call of [get] that is not
    answered by the cache throws an [Error] that names the file, no
    instance is created and nothing is cached. *)
Theorem get_incorrect_root p fileName (ignoreCache : bool) tree :
  files p !! fileName = Some tree →
  is_Some (attrib (_root tree) !! "xmlns:uap") →
  tag (_root tree) ≠ "Package" →
  (if ignoreCache then @None Value else cache_member (manifestCache p) fileName)
  = None →
  ∃ p',
    get fileName ignoreCache p
    = (Throw (Error (fileName +:+ " has incorrect root node name (expected "
                     +:+ dquote +:+ "Package" +:+ dquote +:+ ")")), p')
    ∧ parsed p' = parsed p ++ [fileName; fileName]
    ∧ instances p' = instances p
    ∧ manifestCache p' = manifestCache p.
Proof.
  intros Hfile Huap Hroot Hmiss. rewrite (get_uncached _ _ _ Hmiss), Hfile.
  rewrite bool_decide_eq_true_2 by by apply Object_keys_includes.
  destruct (String.eqb_spec (tag (_root tree)) "Package") as [?|_]; [done|].
  by eexists.
Qed.

Lemma get_incorrect_root_witness :
  let p := loaded {["/config.xml" := mkElementTree
                                       (element 0 "widget" [("xmlns:uap", "")] [])]} in
  ∃ p',
    get "/config.xml" false p
    = (Throw (Error ("/config.xml" +:+ " has incorrect root node name (expected "
                     +:+ dquote +:+ "Package" +:+ dquote +:+ ")")), p')
    ∧ parsed p' = parsed p ++ ["/config.xml"; "/config.xml"]
    ∧ instances p' = instances p
    ∧ manifestCache p' = manifestCache p.
Proof.
  apply (get_incorrect_root
           (loaded {["/config.xml" := mkElementTree
                                        (element 0 "widget" [("xmlns:uap", "")] [])]})
           "/config.xml" false
           (mkElementTree (element 0 "widget" [("xmlns:uap", "")] []))).
  - vm_compute. reflexivity.
  - vm_compute. eexists. reflexivity.
  - discriminate.
  - vm_compute. reflexivity.
Defined.

Lemma lookup_fold_delete_cases (keys : list string) (cache : gmap string nat) key :
  fold_left (λ cache key, delete key cache) keys cache !! key
  = if bool_decide (key ∈ keys) then None else cache !! key.
Proof.
  revert cache. induction keys as [|k keys IH]; intros cache; [done|].
  cbn [fold_left]. rewrite IH.
  destruct (decide (key = k)) as [->|Hne].
  - rewrite (bool_decide_eq_true_2 (k ∈ k :: keys)) by left.
    rewrite lookup_delete_eq. by destruct (bool_decide (k ∈ keys)).
  - rewrite lookup_delete_ne by done.
    destruct (decide (key ∈ keys)) as [Hin|Hout].
    + rewrite !bool_decide_eq_true_2; [done|by right|done].
    + rewrite !bool_decide_eq_false_2; [done| |done].
      by intros [?|?]%elem_of_cons.
Qed.

(** X21. [purgeCache] with keys. With an array, the cache's own entries
    under the keys in it are deleted and the others kept: with the empty
    array, all are kept. With a single key that is not the empty string,
    it does what it does with the array of that key; the empty string is
    "no argument", and the whole cache is purged. A lookup of a purged
    key then gives what the cache object inherits under that name, or
    [undefined]: a file whose key was purged, and is not the name of an
    inherited member, is read again by the next [get]; a file with an
    entry whose key was not purged is not. *)
Theorem purgeCache_keys keys p :
  let p' := (purgeCache (ManyKeys keys) p).2 in
  (∀ key, manifestCache p' !! key
          = if bool_decide (key ∈ keys) then None else manifestCache p !! key)
  ∧ (∀ key, cache_member (manifestCache p') key
            = if bool_decide (key ∈ keys) then cache_member ∅ key
              else cache_member (manifestCache p) key)
  ∧ (∀ key, key ≠ "" → purgeCache (OneKey key) p = purgeCache (ManyKeys [key]) p)
  ∧ purgeCache (OneKey "") p = purgeCache NoKeys p
  ∧ (∀ key, key ∈ keys → key ∉ Object_prototype_keys →
            parsed (get key false p').2 = parsed p ++ [key]
            ∨ parsed (get key false p').2 = parsed p ++ [key; key])
  ∧ (∀ key instance, key ∉ keys → manifestCache p !! key = Some instance →
                     get key false p' = (Normal (Manifest instance), p')).
Proof.
  intros p'.
  assert (Hcache : ∀ key, manifestCache p' !! key
                          = if bool_decide (key ∈ keys) then None
                            else manifestCache p !! key).
  { intros key. apply lookup_fold_delete_cases. }
  split; [exact Hcache|]. split; [|split; [|split; [done|split]]].
  - intros key. unfold cache_member. rewrite Hcache, lookup_empty.
    by destruct (bool_decide (key ∈ keys)).
  - intros key Hkey. unfold purgeCache. simpl.
    by destruct (String.eqb_spec key "").
  - intros key Hkey Hown.
    assert (Hmiss : cache_member (manifestCache p') key = None).
    { apply cache_member_None. split; [|done].
      by rewrite Hcache, bool_decide_eq_true_2. }
    rewrite (get_uncached key false p' Hmiss).
    destruct (files p' !! key) as [tree|]; [|by left].
    destruct (bool_decide _); [|by left].
    destruct (String.eqb _ _); by right.
  - intros key instance Hkey Hcached. apply get_cached, cache_member_own.
    by rewrite Hcache, bool_decide_eq_false_2.
Qed.

(** ** More of the serialisation *)

Lemma with_capabilities_at f this h :
  find_descendant "Capabilities" (root_of this) = Some h →
  with_capabilities f this = (Normal tt, on_root (modify_at f h) this).
Proof. intros Hfind. unfold with_capabilities. by rewrite Hfind. Qed.

(** The document that [writeToString] serialises: the three passes have
    run on the Capabilities element, where it was. *)
Lemma writeToString_root et_write engine this h :
  find_descendant "Capabilities" (root_of this) = Some h →
  ∃ this',
    writeToString et_write engine this = (Normal (et_write (doc this') 4), this')
    ∧ root_of this' = modify_at (normalize_capabilities engine) h (root_of this)
    ∧ path this' = path this.
Proof.
  intros Hfind.
  set (this1 := on_root (modify_at ensureUapPrefixedCapabilities h) this).
  set (this2 := on_root (modify_at ensureUniqueCapabilities h) this1).
  set (this3 := on_root (modify_at (sort_children engine) h) this2).
  assert (Hfind1 : find_descendant "Capabilities" (root_of this1) = Some h).
  { by apply find_descendant_modify_at. }
  assert (Hfind2 : find_descendant "Capabilities" (root_of this2) = Some h).
  { apply find_descendant_modify_at; [apply tag_ensureUniqueCapabilities|done]. }
  exists this3. unfold writeToString, sortCapabilities, bind.
  rewrite (with_capabilities_at _ _ _ Hfind). fold this1.
  rewrite (with_capabilities_at _ _ _ Hfind1). fold this2.
  rewrite (with_capabilities_at _ _ _ Hfind2). fold this3.
  split; [done|]. split; [|done].
  unfold this3, this2, this1. rewrite !root_of_on_root, !modify_at_compose. done.
Qed.

Lemma fields_fold_unique_step pending seen c :
  let c' := (fold_left unique_step pending (seen, c)).2 in
  _id c' = _id c ∧ attrib c' = attrib c ∧ text c' = text c.
Proof.
  revert seen c. induction pending as [|el pending IH]; intros seen c; [done|].
  cbn [fold_left unique_step]. destruct (bool_decide _); [|apply IH].
  destruct (IH seen (remove el c)) as (Hid & Hattrib & Htext). done.
Qed.

Lemma fields_normalize_capabilities engine c :
  (λ e, (_id e, tag e, attrib e, text e)) (normalize_capabilities engine c)
  = (λ e, (_id e, tag e, attrib e, text e)) c.
Proof.
  unfold normalize_capabilities. rewrite sort_children_eq. simpl.
  rewrite tag_ensureUniqueCapabilities.
  destruct (fields_fold_unique_step
              (getchildren (ensureUapPrefixedCapabilities c)) []
              (ensureUapPrefixedCapabilities c)) as (Hid & Hattrib & Htext).
  unfold ensureUniqueCapabilities. by rewrite Hid, Hattrib, Htext.
Qed.

(** A mutation at a handle shows at that handle and below it: an element
    that is not below keeps its identity, tag, attributes and text. *)
Lemma node_at_modify_at_fields f h h' e :
  (∀ x, (λ e, (_id e, tag e, attrib e, text e)) (f x)
        = (λ e, (_id e, tag e, attrib e, text e)) x) →
  (∀ r, h' = h ++ r → r = []) →
  (λ e, (_id e, tag e, attrib e, text e)) <$> node_at h' (modify_at f h e)
  = (λ e, (_id e, tag e, attrib e, text e)) <$> node_at h' e.
Proof.
  intros Hf. revert h' e. induction h as [|i h IH]; intros h' e Hbelow.
  - rewrite (Hbelow h' eq_refl). simpl. f_equal. apply Hf.
  - destruct h' as [|j h']; [done|].
    destruct (decide (j = i)) as [->|Hne].
    + simpl. rewrite list_lookup_alter_eq.
      destruct (_children e !! i) as [c|]; [|done].
      apply IH. intros r ->. by apply (Hbelow r).
    + by rewrite node_at_modify_at_aside_0.
Qed.

(** X22. [writeToString] changes the Capabilities element's children
    and nothing else: every element of the document that is not below
    the Capabilities element keeps its identity, tag, attributes and
    text, and the path of the manifest is the same. *)
Theorem writeToString_frame et_write engine this capabilities :
  find_descendant "Capabilities" (root_of this) = Some capabilities →
  ∃ this',
    writeToString et_write engine this = (Normal (et_write (doc this') 4), this')
    ∧ path this' = path this
    ∧ ∀ h, (∀ below, h = capabilities ++ below → below = []) →
           (λ e, (_id e, tag e, attrib e, text e)) <$> node_at h (root_of this')
           = (λ e, (_id e, tag e, attrib e, text e)) <$> node_at h (root_of this).
Proof.
  intros Hfind.
  destruct (writeToString_root et_write engine this capabilities Hfind)
    as (this' & Hrun & Hroot & Hpath).
  exists this'. split; [exact Hrun|]. split; [exact Hpath|].
  intros h Hbelow. rewrite Hroot.
  apply node_at_modify_at_fields; [|exact Hbelow].
  apply fields_normalize_capabilities.
Qed.

Lemma writeToString_frame_witness :
  ∃ this',
    writeToString no_text TimSort duplicated_manifest
    = (Normal (no_text (doc this') 4), this')
    ∧ path this' = path duplicated_manifest
    ∧ ∀ h, (∀ below, h = [5] ++ below → below = []) →
           (λ e, (_id e, tag e, attrib e, text e)) <$> node_at h (root_of this')
           = (λ e, (_id e, tag e, attrib e, text e))
               <$> node_at h (root_of duplicated_manifest).
Proof.
  apply (writeToString_frame no_text TimSort duplicated_manifest [5]).
  reflexivity.
Defined.

(** X23. In the document that [writeToString] serialises, every child
    of the Capabilities element whose name is among those that need the
    uap namespace has a tag that starts with ["uap:"]; and every child is
    one of the children of before, with its identity and attributes, and
    its tag or that tag prefixed. *)
Theorem writeToString_uap_prefixed et_write engine this capabilities :
  capabilities_of this = Some capabilities →
  NoDup (_id <$> getchildren capabilities) →
  ∃ this' capabilities',
    writeToString et_write engine this = (Normal (et_write (doc this') 4), this')
    ∧ capabilities_of this' = Some capabilities'
    ∧ length (getchildren capabilities') ≤ length (getchildren capabilities)
    ∧ ∀ el', el' ∈ getchildren capabilities' →
             (includes_name CAPS_NEEDING_UAPNS (name_of el') = true →
              String.prefix "uap:" (tag el') = true)
             ∧ ∃ el, el ∈ getchildren capabilities
                     ∧ _id el' = _id el ∧ attrib el' = attrib el
                     ∧ (tag el' = tag el ∨ tag el' = "uap:" +:+ tag el).
Proof.
  intros Hcaps Hids.
  destruct (writeToString_run et_write engine this capabilities Hcaps)
    as (this' & Hrun & Hcaps' & _).
  exists this', (normalize_capabilities engine capabilities).
  split; [exact Hrun|]. split; [exact Hcaps'|].
  rewrite children_normalize_capabilities by done. split.
  - rewrite Array_sort_Permutation, length_fmap.
    etrans; [apply sublist_length, keep_first_sublist|]. by rewrite length_fmap.
  - intros el'. rewrite Array_sort_Permutation.
    intros (kept & -> & Hkept)%list_elem_of_fmap.
    pose proof (elem_of_sublist _ _ _ Hkept (keep_first_sublist _ _)) as Hin.
    apply list_elem_of_fmap in Hin as (el & -> & Hel).
    split.
    + change (includes_name CAPS_NEEDING_UAPNS (name_of (uap_prefixed el)) = true →
              String.prefix "uap:" (tag (uap_prefixed el)) = true).
      intros Hneeds. pose proof (needs_uap_prefix_uap_prefixed el) as Hdone.
      unfold needs_uap_prefix in Hdone. unfold name_of in Hneeds.
      rewrite Hneeds in Hdone. simpl in Hdone. by apply negb_false_iff.
    + exists el. split; [done|].
      change (_id (uap_prefixed el) = _id el ∧ attrib (uap_prefixed el) = attrib el
              ∧ (tag (uap_prefixed el) = tag el
                 ∨ tag (uap_prefixed el) = "uap:" +:+ tag el)).
      unfold uap_prefixed. destruct (needs_uap_prefix el); simpl; eauto.
Qed.

Lemma writeToString_uap_prefixed_witness :
  ∃ this' capabilities',
    writeToString no_text TimSort duplicated_manifest
    = (Normal (no_text (doc this') 4), this')
    ∧ capabilities_of this' = Some capabilities'
    ∧ length (getchildren capabilities') ≤ length (getchildren duplicated_capabilities)
    ∧ ∀ el', el' ∈ getchildren capabilities' →
             (includes_name CAPS_NEEDING_UAPNS (name_of el') = true →
              String.prefix "uap:" (tag el') = true)
             ∧ ∃ el, el ∈ getchildren duplicated_capabilities
                     ∧ _id el' = _id el ∧ attrib el' = attrib el
                     ∧ (tag el' = tag el ∨ tag el' = "uap:" +:+ tag el).
Proof.
  apply (writeToString_uap_prefixed no_text TimSort duplicated_manifest
           duplicated_capabilities).
  - vm_compute. reflexivity.
  - apply (bool_decide_unpack _). vm_compute. exact I.
Defined.

(** ** The version, written back *)

Lemma dot_digit_matches_cons2 c d s :
  dot_digit_matches (String c (String d s))
  = if Ascii.eqb c "." && is_digit d
    then String c (String d EmptyString) :: dot_digit_matches s
    else dot_digit_matches (String d s).
Proof. done. Qed.

(** One more [".0"], one more match. *)
Lemma length_dot_digit_matches_zero n s :
  String.length s ≤ n →
  length (dot_digit_matches (s +:+ ".0")) = S (length (dot_digit_matches s)).
Proof.
  revert s. induction n as [|n IH]; intros s Hlen.
  - destruct s; [done|simpl in Hlen; lia].
  - destruct s as [|c [|d s]]; [done| |].
    + change (String c "" +:+ ".0") with (String c (String "." (String "0" ""))).
      rewrite dot_digit_matches_cons2.
      replace (Ascii.eqb c "." && is_digit ".") with false
        by (by rewrite andb_false_r).
      done.
    + rewrite !append_cons, !dot_digit_matches_cons2.
      destruct (Ascii.eqb c "." && is_digit d).
      * rewrite !length_cons. f_equal. apply IH. simpl in Hlen. lia.
      * rewrite <- append_cons. apply IH. simpl in Hlen |- *. lia.
Qed.

Lemma length_dot_digit_matches_padded version k :
  length (dot_digit_matches (version +:+ zero_components k))
  = length (dot_digit_matches version) + k.
Proof.
  revert version. induction k as [|k IH]; intros version.
  - simpl. rewrite append_nil_r. lia.
  - change (zero_components (S k)) with (".0" +:+ zero_components k).
    rewrite <- append_assoc, IH.
    rewrite (length_dot_digit_matches_zero (String.length version)) by done. lia.
Qed.

(** The version that the setter stores is one that it stores as it is. *)
Lemma adjust_version_idempotent version :
  adjust_version (adjust_version version) = adjust_version version.
Proof.
  unfold adjust_version at 2 3. unfold match_dot_digit.
  destruct (dot_digit_matches version) as [|m ms] eqn:Hmatches.
  - unfold adjust_version, match_dot_digit. by rewrite Hmatches.
  - rewrite pad_version_appends by (simpl; lia).
    set (k := 4 - (length (m :: ms) + 1)).
    unfold adjust_version, match_dot_digit.
    pose proof (length_dot_digit_matches_padded version k) as Hpadded.
    rewrite Hmatches in Hpadded.
    destruct (dot_digit_matches (version +:+ zero_components k)) as [|m' ms'] eqn:Hm';
      [simpl in Hpadded; lia|].
    assert (Hfour : 4 ≤ length (m' :: ms') + 1) by (unfold k in Hpadded; lia).
    destruct (length (m' :: ms') + 1) as [|[|[|[|n]]]]; try lia. done.
Qed.

Lemma adjust_version_nonempty version : version ≠ "" → adjust_version version ≠ "".
Proof.
  intros Hversion. unfold adjust_version, match_dot_digit.
  destruct (dot_digit_matches version) as [|m ms]; [done|].
  rewrite pad_version_appends by (simpl; lia).
  destruct version as [|c version]; [done|]. by rewrite append_cons.
Qed.

Lemma set_attribute_again name value el :
  set_attribute name value (set_attribute name value el) = set_attribute name value el.
Proof. unfold set_attribute, set_attrib. simpl. by rewrite insert_insert_eq. Qed.

(** X24. The version that [setVersion] has stored can be written back:
    [setVersion] of what [getVersion] returns after a [setVersion] leaves
    the manifest as it is, since a padded version is not padded again. *)
Theorem setVersion_written_back this identity version :
  getIdentity this = (Normal identity, this) →
  version ≠ "" →
  ∃ this' stored,
    setVersion identity (Some version) this = (Normal This, this')
    ∧ getVersion identity this' = Some stored
    ∧ setVersion identity (Some stored) this' = (Normal This, this').
Proof.
  intros Hview Hversion. destruct (getIdentity_node _ _ Hview) as (el & Hnode & _).
  exists (on_root (modify_at (set_attribute "Version" (adjust_version version))
                             identity) this), (adjust_version version).
  split; [|split].
  - unfold setVersion. by rewrite (truthy_nonempty _ Hversion).
  - by apply (set_attribute_stored _ _ _ _ el).
  - unfold setVersion.
    rewrite (truthy_nonempty _ (adjust_version_nonempty _ Hversion)).
    change (default "" (Some (adjust_version version))) with (adjust_version version).
    rewrite adjust_version_idempotent.
    unfold bind, modify_state, ret. f_equal.
    unfold on_root. simpl. do 2 f_equal.
    rewrite modify_at_compose.
    apply modify_at_ext. intros x. apply set_attribute_again.
Qed.

Lemma setVersion_written_back_witness :
  ∃ this' stored,
    setVersion [0] (Some "1.2") template_manifest = (Normal This, this')
    ∧ getVersion [0] this' = Some stored
    ∧ setVersion [0] (Some stored) this' = (Normal This, this').
Proof.
  apply (setVersion_written_back template_manifest [0] "1.2").
  - reflexivity.
  - discriminate.
Defined.

(** ** More of the demultiplexing *)

Lemma targets_generic_retarget change : targets_generic (retarget change) = false.
Proof.
  unfold retarget. destruct (targets_generic change) eqn:Hgeneric; [done|exact Hgeneric].
Qed.

(** X29. What [processChanges] returns has as many changes as its
    argument, none of which targets ['package.appxmanifest']; given its
    own result, [processChanges] returns it as it is. *)
Theorem processChanges_fixed changes :
  let result := items_of changes (processChanges changes) in
  length result = length changes
  ∧ Forall (λ change, target change ≠ "package.appxmanifest") result
  ∧ processChanges result = Argument.
Proof.
  intros result.
  assert (Hresult : result = retarget <$> changes).
  { unfold result, processChanges.
    destruct (existsb targets_generic changes) eqn:Hany; simpl.
    - by rewrite fold_retarget.
    - symmetry. by apply retarget_others. }
  assert (Hnone : existsb targets_generic result = false).
  { rewrite Hresult. clear. induction changes as [|change changes IH]; [done|].
    rewrite fmap_cons. simpl. by rewrite targets_generic_retarget, IH. }
  split; [by rewrite Hresult, length_fmap|]. split.
  - rewrite Hresult. apply Forall_fmap, Forall_forall. intros change _ Htarget.
    pose proof (targets_generic_retarget change) as Hgeneric.
    unfold targets_generic, GENERIC_MANIFEST in Hgeneric. simpl in Htarget.
    rewrite Htarget in Hgeneric. done.
  - unfold processChanges. by rewrite Hnone.
Qed.

(** ** The phone identity *)

(** X30. [getPhoneIdentity] throws an [Error] that names the path of
    the manifest when the root has no PhoneIdentity child, and leaves the
    manifest as it is. On the view of the first such child,
    [setPhoneProductId] stores the identifier that [getPhoneProductId]
    reads, and the view stays the one that [getPhoneIdentity] returns. *)
Theorem getPhoneIdentity_cases this id :
  match find_path ["PhoneIdentity"] (root_of this) with
  | None =>
      getPhoneIdentity this
      = (Throw (Error ("Failed to find PhoneIdentity element in appxmanifest at "
                       +:+ path this)), this)
  | Some phoneIdentity =>
      getPhoneIdentity this = (Normal phoneIdentity, this)
      ∧ (truthy id = true →
         ∃ this',
           setPhoneProductId phoneIdentity id this = (Normal This, this')
           ∧ getPhoneProductId phoneIdentity this' = id
           ∧ getPhoneIdentity this' = (Normal phoneIdentity, this'))
  end.
Proof.
  unfold getPhoneIdentity.
  destruct (find_path ["PhoneIdentity"] (root_of this)) as [h|] eqn:Hfind; [|done].
  split; [done|]. intros Hid.
  destruct (find_path_node _ _ _ Hfind) as (el & Hnode & _).
  unfold setPhoneProductId. rewrite Hid. eexists. split; [reflexivity|]. split.
  - unfold getPhoneProductId. rewrite (get_attribute_set _ _ _ _ el Hnode).
    by destruct id.
  - rewrite root_of_on_root, find_path_modify_at_fields by done. by rewrite Hfind.
Qed.
